(** * uWebSocketManager: rooms, connections, dispatch and relay

    A shallow embedding of [UWebSocketManager] (the connection gateway, the
    room registry, the custom handler table, the event dispatcher and the
    Redis relay bridge) together with the properties of its behaviour.

    Conventions of the embedding.
    - A JS [Map] is a [gmap], a JS [Set] a [gset]; iteration over either
      is iteration over [map_to_list] / [elements].  JS iterates in
      insertion order, the model in the order of the finite-map
      representation, so statements speak about which deliveries happen
      and how often, never about their relative order; two program
      states that differ only in such an order are one state of the
      model.
    - WebSocket objects are shared, mutable objects: the transport, the
      connection table and every handler see the same user data.  They
      live in an explicit store [wss], addressed by a reference [wsref].
    - Effects on the outside world (a frame sent to a socket, a message
      published on the relay channel, a custom handler being called, a
      write on a pending HTTP response) are collected in a trace.
    - Logging is not modelled. *)

From Stdlib Require Import ZArith String List.
From stdpp Require Import base option list strings gmap fin_maps fin_sets.

Local Open Scope string_scope.
Local Open Scope list_scope.
#[local] Set Warnings "-clear-no-such-hyp".

(** ** Data model (types.ts) *)

(** [id: string | number] *)
Inductive Ident :=
  | IdString (s : string)
  | IdNumber (n : Z).

Inductive EventType := Create | Update | Delete.

(** [RealtimeEventPayload.user] *)
Record EventUser := {
  eu_id : Ident;
  eu_email : option string;
  eu_collection : option string;
}.

(** [RealtimeEventPayload]; [doc] is an arbitrary JSON document, kept as
    its serialised text. *)
Record RealtimeEventPayload := {
  ev_type : EventType;
  ev_collection : string;
  ev_id : Ident;
  ev_doc : option string;
  ev_user : option EventUser;
  ev_timestamp : string;
}.

(** [WebSocketUserData.user] *)
Record User := {
  user_id : Ident;
  user_email : option string;
  user_collection : option string;
  user_role : option string;
}.

(** [WebSocketUserData].  [id] and [rooms] are optional in the type but
    always set by [upgrade] and read through [!] by every handler. *)
Record WebSocketUserData := {
  ud_user : option User;
  ud_id : string;
  ud_rooms : gset string;
}.

(** Payload of an inbound client message ([data?: any]).  The manager only
    asks whether it is an array and renders it (or its elements) inside a
    template literal, so a value is identified with that rendering. *)
Inductive Data :=
  | DScalar (rendering : string)
  | DArray (renderings : list string).

(** [WebSocketMessage] *)
Record WebSocketMessage := {
  msg_type : string;
  msg_data : Data;
}.

(** What the manager sends as [data]: an event, the [{ userId }] object of
    a leave notification, or a value supplied by a caller. *)
Inductive Payload :=
  | PEvent (e : RealtimeEventPayload)
  | PUserLeft (userId : Ident)
  | PData (d : Data).

(** The JSON object exchanged on the channel ["uwebsocket:events"]. *)
Record RelayEnvelope := {
  relay_type : string;
  relay_room : string;
  relay_eventName : string;
  relay_event : Payload;
  relay_message : Payload;
}.

(** A reference to a WebSocket object, and the identity of a handler
    closure. *)
Definition wsref := nat.
Definition handler := nat.

(** Observable effects. *)
Inductive Effect :=
  | Send (ws : wsref) (eventName : string) (data : Payload)
      (* ws.send(JSON.stringify({ type: eventName, data })) *)
  | Publish (env : RelayEnvelope)
      (* pubClient.publish("uwebsocket:events", JSON.stringify(env)) *)
  | CallHandler (h : handler) (ws : wsref) (data : Data).
      (* customHandler(ws, data) *)

#[global] Instance Ident_eq_dec : EqDecision Ident.
Proof. solve_decision. Defined.
#[global] Instance EventType_eq_dec : EqDecision EventType.
Proof. solve_decision. Defined.
#[global] Instance EventUser_eq_dec : EqDecision EventUser.
Proof. solve_decision. Defined.
#[global] Instance RealtimeEventPayload_eq_dec : EqDecision RealtimeEventPayload.
Proof. solve_decision. Defined.
#[global] Instance Data_eq_dec : EqDecision Data.
Proof. solve_decision. Defined.
#[global] Instance Payload_eq_dec : EqDecision Payload.
Proof. solve_decision. Defined.
#[global] Instance RelayEnvelope_eq_dec : EqDecision RelayEnvelope.
Proof. solve_decision. Defined.
#[global] Instance Effect_eq_dec : EqDecision Effect.
Proof. solve_decision. Defined.

(** [UWebSocketPluginOptions], the fields the manager reads.

    Assumptions on the functions of the configuration.
    - The filter, the transform and the authorization handlers are total
      functions of their arguments that return a value and leave the
      objects they are given unmodified.  (A transform that rewrites the
      event it is given in place also changes the [event.collection] that
      [emitEvent] reads afterwards; that case is outside the model.)
    - [emitEvent] runs to its end with no other task in between: the
      [await] on a handler is no suspension point of the model.  (In the
      program a connection may close while a handler is awaited; the ids
      collected before the loop are then looked up in a table that no
      longer holds them.)
    - [onSocketConnection] is represented by the handler registrations it
      performs for the socket it is given.

    [authorize] holds the own properties of the configuration object;
    what the object inherits is [Object_prototype] below. *)
Record UWebSocketPluginOptions := {
  authorize : option (gmap string (User → RealtimeEventPayload → bool));
  shouldEmit : option (RealtimeEventPayload → bool);
  transformEvent : option (RealtimeEventPayload → RealtimeEventPayload);
  onSocketConnection : option (wsref → list (string * handler));
}.

(** ** The manager state *)

Record Manager := {
  wss : gmap wsref WebSocketUserData;   (* the WebSocket objects *)
  sockets : gmap string wsref;          (* this.sockets *)
  rooms : gmap string (gset string);    (* this.rooms *)
  customHandlers : gmap string handler; (* this.customHandlers *)
  pubClient : bool;                     (* this.pubClient !== null *)
}.

Definition set_wss (f : gmap wsref WebSocketUserData → gmap wsref WebSocketUserData)
    (m : Manager) : Manager :=
  {| wss := f (wss m); sockets := sockets m; rooms := rooms m;
     customHandlers := customHandlers m; pubClient := pubClient m |}.

Definition set_sockets (f : gmap string wsref → gmap string wsref)
    (m : Manager) : Manager :=
  {| wss := wss m; sockets := f (sockets m); rooms := rooms m;
     customHandlers := customHandlers m; pubClient := pubClient m |}.

Definition set_rooms (f : gmap string (gset string) → gmap string (gset string))
    (m : Manager) : Manager :=
  {| wss := wss m; sockets := sockets m; rooms := f (rooms m);
     customHandlers := customHandlers m; pubClient := pubClient m |}.

Definition set_customHandlers (f : gmap string handler → gmap string handler)
    (m : Manager) : Manager :=
  {| wss := wss m; sockets := sockets m; rooms := rooms m;
     customHandlers := f (customHandlers m); pubClient := pubClient m |}.

(** The manager right after construction; [redis] tells whether
    [setupRedisAdapter] has connected the publishing client. *)
Definition new_manager (redis : bool) : Manager :=
  {| wss := ∅; sockets := ∅; rooms := ∅; customHandlers := ∅;
     pubClient := redis |}.

(** ** Room registry *)

(** [joinRoom(socketId, roomName)] *)
Definition joinRoom (socketId roomName : string) (m : Manager) : Manager :=
  let m1 :=
    match rooms m !! roomName with
    | None => set_rooms (insert roomName ∅) m
    | Some _ => m
    end in
  match rooms m1 !! roomName with
  | Some room => set_rooms (insert roomName ({[socketId]} ∪ room)) m1
  | None => m1
  end.

(** [leaveRoom(socketId, roomName)] *)
Definition leaveRoom (socketId roomName : string) (m : Manager) : Manager :=
  match rooms m !! roomName with
  | Some room =>
      let room' := room ∖ {[socketId]} in
      if decide (size room' = 0)
      then set_rooms (delete roomName) m
      else set_rooms (insert roomName room') m
  | None => m
  end.

(** [getSocketsInRoom(roomName)].  The program lists the members in the
    order they joined; the model lists the same members, each once, in
    the order of the set's representation. *)
Definition getSocketsInRoom (m : Manager) (roomName : string) : list string :=
  match rooms m !! roomName with
  | Some room => elements room
  | None => []
  end.

(** The member set of a room, empty when the room does not exist. *)
Definition members (m : Manager) (roomName : string) : gset string :=
  default ∅ (rooms m !! roomName).

(** ** Relay bridge and local delivery *)

(** [publishToRedis(type, room, eventName, data)]: nothing without a
    publishing client, otherwise one message carrying [data] under both
    [event] and [message]. *)
Definition publishToRedis (m : Manager) (type room eventName : string)
    (data : Payload) : list Effect :=
  if pubClient m
  then [Publish {| relay_type := type; relay_room := room;
                   relay_eventName := eventName;
                   relay_event := data; relay_message := data |}]
  else [].

(** [sendToSocket(ws, eventName, data)] *)
Definition sendToSocket (ws : wsref) (eventName : string) (data : Payload)
    : list Effect :=
  [Send ws eventName data].

(** The test [excludeSocketId && socketId === excludeSocketId]; the empty
    string is falsy, so it excludes nobody. *)
Definition is_excluded (excludeSocketId : option string) (socketId : string)
    : bool :=
  match excludeSocketId with
  | Some x => negb (bool_decide (x = "")) && bool_decide (socketId = x)
  | None => false
  end.

(** [broadcastToRoom(roomName, data, eventName, excludeSocketId?)] *)
Definition broadcastToRoom (m : Manager) (roomName : string) (data : Payload)
    (eventName : string) (excludeSocketId : option string) : list Effect :=
  let socketIds := getSocketsInRoom m roomName in
  flat_map (λ socketId,
      if is_excluded excludeSocketId socketId then []
      else match sockets m !! socketId with
           | Some socket => sendToSocket socket eventName data
           | None => []
           end) socketIds
  ++ publishToRedis m "room-broadcast" roomName eventName data.

(** [handleRedisMessage(channel, message)]; [None] stands for a message
    that [JSON.parse] rejects (the exception is caught and logged). *)
Definition handleRedisMessage (m : Manager) (channel : string)
    (message : option RelayEnvelope) : list Effect :=
  match message with
  | None => []
  | Some data =>
      if bool_decide (relay_type data = "event") then
        broadcastToRoom m (relay_room data) (relay_event data)
          (relay_eventName data) None
      else if bool_decide (relay_type data = "room-broadcast") then
        broadcastToRoom m (relay_room data) (relay_message data)
          (relay_eventName data) None
      else []
  end.

(** ** Event dispatcher *)

(** How a call ends: it returns, or an exception escapes it. *)
Inductive Completion :=
  | Normal
  | Thrown (error : string).

(** The loop of [emitEvent] over the members of the room when a handler
    is registered for the collection.  [this.sockets.get(socketId)] is
    handed to [getUserData] unchecked: for an id missing from the table
    the call [undefined.getUserData()] raises a [TypeError], which ends
    the loop and [emitEvent]. *)
Fixpoint emit_authorized (m : Manager)
    (collectionHandler : User → RealtimeEventPayload → bool)
    (finalEvent : RealtimeEventPayload) (socketIds : list string)
    : list Effect * Completion :=
  match socketIds with
  | [] => ([], Normal)
  | socketId :: rest =>
      match sockets m !! socketId with
      | None => ([], Thrown "TypeError")
      | Some socket =>
          let sent :=
            match wss m !! socket with
            | Some socketData =>
                match ud_user socketData with
                | Some user =>
                    if collectionHandler user finalEvent
                    then sendToSocket socket "payload:event" (PEvent finalEvent)
                    else []
                | None => []
                end
            | None => []
            end in
          let '(effs, c) := emit_authorized m collectionHandler finalEvent rest in
          (sent ++ effs, c)
      end
  end.

(** What [authorize[slug]] finds when [slug] is no own property of the
    configuration object: a plain object inherits the properties of
    [Object.prototype].  [emitEvent] calls what it finds as
    [collectionHandler(user, finalEvent)], a call with [this] undefined.
    - [constructor] is [Object]: [Object(user)] returns the user object,
      which is truthy.
    - [toString] returns the string ["[object Undefined]"], truthy.
    - [toLocaleString], [valueOf], [hasOwnProperty], [isPrototypeOf],
      [propertyIsEnumerable] and the four [__define...__] /
      [__lookup...__] methods convert [this] to an object first, which
      raises a [TypeError]; [__proto__] is [Object.prototype] itself,
      which is no function, so calling it raises a [TypeError]. *)
Inductive Inherited :=
  | InheritedTruthy
  | InheritedThrows.

Definition Object_prototype (key : string) : option Inherited :=
  if bool_decide (key ∈ ["constructor"; "toString"])
  then Some InheritedTruthy
  else if bool_decide
            (key ∈ ["toLocaleString"; "valueOf"; "hasOwnProperty";
                    "isPrototypeOf"; "propertyIsEnumerable"; "__proto__";
                    "__defineGetter__"; "__defineSetter__";
                    "__lookupGetter__"; "__lookupSetter__"])
  then Some InheritedThrows
  else None.

(** The same loop when [collectionHandler] is an inherited value whose
    call raises: the first member that has an identity ends the loop and
    [emitEvent] with a [TypeError]; so does, as above, a member id that
    is missing from the table. *)
Fixpoint emit_uncallable (m : Manager) (socketIds : list string)
    : list Effect * Completion :=
  match socketIds with
  | [] => ([], Normal)
  | socketId :: rest =>
      match sockets m !! socketId with
      | None => ([], Thrown "TypeError")
      | Some socket =>
          match wss m !! socket with
          | Some socketData =>
              match ud_user socketData with
              | Some _ => ([], Thrown "TypeError")
              | None => emit_uncallable m rest
              end
          | None => emit_uncallable m rest
          end
      end
  end.

(** The feed of all events: one send per key of the connection table. *)
Definition emit_all (m : Manager) (finalEvent : RealtimeEventPayload)
    : list Effect :=
  let allSocketIds := (map_to_list (sockets m)).*1 in
  flat_map (λ socketId,
      match sockets m !! socketId with
      | Some socket => sendToSocket socket "payload:event:all" (PEvent finalEvent)
      | None => []
      end) allSocketIds.

(** [emitEvent(event)].  The room and the handler are read from
    [event.collection], the payload is what the transform returned.
    [authorize[event.collection]] indexes a plain object: a collection
    the object holds no handler for still finds what the object inherits,
    and whatever is found and is truthy is called as the handler. *)
Definition emitEvent (o : UWebSocketPluginOptions) (m : Manager)
    (event : RealtimeEventPayload) : list Effect * Completion :=
  if match shouldEmit o with Some f => negb (f event) | None => false end
  then ([], Normal)
  else
    let finalEvent :=
      match transformEvent o with Some f => f event | None => event end in
    let room := "collection:" +:+ ev_collection event in
    let '(scoped, c) :=
      match authorize o with
      | Some handlers =>
          match handlers !! ev_collection event with
          | Some collectionHandler =>
              emit_authorized m collectionHandler finalEvent
                (getSocketsInRoom m room)
          | None =>
              match Object_prototype (ev_collection event) with
              | Some InheritedTruthy =>
                  emit_authorized m (λ _ _, true) finalEvent
                    (getSocketsInRoom m room)
              | Some InheritedThrows =>
                  emit_uncallable m (getSocketsInRoom m room)
              | None => ([], Normal)
              end
          end
      | None =>
          (broadcastToRoom m room (PEvent finalEvent) "payload:event" None,
           Normal)
      end in
    match c with
    | Thrown e => (scoped, Thrown e)
    | Normal =>
        (scoped ++ emit_all m finalEvent
           ++ publishToRedis m "event" room "payload:event" (PEvent finalEvent),
         Normal)
    end.

(** ** Custom handler registry and inbound messages *)

(** [on(eventName, handler)] *)
Definition on (eventName : string) (h : handler) (m : Manager) : Manager :=
  set_customHandlers (insert eventName h) m.

(** [Array.isArray(collection) ? collection : [collection]] *)
Definition collections_of (collection : Data) : list string :=
  match collection with
  | DArray l => l
  | DScalar s => [s]
  end.

(** [userData.rooms.add(roomName)] / [userData.rooms.delete(roomName)] on
    the shared WebSocket object. *)
Definition rooms_add (roomName : string) (ud : WebSocketUserData)
    : WebSocketUserData :=
  {| ud_user := ud_user ud; ud_id := ud_id ud;
     ud_rooms := {[roomName]} ∪ ud_rooms ud |}.

Definition rooms_delete (roomName : string) (ud : WebSocketUserData)
    : WebSocketUserData :=
  {| ud_user := ud_user ud; ud_id := ud_id ud;
     ud_rooms := ud_rooms ud ∖ {[roomName]} |}.

(** [handleJoinCollection(ws, collection)].  A reference that denotes no
    object does not occur in the program; the model leaves the state
    alone there. *)
Definition handleJoinCollection (m : Manager) (ws : wsref) (collection : Data)
    : Manager :=
  match wss m !! ws with
  | None => m
  | Some userData =>
      foldl (λ m coll,
          let roomName := "collection:" +:+ coll in
          set_wss (alter (rooms_add roomName) ws)
            (joinRoom (ud_id userData) roomName m))
        m (collections_of collection)
  end.

(** [handleUnsubscribe(ws, collection)] *)
Definition handleUnsubscribe (m : Manager) (ws : wsref) (collection : Data)
    : Manager :=
  match wss m !! ws with
  | None => m
  | Some userData =>
      foldl (λ m coll,
          let roomName := "collection:" +:+ coll in
          set_wss (alter (rooms_delete roomName) ws)
            (leaveRoom (ud_id userData) roomName m))
        m (collections_of collection)
  end.

(** [handleMessage(ws, msg)].  For a label with a registered handler the
    call of the handler is recorded and the manager returned is the one
    the handler is called with: what the handler's own code goes on to do
    (it has the manager and the socket in reach) is outside the model. *)
Definition handleMessage (m : Manager) (ws : wsref) (msg : WebSocketMessage)
    : Manager * list Effect :=
  let type := msg_type msg in
  let data := msg_data msg in
  if bool_decide (type = "subscribe") || bool_decide (type = "join-collection")
  then (handleJoinCollection m ws data, [])
  else if bool_decide (type = "unsubscribe")
  then (handleUnsubscribe m ws data, [])
  else
    match customHandlers m !! type with
    | Some customHandler => (m, [CallHandler customHandler ws data])
    | None => (m, [])
    end.

(** ** Connection lifecycle *)

(** [open(ws)]: the socket enters the table under the id stored in its
    user data, then [onSocketConnection] runs. *)
Definition open (o : UWebSocketPluginOptions) (m : Manager) (ws : wsref)
    : Manager :=
  match wss m !! ws with
  | None => m
  | Some userData =>
      let socketId := ud_id userData in
      let m1 := set_sockets (insert socketId ws) m in
      match onSocketConnection o with
      | Some callback =>
          foldl (λ m '(eventName, h), on eventName h m) m1 (callback ws)
      | None => m1
      end
  end.

(** The notification of [close] for one room: rooms named [project:...]
    and [actor:...] are told that the user left, the closing socket
    excepted; other rooms are told nothing. *)
Definition notify_left (m : Manager) (userData : WebSocketUserData)
    (room : string) : list Effect :=
  let socketId := ud_id userData in
  match ud_user userData with
  | Some user =>
      if String.prefix "project:" room then
        broadcastToRoom m room (PUserLeft (user_id user))
          "project:user-left" (Some socketId)
      else if String.prefix "actor:" room then
        broadcastToRoom m room (PUserLeft (user_id user))
          "actor:user-left" (Some socketId)
      else []
  | None => []
  end.

(** The body of [userData.rooms.forEach] in [close]: notify, then leave. *)
Definition close_room (userData : WebSocketUserData)
    (acc : Manager * list Effect) (room : string) : Manager * list Effect :=
  let '(m, effs) := acc in
  (leaveRoom (ud_id userData) room m, effs ++ notify_left m userData room).

(** [close(ws, code, message)] *)
Definition close (m : Manager) (ws : wsref) : Manager * list Effect :=
  match wss m !! ws with
  | None => (m, [])
  | Some userData =>
      let socketId := ud_id userData in
      let '(m1, effs) :=
        foldl (close_room userData) (m, []) (elements (ud_rooms userData)) in
      (set_sockets (delete socketId) m1, effs)
  end.

(** ** Handshake ([upgrade]) *)

(** The request as the handler reads it: the parsed query string and the
    three negotiation headers. *)
Record HttpRequest := {
  req_query : list (string * string);
  req_key : string;
  req_protocol : string;
  req_extensions : string;
}.

(** The claims of a verified token, and the user document of the host. *)
Record Decoded := {
  dec_id : string;
  dec_collection : option string;
}.

Record UserDoc := {
  doc_id : Ident;
  doc_email : option string;
  doc_role : option string;
}.

(** What the handler writes on the pending response. *)
Inductive ResponseWrite :=
  | WriteEnd (status body : string)
      (* res.writeStatus(status).end(body) *)
  | WsUpgrade (userData : WebSocketUserData) (key protocol extensions : string).
      (* res.upgrade(userData, key, protocol, extensions, context) *)

(** A handshake suspended at [await payload.findByID(...)]: the values
    captured before the suspension and the flag set by [res.onAborted]. *)
Record PendingUpgrade := {
  pu_decoded : Decoded;
  pu_key : string;
  pu_protocol : string;
  pu_extensions : string;
  pu_aborted : bool;
}.

Inductive UpgradeState :=
  | Finished (writes : list ResponseWrite)
  | Awaiting (p : PendingUpgrade).

(** How [payload.findByID] settles. *)
Inductive LookupResult :=
  | Resolved (userDoc : option UserDoc)
  | Rejected (error : string).

(** [extractTokenFromQuery(query)]: the first [token] parameter. *)
Fixpoint extractTokenFromQuery (query : list (string * string))
    : option string :=
  match query with
  | [] => None
  | (k, v) :: rest =>
      if bool_decide (k = "token") then Some v else extractTokenFromQuery rest
  end.

(** [decoded.collection || "users"] *)
Definition collection_or_users (decoded : Decoded) : string :=
  match dec_collection decoded with
  | Some c => if bool_decide (c = "") then "users" else c
  | None => "users"
  end.

(** [upgrade(res, req, context)] up to the first suspension.  The token
    check [!token] also rejects the empty token; [jwt_verify] returning
    [None] stands for [jwt.verify] throwing, which happens before any
    abort can be observed. *)
Definition upgrade (jwt_verify : string → option Decoded) (req : HttpRequest)
    : UpgradeState :=
  match extractTokenFromQuery (req_query req) with
  | None => Finished [WriteEnd "401 Unauthorized" "Authentication token required"]
  | Some token =>
      if bool_decide (token = "")
      then Finished [WriteEnd "401 Unauthorized" "Authentication token required"]
      else
        match jwt_verify token with
        | None =>
            Finished [WriteEnd "401 Unauthorized" "Invalid authentication token"]
        | Some decoded =>
            Awaiting {| pu_decoded := decoded; pu_key := req_key req;
                        pu_protocol := req_protocol req;
                        pu_extensions := req_extensions req;
                        pu_aborted := false |}
        end
  end.

(** The callback given to [res.onAborted]. *)
Definition onAborted (p : PendingUpgrade) : PendingUpgrade :=
  {| pu_decoded := pu_decoded p; pu_key := pu_key p;
     pu_protocol := pu_protocol p; pu_extensions := pu_extensions p;
     pu_aborted := true |}.

(** The handshake task once [findByID] has settled; [uuid] is the value
    [randomUUID()] would return. *)
Definition upgrade_resume (p : PendingUpgrade) (result : LookupResult)
    (uuid : string) : list ResponseWrite :=
  match result with
  | Resolved userDoc =>
      if pu_aborted p then []
      else
        match userDoc with
        | None => [WriteEnd "401 Unauthorized" "User not found"]
        | Some doc =>
            let userData :=
              {| user_id := doc_id doc; user_email := doc_email doc;
                 user_collection := Some (collection_or_users (pu_decoded p));
                 user_role := doc_role doc |} in
            if pu_aborted p then []
            else
              [WsUpgrade {| ud_user := Some userData; ud_id := uuid;
                            ud_rooms := ∅ |}
                 (pu_key p) (pu_protocol p) (pu_extensions p)]
        end
  | Rejected _ =>
      if pu_aborted p then []
      else [WriteEnd "401 Unauthorized" "Invalid authentication token"]
  end.

(** The transport's reaction to a response write: an upgrade creates the
    WebSocket object [ws] around the user data and reports it through
    [open]; a rejection creates nothing. *)
Definition accept (o : UWebSocketPluginOptions) (ws : wsref) (m : Manager)
    (write : ResponseWrite) : Manager :=
  match write with
  | WsUpgrade userData _ _ _ => open o (set_wss (insert ws userData) m) ws
  | WriteEnd _ _ => m
  end.

(** ** Reachable states *)

(** The transitions driven by the transport and by handler registration.
    The transport reports [open] once for a socket it has just created
    (a new object with a new id and no rooms), and [message] and [close]
    only for a socket that is open. *)
Inductive step (o : UWebSocketPluginOptions) : Manager → Manager → Prop :=
  | step_open m ws userData key protocol extensions :
      wss m !! ws = None →
      sockets m !! ud_id userData = None →
      ud_rooms userData = ∅ →
      step o m (accept o ws m (WsUpgrade userData key protocol extensions))
  | step_message m ws userData msg :
      wss m !! ws = Some userData →
      sockets m !! ud_id userData = Some ws →
      step o m (handleMessage m ws msg).1
  | step_close m ws userData :
      wss m !! ws = Some userData →
      sockets m !! ud_id userData = Some ws →
      step o m (close m ws).1
  | step_on m eventName h :
      step o m (on eventName h m).

(** Direct calls of the public registry methods, with any arguments. *)
Inductive registry_call : Manager → Manager → Prop :=
  | call_joinRoom m socketId roomName :
      registry_call m (joinRoom socketId roomName m)
  | call_leaveRoom m socketId roomName :
      registry_call m (leaveRoom socketId roomName m).

Definition public_step (o : UWebSocketPluginOptions) (m m' : Manager) : Prop :=
  step o m m' ∨ registry_call m m'.

(** States reached from a new manager by transport events only, and by
    transport events mixed with direct registry calls. *)
Definition reachable (o : UWebSocketPluginOptions) (m : Manager) : Prop :=
  ∃ redis, rtc (step o) (new_manager redis) m.

Definition public_reachable (o : UWebSocketPluginOptions) (m : Manager) : Prop :=
  ∃ redis, rtc (public_step o) (new_manager redis) m.

(** Membership symmetry between the connections of the table and the
    registry: a registered connection lists exactly the rooms whose
    member set holds its id. *)
Definition membership_symmetric (m : Manager) : Prop :=
  ∀ socketId ws userData roomName,
    sockets m !! socketId = Some ws →
    wss m !! ws = Some userData →
    (roomName ∈ ud_rooms userData ↔ socketId ∈ members m roomName).

(** No room of the registry is empty. *)
Definition no_empty_room (m : Manager) : Prop :=
  ∀ roomName room, rooms m !! roomName = Some room → room ≠ ∅.

(** ** Vocabulary of the statements *)

(** The handler most recently registered under [label] by a sequence of
    [on] calls, read off the sequence itself. *)
Fixpoint last_registered (label : string) (regs : list (string * handler))
    : option handler :=
  match regs with
  | [] => None
  | (l, h) :: rest =>
      match last_registered label rest with
      | Some h' => Some h'
      | None => if bool_decide (l = label) then Some h else None
      end
  end.

(** The manager after a sequence of [on] calls. *)
Definition register_all (regs : list (string * handler)) (m : Manager)
    : Manager :=
  foldl (λ m '(eventName, h), on eventName h m) m regs.

Definition reserved (label : string) : bool :=
  bool_decide (label = "subscribe") || bool_decide (label = "join-collection")
  || bool_decide (label = "unsubscribe").

(** The payloads a socket is sent under a label, in trace order. *)
Definition deliveries (ws : wsref) (eventName : string) (effs : list Effect)
    : list Payload :=
  omap (λ e,
      match e with
      | Send w l p =>
          if bool_decide (w = ws) && bool_decide (l = eventName)
          then Some p else None
      | _ => None
      end) effs.

(** The room [emitEvent] targets. *)
Definition collection_room (collection : string) : string :=
  "collection:" +:+ collection.

(** The event that passes the global filter of the options. *)
Definition passes_filter (o : UWebSocketPluginOptions)
    (event : RealtimeEventPayload) : bool :=
  match shouldEmit o with Some f => f event | None => true end.

(** The event [emitEvent] delivers. *)
Definition final_event (o : UWebSocketPluginOptions)
    (event : RealtimeEventPayload) : RealtimeEventPayload :=
  match transformEvent o with Some f => f event | None => event end.

(** The reading under which the room and the handler, too, come from the
    transformed event: the room named in relay messages, the room whose
    members get the room-scoped delivery, and the handler that decides
    it. *)
Definition relay_room_transformed (o : UWebSocketPluginOptions) (m : Manager)
    (event : RealtimeEventPayload)
    (f : RealtimeEventPayload → RealtimeEventPayload) : Prop :=
  ∀ env, Publish env ∈ (emitEvent o m event).1 →
    relay_room env = collection_room (ev_collection (f event)).

Definition target_room_transformed (o : UWebSocketPluginOptions) (m : Manager)
    (event : RealtimeEventPayload)
    (f : RealtimeEventPayload → RealtimeEventPayload) : Prop :=
  ∀ ws data, Send ws "payload:event" data ∈ (emitEvent o m event).1 →
    ∃ socketId,
      socketId ∈ members m (collection_room (ev_collection (f event)))
      ∧ sockets m !! socketId = Some ws.

(** The function whose result decides a room-scoped delivery when the
    configuration object is indexed with a collection: the registered
    handler, or an inherited function that returns something truthy. *)
Definition selected_handler
    (handlers : gmap string (User → RealtimeEventPayload → bool))
    (collection : string) : option (User → RealtimeEventPayload → bool) :=
  match handlers !! collection with
  | Some h => Some h
  | None =>
      match Object_prototype collection with
      | Some InheritedTruthy => Some (λ _ _, true)
      | _ => None
      end
  end.

Definition handler_transformed (o : UWebSocketPluginOptions) (m : Manager)
    (event : RealtimeEventPayload)
    (f : RealtimeEventPayload → RealtimeEventPayload) : Prop :=
  ∀ handlers ws data,
    authorize o = Some handlers →
    Send ws "payload:event" data ∈ (emitEvent o m event).1 →
    ∃ h userData user,
      selected_handler handlers (ev_collection (f event)) = Some h
      ∧ wss m !! ws = Some userData ∧ ud_user userData = Some user
      ∧ h user (f event) = true.

(** The table maps an id to a socket that carries this id. *)
Definition table_consistent (m : Manager) : Prop :=
  ∀ socketId ws, sockets m !! socketId = Some ws →
    ∃ userData, wss m !! ws = Some userData ∧ ud_id userData = socketId.

(** Every member id of a room is a key of the table. *)
Definition members_registered (m : Manager) : Prop :=
  ∀ roomName socketId,
    socketId ∈ members m roomName → is_Some (sockets m !! socketId).

Definition gateway_invariant (m : Manager) : Prop :=
  table_consistent m ∧ membership_symmetric m ∧ members_registered m.

(** The label under which [close] announces a departure to a room, by the
    room's name. *)
Definition leave_label (room : string) : option string :=
  if String.prefix "project:" room then Some "project:user-left"
  else if String.prefix "actor:" room then Some "actor:user-left"
  else None.

(** ** Sample configurations and states *)

Definition no_options : UWebSocketPluginOptions :=
  {| authorize := None; shouldEmit := None; transformEvent := None;
     onSocketConnection := None |}.

Definition alice : User :=
  {| user_id := IdString "u1"; user_email := Some "alice@example.org";
     user_collection := Some "users"; user_role := None |}.

Definition bob : User :=
  {| user_id := IdString "u2"; user_email := Some "bob@example.org";
     user_collection := Some "users"; user_role := None |}.

Definition fresh_socket (u : User) (socketId : string) : ResponseWrite :=
  WsUpgrade {| ud_user := Some u; ud_id := socketId; ud_rooms := ∅ |} "" "" "".

Definition join_message (coll : string) : WebSocketMessage :=
  {| msg_type := "join-collection"; msg_data := DScalar coll |}.

Definition post7 : RealtimeEventPayload :=
  {| ev_type := Update; ev_collection := "posts"; ev_id := IdNumber 7;
     ev_doc := Some "{}"; ev_user := None;
     ev_timestamp := "2024-01-01T00:00:00.000Z" |}.

(** An instance with a relay connection and one socket, [0] with id
    ["s1"], subscribed to collection ["posts"]. *)
Definition one_subscriber : Manager :=
  (handleMessage
     (accept no_options 0 (new_manager true) (fresh_socket alice "s1"))
     0 (join_message "posts")).1.

Definition relayed_event : RelayEnvelope :=
  {| relay_type := "event"; relay_room := "collection:posts";
     relay_eventName := "payload:event";
     relay_event := PEvent post7; relay_message := PEvent post7 |}.

(** A handler table with one handler, for ["posts"], that lets every user
    through; and a registry in which ["collection:posts"] holds an id
    that never entered the connection table. *)
Definition posts_for_all : UWebSocketPluginOptions :=
  {| authorize := Some {[ "posts" := λ _ _, true ]}; shouldEmit := None;
     transformEvent := None; onSocketConnection := None |}.

Definition stale_member : Manager :=
  joinRoom "gone" "collection:posts" one_subscriber.

(** A configuration whose transform files every event under ["drafts"],
    with a handler that lets everybody through for ["posts"] and one
    that lets nobody through for ["drafts"]. *)
Definition to_drafts (e : RealtimeEventPayload) : RealtimeEventPayload :=
  {| ev_type := ev_type e; ev_collection := "drafts"; ev_id := ev_id e;
     ev_doc := ev_doc e; ev_user := ev_user e;
     ev_timestamp := ev_timestamp e |}.

Definition retag : UWebSocketPluginOptions :=
  {| authorize := Some {[ "posts" := λ _ _, true; "drafts" := λ _ _, false ]};
     shouldEmit := None; transformEvent := Some to_drafts;
     onSocketConnection := None |}.

(** A socket is opened, then [joinRoom] is called for it directly. *)
Definition joined_directly : Manager :=
  joinRoom "s1" "room:alpha"
    (accept no_options 0 (new_manager false) (fresh_socket alice "s1")).

(** Authorization is configured, with a handler for ["drafts"] only. *)
Definition drafts_only : UWebSocketPluginOptions :=
  {| authorize := Some {[ "drafts" := λ _ _, true ]}; shouldEmit := None;
     transformEvent := None; onSocketConnection := None |}.

(** What a custom handler does to put a socket in a room of its own
    naming: the registry call and the socket's own room set, as the
    built-in join does for collection rooms. *)
Definition join_custom (ws : wsref) (socketId room : string) (m : Manager)
    : Manager :=
  set_wss (alter (rooms_add room) ws) (joinRoom socketId room m).

(** Two open sockets, [0] (id ["s1"], alice) and [1] (id ["s2"], bob),
    both in [room]. *)
Definition two_in_room (room : string) : Manager :=
  join_custom 1 "s2" room
    (join_custom 0 "s1" room
       (accept no_options 1
          (accept no_options 0 (new_manager false) (fresh_socket alice "s1"))
          (fresh_socket bob "s2"))).

(** ** Reconnection delay and plugin set-up *)

(** [retryStrategy] of the Redis client in [setupRedisAdapter]:
    [Math.min(times * 50, 2000)], [times] being the attempt count. *)
Definition retryStrategy (times : Z) : Z := Z.min (times * 50) 2000.

(** A hook of a collection: one the host configured, or one of the two
    closures the plugin adds for the collection with that slug. *)
Inductive Hook :=
  | HostHook (n : nat)
  | EmitAfterChange (slug : string)
  | EmitAfterDelete (slug : string).

(** A collection of the host configuration: its slug and the two hook
    lists the plugin extends ([hooks?.afterChange || []] reads a missing
    list as the empty one). *)
Record Collection := {
  coll_slug : string;
  coll_afterChange : list Hook;
  coll_afterDelete : list Hook;
}.

(** A step of the configuration's [onInit]: the host's own function, or
    storing the socket manager on the payload instance. *)
Inductive InitStep :=
  | HostOnInit
  | StoreSocketManager.

(** The host configuration, the fields the plugin reads or replaces. *)
Record Config := {
  cfg_collections : option (list Collection);
  cfg_onInit : list InitStep;
}.

(** The plugin options read by [uWebSocketPlugin] before the manager is
    built; a missing field is [None]. *)
Record PluginSwitches := {
  enabled : option bool;
  includeCollections : option (list string);
}.

(** [shouldEmitForCollection(collectionSlug)] *)
Definition shouldEmitForCollection (options : PluginSwitches)
    (collectionSlug : string) : bool :=
  match includeCollections options with
  | Some l =>
      if bool_decide (0 < length l)%nat
      then bool_decide (collectionSlug ∈ l)
      else false
  | None => false
  end.

(** The function mapped over [incomingConfig.collections]. *)
Definition with_hooks (options : PluginSwitches) (collection : Collection)
    : Collection :=
  if negb (shouldEmitForCollection options (coll_slug collection))
  then collection
  else
    {| coll_slug := coll_slug collection;
       coll_afterChange :=
         coll_afterChange collection ++ [EmitAfterChange (coll_slug collection)];
       coll_afterDelete :=
         coll_afterDelete collection ++ [EmitAfterDelete (coll_slug collection)] |}.

(** [uWebSocketPlugin(pluginOptions)(incomingConfig)]; the defaults
    [enabled: true] and [includeCollections: []] are those of the source. *)
Definition uWebSocketPlugin (pluginOptions : PluginSwitches)
    (incomingConfig : Config) : Config :=
  let options :=
    {| enabled := Some (default true (enabled pluginOptions));
       includeCollections :=
         Some (default [] (includeCollections pluginOptions)) |} in
  if bool_decide (enabled options = Some false) then incomingConfig
  else
    {| cfg_collections :=
         Some (match cfg_collections incomingConfig with
               | Some l => with_hooks options <$> l
               | None => []
               end);
       cfg_onInit := cfg_onInit incomingConfig ++ [StoreSocketManager] |}.

(** ** Further vocabulary *)

(** The relay messages of a trace, in order. *)
Definition publications (effs : list Effect) : list RelayEnvelope :=
  omap (λ e, match e with Publish env => Some env | _ => None end) effs.

(** The rooms a join or leave payload names. *)
Definition rooms_named (data : Data) : list string :=
  collection_room <$> collections_of data.

(** One handshake from request to last write: the synchronous part, then,
    when it suspended, the resumption, before which the client may have
    aborted. *)
Definition handshake (jwt_verify : string → option Decoded)
    (req : HttpRequest) (aborts : bool) (result : LookupResult)
    (uuid : string) : list ResponseWrite :=
  match upgrade jwt_verify req with
  | Finished writes => writes
  | Awaiting p =>
      upgrade_resume (if aborts then onAborted p else p) result uuid
  end.

(** The effect of [leaveRoom] on the entry of the room it is given. *)
Definition without_member (socketId : string) (entry : option (gset string))
    : option (gset string) :=
  match entry with
  | Some room =>
      if decide (room ∖ {[socketId]} = ∅) then None
      else Some (room ∖ {[socketId]})
  | None => None
  end.

(** The two reserved messages with a given payload. *)
Definition subscribe_message (data : Data) : WebSocketMessage :=
  {| msg_type := "subscribe"; msg_data := data |}.

Definition unsubscribe_message (data : Data) : WebSocketMessage :=
  {| msg_type := "unsubscribe"; msg_data := data |}.

(** A socket opened and then entered in ["collection:posts"] by a direct
    [joinRoom], its own room set left empty. *)
Definition joined_posts_directly : Manager :=
  joinRoom "s1" "collection:posts"
    (accept no_options 0 (new_manager false) (fresh_socket alice "s1")).

(** Options whose connection callback registers handler [7] for ["ping"]. *)
Definition with_ping : UWebSocketPluginOptions :=
  {| authorize := None; shouldEmit := None; transformEvent := None;
     onSocketConnection := Some (λ _, [("ping", 7)]) |}.

(** A message with a label and a payload. *)
Definition message_of (label : string) (data : Data) : WebSocketMessage :=
  {| msg_type := label; msg_data := data |}.

(** A handler table that lets nobody through for ["posts"]. *)
Definition posts_for_none : UWebSocketPluginOptions :=
  {| authorize := Some {[ "posts" := λ _ _, false ]}; shouldEmit := None;
     transformEvent := None; onSocketConnection := None |}.

(** The options of the plugin with its defaults filled in, as
    [uWebSocketPlugin] computes them. *)
Definition with_defaults (pluginOptions : PluginSwitches) : PluginSwitches :=
  {| enabled := Some (default true (enabled pluginOptions));
     includeCollections :=
       Some (default [] (includeCollections pluginOptions)) |}.

(** Authorization is configured, with no handler at all. *)
Definition no_handlers : UWebSocketPluginOptions :=
  {| authorize := Some ∅; shouldEmit := None; transformEvent := None;
     onSocketConnection := None |}.

(** An update of a document of a collection whose slug is ["toString"]. *)
Definition toString7 : RealtimeEventPayload :=
  {| ev_type := Update; ev_collection := "toString"; ev_id := IdNumber 7;
     ev_doc := Some "{}"; ev_user := None;
     ev_timestamp := "2024-01-01T00:00:00.000Z" |}.

(** An instance with a relay connection and one socket, [0] with id
    ["s1"], subscribed to collection ["toString"]. *)
Definition toString_subscriber : Manager :=
  (handleMessage
     (accept no_handlers 0 (new_manager true) (fresh_socket alice "s1"))
     0 (join_message "toString")).1.

Definition carol : User :=
  {| user_id := IdString "u3"; user_email := Some "carol@example.org";
     user_collection := Some "users"; user_role := None |}.

(** Three open sockets: [0] (id ["s1"], alice) and [1] (id ["s2"], bob)
    share ["project:alpha"]; [0] and [2] (id ["s3"], carol) share
    ["room:alpha"]. *)
Definition mixed_rooms : Manager :=
  join_custom 2 "s3" "room:alpha"
    (join_custom 0 "s1" "room:alpha"
       (accept no_options 2 (two_in_room "project:alpha")
          (fresh_socket carol "s3"))).

(** An update of a document of a collection whose slug is ["valueOf"],
    and an instance whose one socket is subscribed to that collection. *)
Definition valueOf7 : RealtimeEventPayload :=
  {| ev_type := Update; ev_collection := "valueOf"; ev_id := IdNumber 7;
     ev_doc := Some "{}"; ev_user := None;
     ev_timestamp := "2024-01-01T00:00:00.000Z" |}.

Definition valueOf_subscriber : Manager :=
  (handleMessage
     (accept no_handlers 0 (new_manager true) (fresh_socket alice "s1"))
     0 (join_message "valueOf")).1.

(** Two states whose registries hold the same rooms with the same
    members, whatever the order in which rooms and members were entered,
    and that agree on everything else. *)
Definition same_registry (m1 m2 : Manager) : Prop :=
  (∀ c r, c ∈ getSocketsInRoom m1 r ↔ c ∈ getSocketsInRoom m2 r)
  ∧ (∀ r, rooms m1 !! r = None ↔ rooms m2 !! r = None)
  ∧ wss m1 = wss m2 ∧ sockets m1 = sockets m2
  ∧ customHandlers m1 = customHandlers m2 ∧ pubClient m1 = pubClient m2.

(** * Properties *)

(** ** Field bookkeeping *)

Lemma joinRoom_sockets c r m : sockets (joinRoom c r m) = sockets m.
Proof. unfold joinRoom. by destruct (rooms m !! r); simpl; repeat case_match. Qed.

Lemma joinRoom_wss c r m : wss (joinRoom c r m) = wss m.
Proof. unfold joinRoom. by destruct (rooms m !! r); simpl; repeat case_match. Qed.

Lemma joinRoom_customHandlers c r m :
  customHandlers (joinRoom c r m) = customHandlers m.
Proof. unfold joinRoom. by destruct (rooms m !! r); simpl; repeat case_match. Qed.

Lemma joinRoom_pubClient c r m : pubClient (joinRoom c r m) = pubClient m.
Proof. unfold joinRoom. by destruct (rooms m !! r); simpl; repeat case_match. Qed.

Lemma leaveRoom_sockets c r m : sockets (leaveRoom c r m) = sockets m.
Proof. unfold leaveRoom. by repeat case_match. Qed.

Lemma leaveRoom_wss c r m : wss (leaveRoom c r m) = wss m.
Proof. unfold leaveRoom. by repeat case_match. Qed.

Lemma leaveRoom_customHandlers c r m :
  customHandlers (leaveRoom c r m) = customHandlers m.
Proof. unfold leaveRoom. by repeat case_match. Qed.

Lemma leaveRoom_pubClient c r m : pubClient (leaveRoom c r m) = pubClient m.
Proof. unfold leaveRoom. by repeat case_match. Qed.

(** ** The room registry *)

Lemma rooms_joinRoom c r m :
  rooms (joinRoom c r m) = <[r := {[c]} ∪ members m r]> (rooms m).
Proof.
  unfold joinRoom, members.
  destruct (rooms m !! r) as [s|] eqn:E; simpl.
  - by rewrite E.
  - rewrite lookup_insert_eq. simpl. by rewrite insert_insert_eq.
Qed.

Lemma rooms_leaveRoom c r m :
  rooms (leaveRoom c r m) =
    match rooms m !! r with
    | Some s =>
        if decide (s ∖ {[c]} = ∅) then delete r (rooms m)
        else <[r := s ∖ {[c]}]> (rooms m)
    | None => rooms m
    end.
Proof.
  unfold leaveRoom.
  destruct (rooms m !! r) as [s|] eqn:E; [|done].
  destruct (decide (size (s ∖ {[c]}) = 0)) as [Hs|Hs];
    destruct (decide (s ∖ {[c]} = ∅)) as [He|He]; simpl; try done.
  - apply size_empty_inv in Hs. by apply leibniz_equiv in Hs.
  - rewrite He in Hs. by rewrite size_empty in Hs.
Qed.

Lemma members_joinRoom c r m r' :
  members (joinRoom c r m) r' =
    if decide (r = r') then {[c]} ∪ members m r else members m r'.
Proof.
  unfold members at 1. rewrite rooms_joinRoom.
  destruct (decide (r = r')) as [->|Hne].
  - by rewrite lookup_insert_eq.
  - by rewrite lookup_insert_ne.
Qed.

Lemma members_leaveRoom c r m r' :
  members (leaveRoom c r m) r' =
    if decide (r = r') then members m r ∖ {[c]} else members m r'.
Proof.
  unfold members. rewrite rooms_leaveRoom.
  destruct (decide (r = r')) as [<-|Hne].
  - destruct (rooms m !! r) as [s|] eqn:E; simpl.
    + destruct (decide (s ∖ {[c]} = ∅)) as [He|He].
      * by rewrite lookup_delete_eq, He.
      * by rewrite lookup_insert_eq.
    + rewrite E. simpl. apply set_eq. intros x.
      rewrite elem_of_difference, elem_of_empty. tauto.
  - destruct (rooms m !! r) as [s|] eqn:E; [|done].
    destruct (decide (s ∖ {[c]} = ∅)).
    + by rewrite lookup_delete_ne.
    + by rewrite lookup_insert_ne.
Qed.

Lemma getSocketsInRoom_members m r :
  getSocketsInRoom m r = elements (members m r).
Proof.
  unfold getSocketsInRoom, members.
  destruct (rooms m !! r); simpl; [done|]. by rewrite elements_empty.
Qed.

Lemma elem_of_getSocketsInRoom m r c :
  c ∈ getSocketsInRoom m r ↔ c ∈ members m r.
Proof. rewrite getSocketsInRoom_members. apply elem_of_elements. Qed.

Lemma joinRoom_no_empty_room c r m :
  no_empty_room m → no_empty_room (joinRoom c r m).
Proof.
  intros H r' s. rewrite rooms_joinRoom.
  destruct (decide (r = r')) as [->|Hne].
  - rewrite lookup_insert_eq. intros [= <-]. set_solver.
  - rewrite lookup_insert_ne by done. apply H.
Qed.

Lemma leaveRoom_no_empty_room c r m :
  no_empty_room m → no_empty_room (leaveRoom c r m).
Proof.
  intros H r' s. rewrite rooms_leaveRoom.
  destruct (rooms m !! r) as [s0|] eqn:E; [|apply H].
  destruct (decide (s0 ∖ {[c]} = ∅)) as [He|He].
  - destruct (decide (r = r')) as [->|Hne].
    + by rewrite lookup_delete_eq.
    + rewrite lookup_delete_ne by done. apply H.
  - destruct (decide (r = r')) as [->|Hne].
    + rewrite lookup_insert_eq. by intros [= <-].
    + rewrite lookup_insert_ne by done. apply H.
Qed.

Lemma Manager_eq m m' :
  wss m = wss m' → sockets m = sockets m' → rooms m = rooms m' →
  customHandlers m = customHandlers m' → pubClient m = pubClient m' →
  m = m'.
Proof. destruct m, m'; simpl; by intros -> -> -> -> ->. Qed.

Lemma joinRoom_twice c r m : joinRoom c r (joinRoom c r m) = joinRoom c r m.
Proof.
  apply Manager_eq;
    rewrite ?joinRoom_wss, ?joinRoom_sockets, ?joinRoom_customHandlers,
      ?joinRoom_pubClient; try done.
  rewrite (rooms_joinRoom c r (joinRoom c r m)), members_joinRoom.
  rewrite decide_True by done. rewrite rooms_joinRoom, insert_insert_eq.
  f_equal. set_solver.
Qed.

Lemma leaveRoom_absent c r m : rooms m !! r = None → leaveRoom c r m = m.
Proof. intros E. unfold leaveRoom. by rewrite E. Qed.

Lemma leaveRoom_not_member c r m :
  no_empty_room m → c ∉ members m r → leaveRoom c r m = m.
Proof.
  intros Hne Hc.
  apply Manager_eq;
    rewrite ?leaveRoom_wss, ?leaveRoom_sockets, ?leaveRoom_customHandlers,
      ?leaveRoom_pubClient; try done.
  rewrite rooms_leaveRoom. unfold members in Hc.
  destruct (rooms m !! r) as [s|] eqn:E; [|done]. simpl in Hc.
  assert (s ∖ {[c]} = s) as -> by set_solver.
  destruct (decide (s = ∅)) as [->|_].
  - by destruct (Hne r ∅ E).
  - by apply insert_id.
Qed.

Lemma leaveRoom_twice c r m : leaveRoom c r (leaveRoom c r m) = leaveRoom c r m.
Proof.
  apply Manager_eq;
    rewrite ?leaveRoom_wss, ?leaveRoom_sockets, ?leaveRoom_customHandlers,
      ?leaveRoom_pubClient; try done.
  rewrite (rooms_leaveRoom c r (leaveRoom c r m)).
  rewrite (rooms_leaveRoom c r m).
  destruct (rooms m !! r) as [s|] eqn:E.
  - destruct (decide (s ∖ {[c]} = ∅)) as [He|He].
    + by rewrite lookup_delete_eq.
    + rewrite lookup_insert_eq.
      assert (s ∖ {[c]} ∖ {[c]} = s ∖ {[c]}) as -> by set_solver.
      rewrite decide_False by done. by rewrite insert_insert_eq.
  - by rewrite E.
Qed.

(** [C9] Joining and leaving are idempotent.  Joining a room a second
    time from the same connection gives the state of joining once, and
    when the room was new its membership has size 1; leaving a second
    time gives the state of leaving once; leaving a room that does not
    exist, or one the connection is not a member of, changes nothing.
    Both operations are total functions of the model: no call ends in an
    error. *)
Theorem C9_join_leave_idempotent (c r : string) (m : Manager) :
  joinRoom c r (joinRoom c r m) = joinRoom c r m
  ∧ (rooms m !! r = None →
     length (getSocketsInRoom (joinRoom c r (joinRoom c r m)) r) = 1
     ∧ getSocketsInRoom (joinRoom c r (joinRoom c r m)) r
       = getSocketsInRoom (joinRoom c r m) r)
  ∧ leaveRoom c r (leaveRoom c r m) = leaveRoom c r m
  ∧ (rooms m !! r = None → leaveRoom c r m = m)
  ∧ (no_empty_room m → c ∉ members m r → leaveRoom c r m = m).
Proof.
  split; [apply joinRoom_twice|].
  split.
  { intros E. rewrite joinRoom_twice. split; [|done].
    rewrite getSocketsInRoom_members, members_joinRoom, decide_True by done.
    unfold members. rewrite E. simpl.
    assert ({[c]} ∪ ∅ = ({[c]} : gset string)) as -> by set_solver.
    by rewrite elements_singleton. }
  split; [apply leaveRoom_twice|].
  split; [apply leaveRoom_absent | apply leaveRoom_not_member].
Qed.

(** ** Folds and the fields they leave alone *)

Lemma foldl_preserves {A B} (P : A → Prop) (f : A → B → A) (l : list B) a :
  (∀ a x, P a → P (f a x)) → P a → P (foldl f a l).
Proof.
  intros Hf. revert a. induction l as [|x l IH]; intros a Ha; simpl; [done|].
  apply IH, Hf, Ha.
Qed.

Lemma no_empty_room_ext m m' :
  rooms m' = rooms m → no_empty_room m → no_empty_room m'.
Proof. unfold no_empty_room. by intros ->. Qed.

Lemma on_fold_rooms (regs : list (string * handler)) m :
  rooms (foldl (λ m '(eventName, h), on eventName h m) m regs) = rooms m.
Proof.
  revert m. induction regs as [|[e h] regs IH]; intros m; simpl; [done|].
  by rewrite IH.
Qed.

Lemma open_rooms o m ws : rooms (open o m ws) = rooms m.
Proof.
  unfold open. destruct (wss m !! ws); [|done].
  destruct (onSocketConnection o); [|done]. by rewrite on_fold_rooms.
Qed.

Lemma handleJoinCollection_no_empty_room m ws data :
  no_empty_room m → no_empty_room (handleJoinCollection m ws data).
Proof.
  intros H. unfold handleJoinCollection. destruct (wss m !! ws); [|done].
  apply (foldl_preserves no_empty_room); [|done].
  intros a coll Ha.
  eapply no_empty_room_ext; [|by eapply joinRoom_no_empty_room]. done.
Qed.

Lemma handleUnsubscribe_no_empty_room m ws data :
  no_empty_room m → no_empty_room (handleUnsubscribe m ws data).
Proof.
  intros H. unfold handleUnsubscribe. destruct (wss m !! ws); [|done].
  apply (foldl_preserves no_empty_room); [|done].
  intros a coll Ha.
  eapply no_empty_room_ext; [|by eapply leaveRoom_no_empty_room]. done.
Qed.

Lemma handleMessage_no_empty_room m ws msg :
  no_empty_room m → no_empty_room (handleMessage m ws msg).1.
Proof.
  intros H. unfold handleMessage.
  destruct (_ || _); [by apply handleJoinCollection_no_empty_room|].
  destruct (bool_decide _); [by apply handleUnsubscribe_no_empty_room|].
  by destruct (customHandlers m !! _).
Qed.

Lemma close_no_empty_room m ws : no_empty_room m → no_empty_room (close m ws).1.
Proof.
  intros H. unfold close. destruct (wss m !! ws) as [ud|]; [|done].
  assert (no_empty_room
            (foldl (close_room ud) (m, []) (elements (ud_rooms ud))).1) as Hf.
  { apply (foldl_preserves (λ a, no_empty_room a.1)); [|done].
    intros [a effs] room Ha. simpl. by apply leaveRoom_no_empty_room. }
  destruct (foldl _ _ _) as [m1 effs]. done.
Qed.

Lemma step_no_empty_room o m m' :
  step o m m' → no_empty_room m → no_empty_room m'.
Proof.
  intros Hs H. destruct Hs; simpl.
  - eapply no_empty_room_ext; [apply open_rooms|done].
  - by apply handleMessage_no_empty_room.
  - by apply close_no_empty_room.
  - done.
Qed.

Lemma public_step_no_empty_room o m m' :
  public_step o m m' → no_empty_room m → no_empty_room m'.
Proof.
  intros [Hs|Hc] H; [by eapply step_no_empty_room|].
  destruct Hc; [by apply joinRoom_no_empty_room|by apply leaveRoom_no_empty_room].
Qed.

Lemma public_reachable_no_empty_room o m :
  public_reachable o m → no_empty_room m.
Proof.
  intros [redis Hr].
  assert (no_empty_room (new_manager redis)) as H0 by (intros r s; by simpl).
  revert H0. induction Hr as [|x y z Hxy _ IH]; [done|].
  intros Hx. apply IH. by eapply public_step_no_empty_room.
Qed.

(** [C8] In every state reached from a new manager by [joinRoom] and
    [leaveRoom] calls (and, more generally, by these mixed with transport
    events) no room of the registry has an empty member set.  A room that
    does not exist is created by the first join with that connection as
    its only member, and the leave that removes the last member deletes
    the room, which then has no entry and no members to enumerate. *)
Theorem C8_no_empty_room (o : UWebSocketPluginOptions) (m : Manager) :
  public_reachable o m →
  no_empty_room m
  ∧ (∀ c r, rooms m !! r = None → rooms (joinRoom c r m) !! r = Some {[c]})
  ∧ (∀ c r, members m r = {[c]} →
       rooms (leaveRoom c r m) !! r = None
       ∧ (r ∉ dom (rooms (leaveRoom c r m)))
       ∧ getSocketsInRoom (leaveRoom c r m) r = []).
Proof.
  intros Hr. split; [by eapply public_reachable_no_empty_room|]. split.
  - intros c r E. rewrite rooms_joinRoom, lookup_insert_eq.
    unfold members. rewrite E. simpl. f_equal. set_solver.
  - intros c r Hm.
    assert (rooms (leaveRoom c r m) !! r = None) as Hnone.
    { rewrite rooms_leaveRoom. unfold members in Hm.
      destruct (rooms m !! r) as [s|] eqn:E; [|done]. simpl in Hm. subst s.
      rewrite decide_True by set_solver. apply lookup_delete_eq. }
    split; [done|]. split.
    + by apply not_elem_of_dom.
    + unfold getSocketsInRoom. by rewrite Hnone.
Qed.

(** ** Inbound messages and the handler table *)

Lemma register_all_customHandlers regs m label :
  customHandlers (register_all regs m) !! label =
    match last_registered label regs with
    | Some h => Some h
    | None => customHandlers m !! label
    end.
Proof.
  revert m. induction regs as [|[l h] regs IH]; intros m; simpl; [done|].
  unfold register_all in *. simpl. rewrite IH.
  destruct (last_registered label regs); [done|]. simpl.
  case_bool_decide as Hl.
  - subst l. by rewrite lookup_insert_eq.
  - by rewrite lookup_insert_ne.
Qed.

(** ** Relay bridge *)

Lemma publishToRedis_connected m type room eventName data :
  pubClient m = true →
  publishToRedis m type room eventName data =
    [Publish {| relay_type := type; relay_room := room;
                relay_eventName := eventName;
                relay_event := data; relay_message := data |}].
Proof. unfold publishToRedis. by intros ->. Qed.

(** Every relayed message of kind ["event"] or ["room-broadcast"] is
    published again, as a ["room-broadcast"], by an instance that has a
    publishing client. *)
Lemma handleRedisMessage_publishes m channel env :
  pubClient m = true →
  relay_type env = "event" ∨ relay_type env = "room-broadcast" →
  ∃ data,
    Publish {| relay_type := "room-broadcast"; relay_room := relay_room env;
               relay_eventName := relay_eventName env;
               relay_event := data; relay_message := data |}
    ∈ handleRedisMessage m channel (Some env).
Proof.
  intros Hp Hk. unfold handleRedisMessage.
  destruct (bool_decide (relay_type env = "event")) eqn:E1.
  - eexists. unfold broadcastToRoom. rewrite elem_of_app. right.
    rewrite publishToRedis_connected by done. apply list_elem_of_singleton. done.
  - destruct Hk as [Hk|Hk]; [by rewrite Hk in E1|].
    rewrite bool_decide_eq_true_2 by done.
    eexists. unfold broadcastToRoom. rewrite elem_of_app. right.
    rewrite publishToRedis_connected by done. apply list_elem_of_singleton. done.
Qed.

(** [C1] On an instance with one local subscriber of ["collection:posts"],
    the relayed ["event"] message for that room is delivered to the
    subscriber and then published on the relay channel again, as a
    ["room-broadcast"] message: [handleRedisMessage] goes through
    [broadcastToRoom], which always ends in [publishToRedis]. *)
Theorem C1_relayed_message_is_published_again :
  handleRedisMessage one_subscriber "uwebsocket:events" (Some relayed_event) =
    [Send 0 "payload:event" (PEvent post7);
     Publish {| relay_type := "room-broadcast"; relay_room := "collection:posts";
                relay_eventName := "payload:event";
                relay_event := PEvent post7; relay_message := PEvent post7 |}].
Proof. vm_compute. reflexivity. Qed.

(** ** Handshake *)

(** [C6] A handshake whose abort flag was set while [findByID] was
    pending does nothing when it resumes, however the lookup settled: it
    writes nothing on the response, neither an upgrade nor a rejection,
    so the transport creates no socket and the manager, its connection
    table included, is what it was. *)
Theorem C6_aborted_handshake_is_silent (o : UWebSocketPluginOptions)
    (m : Manager) (ws : wsref) (p : PendingUpgrade) (result : LookupResult)
    (uuid : string) :
  upgrade_resume (onAborted p) result uuid = []
  ∧ foldl (accept o ws) m (upgrade_resume (onAborted p) result uuid) = m
  ∧ sockets (foldl (accept o ws) m (upgrade_resume (onAborted p) result uuid))
    = sockets m.
Proof.
  assert (upgrade_resume (onAborted p) result uuid = []) as ->.
  { unfold upgrade_resume. by destruct result as [[doc|]|]. }
  done.
Qed.

(** The same handshake, not aborted, upgrades and ends with the socket in
    the connection table. *)
Example handshake_not_aborted :
  let req := {| req_query := [("token", "t")]; req_key := "k";
                req_protocol := ""; req_extensions := "" |} in
  let verify := λ _ : string, Some {| dec_id := "u1"; dec_collection := None |} in
  let doc := {| doc_id := IdString "u1"; doc_email := None; doc_role := None |} in
  ∃ p, upgrade verify req = Awaiting p
    ∧ sockets (foldl (accept no_options 0) (new_manager false)
                 (upgrade_resume p (Resolved (Some doc)) "s1")) !! "s1" = Some 0
    ∧ upgrade_resume (onAborted p) (Resolved (Some doc)) "s1" = [].
Proof. eexists. split; [reflexivity|]. split; vm_compute; reflexivity. Qed.

(** ** Event dispatcher *)

Lemma elem_of_flat_map {A B} (f : A → list B) (l : list A) (y : B) :
  y ∈ flat_map f l ↔ ∃ x, y ∈ f x ∧ x ∈ l.
Proof.
  rewrite list_elem_of_In, in_flat_map. split.
  - intros [x [Hx Hy]]. exists x. by rewrite !list_elem_of_In.
  - intros [x [Hy Hx]]. exists x. split; by apply list_elem_of_In.
Qed.

Lemma elem_of_deliveries ws eventName effs p :
  p ∈ deliveries ws eventName effs ↔ Send ws eventName p ∈ effs.
Proof.
  unfold deliveries. rewrite list_elem_of_omap. split.
  - intros [e [He Hp]]. destruct e as [w l q| |]; try done.
    destruct (bool_decide (w = ws) && bool_decide (l = eventName)) eqn:E; [|done].
    apply andb_true_iff in E as [E1 E2].
    apply bool_decide_eq_true in E1, E2. by simplify_eq.
  - intros He. exists (Send ws eventName p). split; [done|].
    by rewrite !bool_decide_eq_true_2.
Qed.

Lemma deliveries_app ws eventName effs1 effs2 :
  deliveries ws eventName (effs1 ++ effs2) =
    deliveries ws eventName effs1 ++ deliveries ws eventName effs2.
Proof. unfold deliveries. apply omap_app. Qed.

Lemma elem_of_publishToRedis m type room eventName data e :
  e ∈ publishToRedis m type room eventName data ↔
    pubClient m = true
    ∧ e = Publish {| relay_type := type; relay_room := room;
                     relay_eventName := eventName;
                     relay_event := data; relay_message := data |}.
Proof.
  unfold publishToRedis. destruct (pubClient m).
  - rewrite list_elem_of_singleton. naive_solver.
  - rewrite elem_of_nil. naive_solver.
Qed.

Lemma elem_of_broadcastToRoom m room data eventName exclude e :
  e ∈ broadcastToRoom m room data eventName exclude ↔
    (∃ socketId ws, socketId ∈ members m room
       ∧ is_excluded exclude socketId = false
       ∧ sockets m !! socketId = Some ws
       ∧ e = Send ws eventName data)
    ∨ (pubClient m = true
       ∧ e = Publish {| relay_type := "room-broadcast"; relay_room := room;
                        relay_eventName := eventName;
                        relay_event := data; relay_message := data |}).
Proof.
  unfold broadcastToRoom.
  rewrite elem_of_app, elem_of_publishToRedis, elem_of_flat_map.
  apply or_iff_compat_r. split.
  - intros [socketId [He Hin]].
    apply elem_of_getSocketsInRoom in Hin.
    destruct (is_excluded exclude socketId) eqn:Ex;
      [by apply elem_of_nil in He|].
    destruct (sockets m !! socketId) as [ws|] eqn:Es;
      [|by apply elem_of_nil in He].
    apply list_elem_of_singleton in He. by exists socketId, ws.
  - intros (socketId & ws & Hin & Ex & Es & ->).
    exists socketId. rewrite Ex, Es. split; [by apply list_elem_of_singleton|].
    by apply elem_of_getSocketsInRoom.
Qed.

Lemma emit_authorized_effects m h finalEvent socketIds e :
  e ∈ (emit_authorized m h finalEvent socketIds).1 →
  ∃ socketId ws userData user,
    socketId ∈ socketIds ∧ sockets m !! socketId = Some ws
    ∧ wss m !! ws = Some userData ∧ ud_user userData = Some user
    ∧ h user finalEvent = true
    ∧ e = Send ws "payload:event" (PEvent finalEvent).
Proof.
  induction socketIds as [|socketId rest IH]; simpl.
  - by intros ?%elem_of_nil.
  - destruct (sockets m !! socketId) as [ws|] eqn:Es;
      [|by intros ?%elem_of_nil].
    destruct (emit_authorized m h finalEvent rest) as [effs c]. simpl in *.
    rewrite elem_of_app. intros [He|He].
    + destruct (wss m !! ws) as [ud|] eqn:Ew; [|by apply elem_of_nil in He].
      destruct (ud_user ud) as [u|] eqn:Eu; [|by apply elem_of_nil in He].
      destruct (h u finalEvent) eqn:Eh; [|by apply elem_of_nil in He].
      apply list_elem_of_singleton in He.
      exists socketId, ws, ud, u. rewrite elem_of_cons. naive_solver.
    + destruct (IH He) as (s & w & ud & u & Hin & ?).
      exists s, w, ud, u. rewrite elem_of_cons. naive_solver.
Qed.

Lemma emit_authorized_normal m h finalEvent socketIds :
  Forall (λ socketId, is_Some (sockets m !! socketId)) socketIds →
  (emit_authorized m h finalEvent socketIds).2 = Normal.
Proof.
  induction 1 as [|socketId rest [ws Es] _ IH]; simpl; [done|].
  rewrite Es. by destruct (emit_authorized m h finalEvent rest).
Qed.

Lemma emit_authorized_thrown m h finalEvent socketIds socketId :
  socketId ∈ socketIds → sockets m !! socketId = None →
  (emit_authorized m h finalEvent socketIds).2 = Thrown "TypeError".
Proof.
  intros Hin Hs. induction socketIds as [|s rest IH]; simpl.
  - by apply elem_of_nil in Hin.
  - destruct (sockets m !! s) as [ws|] eqn:Es; [|done].
    apply elem_of_cons in Hin as [->|Hin]; [congruence|].
    specialize (IH Hin). by destruct (emit_authorized m h finalEvent rest).
Qed.

Lemma emit_all_fmap m finalEvent :
  emit_all m finalEvent =
    (λ kv, Send kv.2 "payload:event:all" (PEvent finalEvent))
      <$> map_to_list (sockets m).
Proof.
  unfold emit_all.
  assert (∀ l : list (string * wsref),
            (∀ kv, kv ∈ l → sockets m !! kv.1 = Some kv.2) →
            flat_map (λ socketId,
                match sockets m !! socketId with
                | Some socket =>
                    sendToSocket socket "payload:event:all" (PEvent finalEvent)
                | None => []
                end) (l.*1)
            = (λ kv, Send kv.2 "payload:event:all" (PEvent finalEvent)) <$> l)
    as Hl.
  { induction l as [|[k v] l IH]; intros Hin; simpl; [done|].
    pose proof (Hin (k, v) (list_elem_of_here _ _)) as Hk. simpl in Hk.
    rewrite Hk. simpl. f_equal. apply IH. intros kv Hkv. apply Hin.
    by apply list_elem_of_further. }
  apply Hl. intros [k v] Hkv. by apply elem_of_map_to_list in Hkv.
Qed.

Lemma elem_of_emit_all m finalEvent e :
  e ∈ emit_all m finalEvent ↔
    ∃ socketId ws, sockets m !! socketId = Some ws
      ∧ e = Send ws "payload:event:all" (PEvent finalEvent).
Proof.
  rewrite emit_all_fmap, list_elem_of_fmap. split.
  - intros [[k v] [-> Hin]]. apply elem_of_map_to_list in Hin. by exists k, v.
  - intros (k & v & Hs & ->). exists (k, v). split; [done|].
    by apply elem_of_map_to_list.
Qed.

Lemma emitEvent_filtered o m event :
  passes_filter o event = false → emitEvent o m event = ([], Normal).
Proof.
  unfold passes_filter, emitEvent.
  destruct (shouldEmit o) as [f|]; [|done]. by intros ->.
Qed.

Lemma emitEvent_passed o m event :
  passes_filter o event = true →
  emitEvent o m event =
    let finalEvent := final_event o event in
    let room := collection_room (ev_collection event) in
    let '(scoped, c) :=
      match authorize o with
      | Some handlers =>
          match handlers !! ev_collection event with
          | Some collectionHandler =>
              emit_authorized m collectionHandler finalEvent
                (getSocketsInRoom m room)
          | None =>
              match Object_prototype (ev_collection event) with
              | Some InheritedTruthy =>
                  emit_authorized m (λ _ _, true) finalEvent
                    (getSocketsInRoom m room)
              | Some InheritedThrows =>
                  emit_uncallable m (getSocketsInRoom m room)
              | None => ([], Normal)
              end
          end
      | None =>
          (broadcastToRoom m room (PEvent finalEvent) "payload:event" None,
           Normal)
      end in
    match c with
    | Thrown e => (scoped, Thrown e)
    | Normal =>
        (scoped ++ emit_all m finalEvent
           ++ publishToRedis m "event" room "payload:event" (PEvent finalEvent),
         Normal)
    end.
Proof.
  unfold passes_filter, emitEvent, final_event, collection_room.
  destruct (shouldEmit o) as [f|]; [|done]. by intros ->.
Qed.

(** One subscriber of ["posts"], no authorization configured, a relay
    connection: the event is sent to the subscriber under both labels and
    published twice, once by [broadcastToRoom] and once by [emitEvent]
    itself. *)
Example emitEvent_one_subscriber :
  emitEvent no_options one_subscriber post7 =
    ([Send 0 "payload:event" (PEvent post7);
      Publish {| relay_type := "room-broadcast";
                 relay_room := "collection:posts";
                 relay_eventName := "payload:event";
                 relay_event := PEvent post7; relay_message := PEvent post7 |};
      Send 0 "payload:event:all" (PEvent post7);
      Publish {| relay_type := "event"; relay_room := "collection:posts";
                 relay_eventName := "payload:event";
                 relay_event := PEvent post7; relay_message := PEvent post7 |}],
     Normal).
Proof. vm_compute. reflexivity. Qed.

(** [C10] On the authorized path of [emitEvent] (the event passes the
    filter and a handler is registered for its collection) the call
    returns normally exactly when every member id of the target room is a
    key of the connection table.  For a member id missing from the table
    the unguarded [getUserData] on the looked-up socket raises a
    [TypeError] that escapes [emitEvent].  [broadcastToRoom] in the same
    state always produces its trace, and sends only to members that the
    table knows. *)
Theorem C10_authorized_path_needs_registered_members
    (o : UWebSocketPluginOptions) (m : Manager) (event : RealtimeEventPayload)
    (handlers : gmap string (User → RealtimeEventPayload → bool))
    (h : User → RealtimeEventPayload → bool) :
  passes_filter o event = true →
  authorize o = Some handlers →
  handlers !! ev_collection event = Some h →
  let room := collection_room (ev_collection event) in
  ((emitEvent o m event).2 = Normal ↔
     ∀ socketId, socketId ∈ members m room → is_Some (sockets m !! socketId))
  ∧ (∀ socketId, socketId ∈ members m room → sockets m !! socketId = None →
       (emitEvent o m event).2 = Thrown "TypeError")
  ∧ (∀ data eventName exclude ws,
       Send ws eventName data ∈ broadcastToRoom m room data eventName exclude →
       ∃ socketId, socketId ∈ members m room ∧ sockets m !! socketId = Some ws).
Proof.
  intros Hf Ha Hh room.
  assert (∀ socketId, socketId ∈ members m room → sockets m !! socketId = None →
            (emitEvent o m event).2 = Thrown "TypeError") as Hthrow.
  { intros socketId Hin Hs. rewrite emitEvent_passed by done. simpl.
    rewrite Ha, Hh. fold room.
    pose proof (emit_authorized_thrown m h (final_event o event)
                  (getSocketsInRoom m room) socketId) as Ht.
    destruct (emit_authorized _ _ _ _) as [effs c]. simpl in Ht.
    rewrite Ht; [done| |done]. by apply elem_of_getSocketsInRoom. }
  split; [|split; [done|]].
  - split.
    + intros Hn socketId Hin.
      destruct (sockets m !! socketId) as [ws|] eqn:Es; [by eexists|].
      rewrite (Hthrow socketId Hin Es) in Hn. done.
    + intros Hall. rewrite emitEvent_passed by done. simpl.
      rewrite Ha, Hh. fold room.
      pose proof (emit_authorized_normal m h (final_event o event)
                    (getSocketsInRoom m room)) as Hn.
      destruct (emit_authorized _ _ _ _) as [effs c]. simpl in Hn.
      rewrite Hn; [done|]. apply Forall_forall. intros socketId Hin.
      by apply Hall, elem_of_getSocketsInRoom.
  - intros data eventName exclude ws Hin.
    apply elem_of_broadcastToRoom in Hin as [(s & w & Hs & _ & Hw & Heq)|[_ Heq]];
      [|done].
    simplify_eq. by exists s.
Qed.

Lemma C10_witness :
  (emitEvent posts_for_all stale_member post7).2 = Thrown "TypeError"
  ∧ (emitEvent posts_for_all one_subscriber post7).2 = Normal.
Proof.
  split.
  - apply (C10_authorized_path_needs_registered_members posts_for_all
             stale_member post7 {[ "posts" := λ _ _, true ]} (λ _ _, true)
             eq_refl eq_refl eq_refl) with (socketId := "gone");
      vm_compute; reflexivity.
  - vm_compute. reflexivity.
Defined.

Lemma emit_uncallable_effects m socketIds :
  (emit_uncallable m socketIds).1 = [].
Proof.
  induction socketIds as [|s rest IH]; simpl; [done|].
  destruct (sockets m !! s) as [w|]; [|done].
  destruct (wss m !! w) as [ud|]; [|done].
  by destruct (ud_user ud).
Qed.

(** The authorized loop that came to its end has sent the event to every
    member with an identity that the handler let through. *)
Lemma emit_authorized_complete m h finalEvent socketIds socketId ws userData
    user :
  (emit_authorized m h finalEvent socketIds).2 = Normal →
  socketId ∈ socketIds → sockets m !! socketId = Some ws →
  wss m !! ws = Some userData → ud_user userData = Some user →
  h user finalEvent = true →
  Send ws "payload:event" (PEvent finalEvent)
    ∈ (emit_authorized m h finalEvent socketIds).1.
Proof.
  intros Hn Hin Hs Hw Hu Hh.
  induction socketIds as [|s rest IH]; simpl in *.
  - by apply elem_of_nil in Hin.
  - destruct (sockets m !! s) as [w|] eqn:Es; [|done].
    destruct (emit_authorized m h finalEvent rest) as [effs c]. simpl in *.
    rewrite elem_of_app. apply elem_of_cons in Hin as [->|Hin].
    + left. rewrite Hs in Es. injection Es as <-. rewrite Hw, Hu, Hh.
      apply list_elem_of_here.
    + right. by apply IH.
Qed.

(** The part of [emitEvent] that depends on the authorization
    configuration, for the handler the lookup selects. *)
Lemma authorized_part_selected m handlers collection finalEvent socketIds h :
  selected_handler handlers collection = Some h →
  match handlers !! collection with
  | Some collectionHandler =>
      emit_authorized m collectionHandler finalEvent socketIds
  | None =>
      match Object_prototype collection with
      | Some InheritedTruthy =>
          emit_authorized m (λ _ _, true) finalEvent socketIds
      | Some InheritedThrows => emit_uncallable m socketIds
      | None => ([], Normal)
      end
  end = emit_authorized m h finalEvent socketIds.
Proof.
  unfold selected_handler. destruct (handlers !! collection) as [h'|].
  - by intros [= ->].
  - destruct (Object_prototype collection) as [[|]|]; [|done|done].
    by intros [= <-].
Qed.

Lemma authorized_part_effects m handlers collection finalEvent socketIds e :
  e ∈ (match handlers !! collection with
       | Some collectionHandler =>
           emit_authorized m collectionHandler finalEvent socketIds
       | None =>
           match Object_prototype collection with
           | Some InheritedTruthy =>
               emit_authorized m (λ _ _, true) finalEvent socketIds
           | Some InheritedThrows => emit_uncallable m socketIds
           | None => ([], Normal)
           end
       end).1 →
  ∃ h socketId ws userData user,
    selected_handler handlers collection = Some h
    ∧ socketId ∈ socketIds ∧ sockets m !! socketId = Some ws
    ∧ wss m !! ws = Some userData ∧ ud_user userData = Some user
    ∧ h user finalEvent = true
    ∧ e = Send ws "payload:event" (PEvent finalEvent).
Proof.
  unfold selected_handler. destruct (handlers !! collection) as [h|].
  - intros He. exists h.
    destruct (emit_authorized_effects _ _ _ _ _ He)
      as (s & w & ud & u & ? & ? & ? & ? & ? & ?).
    by exists s, w, ud, u.
  - destruct (Object_prototype collection) as [[|]|].
    + intros He. exists (λ _ _, true).
      destruct (emit_authorized_effects _ _ _ _ _ He)
        as (s & w & ud & u & ? & ? & ? & ? & ? & ?).
      by exists s, w, ud, u.
    + rewrite emit_uncallable_effects. by intros ?%elem_of_nil.
    + by intros ?%elem_of_nil.
Qed.

(** Every effect of an [emitEvent] call that passes the filter, by the
    part of the function that produces it. *)
Lemma emitEvent_effects o m event e :
  passes_filter o event = true →
  e ∈ (emitEvent o m event).1 →
  let finalEvent := final_event o event in
  let room := collection_room (ev_collection event) in
  (∃ handlers h socketId ws userData user,
      authorize o = Some handlers
      ∧ selected_handler handlers (ev_collection event) = Some h
      ∧ socketId ∈ members m room ∧ sockets m !! socketId = Some ws
      ∧ wss m !! ws = Some userData ∧ ud_user userData = Some user
      ∧ h user finalEvent = true
      ∧ e = Send ws "payload:event" (PEvent finalEvent))
  ∨ (∃ socketId ws,
      authorize o = None
      ∧ socketId ∈ members m room ∧ sockets m !! socketId = Some ws
      ∧ e = Send ws "payload:event" (PEvent finalEvent))
  ∨ (authorize o = None
     ∧ e = Publish {| relay_type := "room-broadcast"; relay_room := room;
                      relay_eventName := "payload:event";
                      relay_event := PEvent finalEvent;
                      relay_message := PEvent finalEvent |})
  ∨ (∃ socketId ws,
      sockets m !! socketId = Some ws
      ∧ e = Send ws "payload:event:all" (PEvent finalEvent))
  ∨ e = Publish {| relay_type := "event"; relay_room := room;
                   relay_eventName := "payload:event";
                   relay_event := PEvent finalEvent;
                   relay_message := PEvent finalEvent |}.
Proof.
  intros Hf. rewrite emitEvent_passed by done. simpl.
  set (finalEvent := final_event o event).
  set (room := collection_room (ev_collection event)).
  assert (∀ scoped : list Effect,
            e ∈ scoped ++ emit_all m finalEvent
                ++ publishToRedis m "event" room "payload:event" (PEvent finalEvent) →
            e ∈ scoped
            ∨ (∃ socketId ws, sockets m !! socketId = Some ws
                 ∧ e = Send ws "payload:event:all" (PEvent finalEvent))
            ∨ e = Publish {| relay_type := "event"; relay_room := room;
                             relay_eventName := "payload:event";
                             relay_event := PEvent finalEvent;
                             relay_message := PEvent finalEvent |}) as Htail.
  { intros scoped. rewrite !elem_of_app, elem_of_emit_all, elem_of_publishToRedis.
    naive_solver. }
  destruct (authorize o) as [handlers|] eqn:Ha.
  - pose proof (authorized_part_effects m handlers (ev_collection event)
                  finalEvent (getSocketsInRoom m room) e) as Hauth.
    destruct (match handlers !! ev_collection event with
              | Some _ => _ | None => _ end) as [scoped c].
    simpl in Hauth.
    assert (e ∈ scoped → ∃ handlers0 h0 socketId ws userData user,
              Some handlers = Some handlers0
              ∧ selected_handler handlers0 (ev_collection event) = Some h0
              ∧ socketId ∈ members m room ∧ sockets m !! socketId = Some ws
              ∧ wss m !! ws = Some userData ∧ ud_user userData = Some user
              ∧ h0 user finalEvent = true
              ∧ e = Send ws "payload:event" (PEvent finalEvent)) as Hs.
    { intros He. destruct (Hauth He) as (h & s & w & ud & u & ? & Hin & ?).
      apply elem_of_getSocketsInRoom in Hin.
      exists handlers, h, s, w, ud, u. naive_solver. }
    destruct c; simpl; [|by left; apply Hs].
    intros [He|He]%Htail; [by left; apply Hs|]. right. right. by right.
  - simpl. intros [He|He]%Htail; [|right; right; by right].
    apply elem_of_broadcastToRoom in He as [(s & w & Hin & _ & Hs & ->)|[_ ->]].
    + right. left. by exists s, w.
    + right. right. by left.
Qed.

(** [C2] (amended) With a transform function [f] configured (one that
    returns the transformed event and leaves the event it is given
    unmodified), [emitEvent] takes the target room and the authorization
    handler from the collection of the original event, and hands the
    transformed event to everything that carries an event.  Every
    delivery and every relay message carries [f event]; relay messages
    name the original event's room; room-scoped deliveries go to members
    of that room only, and, with authorization configured, only where the
    handler found under the original collection returned true for
    [f event].  Conversely, when the event passes the filter and the
    call, running uninterrupted, returns normally: without authorization
    every member of the original event's room that the table knows is
    sent [f event] under ["payload:event"]; with authorization every such member with an
    identity that the handler found under the original collection lets
    through for [f event] is; every connection of the table is sent
    [f event] under ["payload:event:all"]; and with a publishing client
    [f event] is published as ["event"] for the original event's room. *)
Theorem C2_transformed_payload_original_routing
    (o : UWebSocketPluginOptions) (m : Manager) (event : RealtimeEventPayload)
    (f : RealtimeEventPayload → RealtimeEventPayload) :
  transformEvent o = Some f →
  let effs := (emitEvent o m event).1 in
  let room := collection_room (ev_collection event) in
  (∀ ws eventName data, Send ws eventName data ∈ effs → data = PEvent (f event))
  ∧ (∀ env, Publish env ∈ effs →
       relay_room env = room
       ∧ relay_event env = PEvent (f event)
       ∧ relay_message env = PEvent (f event))
  ∧ (∀ ws data, Send ws "payload:event" data ∈ effs →
       ∃ socketId, socketId ∈ members m room ∧ sockets m !! socketId = Some ws)
  ∧ (∀ handlers ws data,
       authorize o = Some handlers → Send ws "payload:event" data ∈ effs →
       ∃ h userData user,
         selected_handler handlers (ev_collection event) = Some h
         ∧ wss m !! ws = Some userData ∧ ud_user userData = Some user
         ∧ h user (f event) = true)
  ∧ (passes_filter o event = true → (emitEvent o m event).2 = Normal →
       (authorize o = None →
          ∀ socketId ws,
            socketId ∈ members m room → sockets m !! socketId = Some ws →
            Send ws "payload:event" (PEvent (f event)) ∈ effs)
       ∧ (∀ handlers h socketId ws userData user,
            authorize o = Some handlers →
            selected_handler handlers (ev_collection event) = Some h →
            socketId ∈ members m room → sockets m !! socketId = Some ws →
            wss m !! ws = Some userData → ud_user userData = Some user →
            h user (f event) = true →
            Send ws "payload:event" (PEvent (f event)) ∈ effs)
       ∧ (∀ socketId ws,
            sockets m !! socketId = Some ws →
            Send ws "payload:event:all" (PEvent (f event)) ∈ effs)
       ∧ (pubClient m = true →
            Publish {| relay_type := "event"; relay_room := room;
                       relay_eventName := "payload:event";
                       relay_event := PEvent (f event);
                       relay_message := PEvent (f event) |} ∈ effs)).
Proof.
  intros Ht effs room.
  assert (final_event o event = f event) as Hfe
    by (unfold final_event; by rewrite Ht).
  assert ((∀ ws eventName data,
             Send ws eventName data ∈ effs → data = PEvent (f event))
          ∧ (∀ env, Publish env ∈ effs →
               relay_room env = room
               ∧ relay_event env = PEvent (f event)
               ∧ relay_message env = PEvent (f event))
          ∧ (∀ ws data, Send ws "payload:event" data ∈ effs →
               ∃ socketId,
                 socketId ∈ members m room ∧ sockets m !! socketId = Some ws)
          ∧ (∀ handlers ws data,
               authorize o = Some handlers →
               Send ws "payload:event" data ∈ effs →
               ∃ h userData user,
                 selected_handler handlers (ev_collection event) = Some h
                 ∧ wss m !! ws = Some userData ∧ ud_user userData = Some user
                 ∧ h user (f event) = true)) as Hsound.
  { destruct (passes_filter o event) eqn:Hf.
    2: { subst effs. rewrite emitEvent_filtered by done. simpl.
         repeat split; intros; exfalso; eapply not_elem_of_nil; eauto. }
    pose proof (λ e, emitEvent_effects o m event e Hf) as He.
    simpl in He. rewrite Hfe in He. fold room in He. fold effs in He.
    split; [|split; [|split]].
    - intros ws eventName data Hin. apply He in Hin. naive_solver.
    - intros env Hin. apply He in Hin. naive_solver.
    - intros ws data Hin. apply He in Hin. naive_solver.
    - intros handlers ws data Ha Hin. apply He in Hin.
      destruct Hin as [Hin|[Hin|[Hin|[Hin|Hin]]]].
      + destruct Hin
          as (hs & h & s & w & ud & u & Ha' & Hh & _ & _ & Hw & Hu & Hok & Heq).
        simplify_eq. by exists h, ud, u.
      + destruct Hin as (s & w & Hnone & _). congruence.
      + destruct Hin as [_ Heq]. done.
      + destruct Hin as (s & w & _ & Heq). simplify_eq.
      + done. }
  destruct Hsound as (H1 & H2 & H3 & H4).
  do 4 (split; [done|]).
  intros Hf. subst effs. rewrite emitEvent_passed by done. simpl.
  rewrite Hfe. fold room.
  destruct (authorize o) as [handlers|] eqn:Ha.
  - intros Hn.
    set (part := match handlers !! ev_collection event with
                 | Some _ => _ | None => _ end) in *.
    assert (part.2 = Normal) as Hpart.
    { destruct part as [scoped c]. by destruct c. }
    assert ((let '(scoped, c) := part in
             match c with
             | Normal =>
                 (scoped ++ emit_all m (f event)
                    ++ publishToRedis m "event" room "payload:event"
                         (PEvent (f event)), Normal)
             | Thrown e => (scoped, Thrown e)
             end).1
            = part.1 ++ emit_all m (f event)
              ++ publishToRedis m "event" room "payload:event"
                   (PEvent (f event))) as ->.
    { destruct part as [scoped c]. simpl in Hpart. by subst c. }
    split; [done|]. split; [|split].
    + intros hs h s w ud u [= <-] Hsel Hin Hs Hw Hu Hh.
      rewrite elem_of_app. left. subst part.
      rewrite (authorized_part_selected m handlers _ _ _ h Hsel) in Hpart |- *.
      apply (emit_authorized_complete m h (f event) _ s w ud u); try done.
      by apply elem_of_getSocketsInRoom.
    + intros s w Hs. rewrite !elem_of_app, elem_of_emit_all. right. left.
      by exists s, w.
    + intros Hp. rewrite !elem_of_app, elem_of_publishToRedis.
      right. right. done.
  - intros _. simpl. split; [|split; [done|split]].
    + intros _ s w Hin Hs. rewrite elem_of_app. left.
      apply elem_of_broadcastToRoom. left. by exists s, w.
    + intros s w Hs. rewrite !elem_of_app, elem_of_emit_all. right. left.
      by exists s, w.
    + intros Hp. rewrite !elem_of_app, elem_of_publishToRedis.
      right. right. done.
Qed.

Lemma retag_trace :
  (emitEvent retag one_subscriber post7).1 =
    [Send 0 "payload:event" (PEvent (to_drafts post7));
     Send 0 "payload:event:all" (PEvent (to_drafts post7));
     Publish {| relay_type := "event"; relay_room := "collection:posts";
                relay_eventName := "payload:event";
                relay_event := PEvent (to_drafts post7);
                relay_message := PEvent (to_drafts post7) |}].
Proof. vm_compute. reflexivity. Qed.

(** The subscriber of ["collection:posts"] is sent the event that the
    transform filed under ["drafts"], let through by the handler of
    ["posts"], and the relay message names ["collection:posts"]: room and
    handler are those of the original event.  Nobody is a member of
    ["collection:drafts"], and the handler of ["drafts"] lets nobody
    through. *)
Lemma C2_counterexample :
  transformEvent retag = Some to_drafts
  ∧ ¬ relay_room_transformed retag one_subscriber post7 to_drafts
  ∧ ¬ target_room_transformed retag one_subscriber post7 to_drafts
  ∧ ¬ handler_transformed retag one_subscriber post7 to_drafts.
Proof.
  split; [reflexivity|].
  unfold relay_room_transformed, target_room_transformed, handler_transformed.
  rewrite retag_trace. split; [|split].
  - intros Hroom.
    specialize (Hroom
      {| relay_type := "event"; relay_room := "collection:posts";
         relay_eventName := "payload:event";
         relay_event := PEvent (to_drafts post7);
         relay_message := PEvent (to_drafts post7) |}).
    assert ("collection:posts" = "collection:drafts") as Habs; [|done].
    apply Hroom. do 2 apply list_elem_of_further. apply list_elem_of_here.
  - intros Htarget.
    destruct (Htarget 0 (PEvent (to_drafts post7)) (list_elem_of_here _ _))
      as (socketId & Hin & _).
    assert (members one_subscriber
              (collection_room (ev_collection (to_drafts post7))) = ∅) as Hm
      by (vm_compute; reflexivity).
    rewrite Hm in Hin. by apply elem_of_empty in Hin.
  - intros Hhandler.
    destruct (Hhandler {[ "posts" := λ _ _, true; "drafts" := λ _ _, false ]}
                0 (PEvent (to_drafts post7)) eq_refl (list_elem_of_here _ _))
      as (h & ud & u & Hh & _ & _ & Hok).
    vm_compute in Hh. injection Hh as <-. discriminate Hok.
Qed.

Lemma C2_witness :
  Send 0 "payload:event" (PEvent (to_drafts post7))
    ∈ (emitEvent retag one_subscriber post7).1
  ∧ Publish {| relay_type := "event"; relay_room := "collection:posts";
               relay_eventName := "payload:event";
               relay_event := PEvent (to_drafts post7);
               relay_message := PEvent (to_drafts post7) |}
      ∈ (emitEvent retag one_subscriber post7).1
  ∧ (∀ ws eventName data,
       Send ws eventName data ∈ (emitEvent retag one_subscriber post7).1 →
       data = PEvent (to_drafts post7)).
Proof.
  destruct (C2_transformed_payload_original_routing retag one_subscriber
              post7 to_drafts eq_refl) as (Hsend & _ & _ & _ & Hcomplete).
  destruct (Hcomplete eq_refl) as (_ & Hauth & _ & Hpub).
  { vm_compute. reflexivity. }
  split; [|split; [|exact Hsend]].
  - apply (Hauth {[ "posts" := λ _ _, true; "drafts" := λ _ _, false ]}
             (λ _ _, true) "s1" 0
             {| ud_user := Some alice; ud_id := "s1";
                ud_rooms := {[ "collection:posts" ]} |} alice);
      vm_compute; reflexivity.
  - apply Hpub. reflexivity.
Defined.

(** ** The gateway invariant *)

Lemma join_step_invariant m ws socketId r :
  gateway_invariant m → sockets m !! socketId = Some ws →
  gateway_invariant (set_wss (alter (rooms_add r) ws) (joinRoom socketId r m)).
Proof.
  intros (Ht & Hs & Hr) Hid.
  set (m' := set_wss (alter (rooms_add r) ws) (joinRoom socketId r m)).
  assert (wss m' = alter (rooms_add r) ws (wss m)) as Hw
    by (simpl; by rewrite joinRoom_wss).
  assert (sockets m' = sockets m) as Hk by (simpl; by rewrite joinRoom_sockets).
  assert (∀ r', members m' r' =
            if decide (r = r') then {[socketId]} ∪ members m r else members m r')
    as Hm by (intros r'; apply members_joinRoom).
  split; [|split].
  - intros id' w'. rewrite Hk, Hw. intros Hl.
    destruct (Ht _ _ Hl) as (ud & Hud & Hi).
    rewrite lookup_alter. case_decide; subst; rewrite Hud; simpl; by eexists.
  - intros id' w' ud' r'. rewrite Hk, Hw, Hm. intros Hl Hud.
    destruct (Ht _ _ Hl) as (ud0 & Hud0 & Hi0).
    destruct (decide (ws = w')) as [<-|Hne].
    + destruct (Ht _ _ Hid) as (ud1 & Hud1 & Hi1).
      assert (id' = socketId) as -> by congruence.
      rewrite lookup_alter_eq, Hud0 in Hud. simpl in Hud. injection Hud as <-.
      simpl. specialize (Hs socketId ws ud0 r' Hid Hud0).
      case_decide; set_solver.
    + rewrite lookup_alter_ne in Hud by done.
      assert (id' ≠ socketId) by (intros ->; congruence).
      specialize (Hs id' w' ud' r' Hl Hud). case_decide; set_solver.
  - intros r' id'. rewrite Hk, Hm. case_decide; [|apply Hr].
    rewrite elem_of_union, elem_of_singleton. intros [->|Hin]; [by eexists|].
    by eapply Hr.
Qed.

Lemma leave_step_invariant m ws socketId r :
  gateway_invariant m → sockets m !! socketId = Some ws →
  gateway_invariant
    (set_wss (alter (rooms_delete r) ws) (leaveRoom socketId r m)).
Proof.
  intros (Ht & Hs & Hr) Hid.
  set (m' := set_wss (alter (rooms_delete r) ws) (leaveRoom socketId r m)).
  assert (wss m' = alter (rooms_delete r) ws (wss m)) as Hw
    by (simpl; by rewrite leaveRoom_wss).
  assert (sockets m' = sockets m) as Hk by (simpl; by rewrite leaveRoom_sockets).
  assert (∀ r', members m' r' =
            if decide (r = r') then members m r ∖ {[socketId]} else members m r')
    as Hm by (intros r'; apply members_leaveRoom).
  split; [|split].
  - intros id' w'. rewrite Hk, Hw. intros Hl.
    destruct (Ht _ _ Hl) as (ud & Hud & Hi).
    rewrite lookup_alter. case_decide; subst; rewrite Hud; simpl; by eexists.
  - intros id' w' ud' r'. rewrite Hk, Hw, Hm. intros Hl Hud.
    destruct (Ht _ _ Hl) as (ud0 & Hud0 & Hi0).
    destruct (decide (ws = w')) as [<-|Hne].
    + destruct (Ht _ _ Hid) as (ud1 & Hud1 & Hi1).
      assert (id' = socketId) as -> by congruence.
      rewrite lookup_alter_eq, Hud0 in Hud. simpl in Hud. injection Hud as <-.
      simpl. specialize (Hs socketId ws ud0 r' Hid Hud0).
      case_decide; set_solver.
    + rewrite lookup_alter_ne in Hud by done.
      assert (id' ≠ socketId) by (intros ->; congruence).
      specialize (Hs id' w' ud' r' Hl Hud). case_decide; set_solver.
  - intros r' id'. rewrite Hk, Hm. case_decide; [|apply Hr].
    rewrite elem_of_difference. intros [Hin _]. by eapply Hr.
Qed.

Lemma handleJoinCollection_invariant m ws userData data :
  gateway_invariant m →
  wss m !! ws = Some userData → sockets m !! ud_id userData = Some ws →
  gateway_invariant (handleJoinCollection m ws data).
Proof.
  intros Hi Hw Hs. unfold handleJoinCollection. rewrite Hw.
  apply (foldl_preserves
           (λ a, gateway_invariant a ∧ sockets a !! ud_id userData = Some ws));
    [|done].
  intros a coll [Ha Hsa]. split; [by apply join_step_invariant|].
  simpl. by rewrite joinRoom_sockets.
Qed.

Lemma handleUnsubscribe_invariant m ws userData data :
  gateway_invariant m →
  wss m !! ws = Some userData → sockets m !! ud_id userData = Some ws →
  gateway_invariant (handleUnsubscribe m ws data).
Proof.
  intros Hi Hw Hs. unfold handleUnsubscribe. rewrite Hw.
  apply (foldl_preserves
           (λ a, gateway_invariant a ∧ sockets a !! ud_id userData = Some ws));
    [|done].
  intros a coll [Ha Hsa]. split; [by apply leave_step_invariant|].
  simpl. by rewrite leaveRoom_sockets.
Qed.

Lemma close_fold_fields userData (l : list string) m acc :
  let result := foldl (close_room userData) (m, acc) l in
  wss result.1 = wss m ∧ sockets result.1 = sockets m
  ∧ customHandlers result.1 = customHandlers m
  ∧ pubClient result.1 = pubClient m
  ∧ ∀ r, members result.1 r =
      if decide (r ∈ l) then members m r ∖ {[ud_id userData]} else members m r.
Proof.
  revert m acc. induction l as [|x l IH]; intros m acc; simpl.
  - by repeat split.
  - destruct (IH (leaveRoom (ud_id userData) x m)
                (acc ++ notify_left m userData x)) as (Hw & Hs & Hc & Hp & Hm).
    simpl in *. rewrite Hw, Hs, Hc, Hp.
    rewrite leaveRoom_wss, leaveRoom_sockets, leaveRoom_customHandlers,
      leaveRoom_pubClient.
    split_and!; try done. intros r. rewrite Hm, !members_leaveRoom.
    destruct (decide (x = r)) as [->|Hne].
    + rewrite (decide_True (P := r ∈ r :: l)) by apply list_elem_of_here.
      case_decide; set_solver.
    + destruct (decide (r ∈ l)) as [Hin|Hin].
      * rewrite decide_True; [done|by apply list_elem_of_further].
      * rewrite decide_False; [done|]. rewrite elem_of_cons. naive_solver.
Qed.

Lemma close_fields m ws userData :
  wss m !! ws = Some userData →
  wss (close m ws).1 = wss m
  ∧ sockets (close m ws).1 = delete (ud_id userData) (sockets m)
  ∧ customHandlers (close m ws).1 = customHandlers m
  ∧ pubClient (close m ws).1 = pubClient m
  ∧ ∀ r, members (close m ws).1 r =
      if decide (r ∈ ud_rooms userData)
      then members m r ∖ {[ud_id userData]} else members m r.
Proof.
  intros Hw. unfold close. rewrite Hw.
  pose proof (close_fold_fields userData (elements (ud_rooms userData)) m [])
    as (H1 & H2 & H3 & H4 & H5).
  destruct (foldl _ _ _) as [m1 effs]. simpl in *.
  rewrite H1, H2, H3, H4. split_and!; try done.
  intros r. change (members (set_sockets (delete (ud_id userData)) m1) r)
    with (members m1 r).
  rewrite H5. destruct (decide (r ∈ ud_rooms userData)) as [Hin|Hin].
  - rewrite decide_True; [done|by apply elem_of_elements].
  - rewrite decide_False; [done|by rewrite elem_of_elements].
Qed.

Lemma close_invariant m ws userData :
  gateway_invariant m →
  wss m !! ws = Some userData → sockets m !! ud_id userData = Some ws →
  gateway_invariant (close m ws).1.
Proof.
  intros (Ht & Hs & Hr) Hw Hid.
  destruct (close_fields m ws userData Hw) as (Hw' & Hk & _ & _ & Hm).
  assert (∀ r, members (close m ws).1 r = members m r ∖ {[ud_id userData]})
    as Hm'.
  { intros r. rewrite Hm. case_decide as Hin; [done|].
    specialize (Hs _ _ _ r Hid Hw). set_solver. }
  split; [|split].
  - intros id' w'. rewrite Hk, Hw'. intros [Hne Hl]%lookup_delete_Some. eauto.
  - intros id' w' ud' r. rewrite Hk, Hw', Hm'.
    intros [Hne Hl]%lookup_delete_Some Hud.
    specialize (Hs _ _ _ r Hl Hud). set_solver.
  - intros r id'. rewrite Hk, Hm', elem_of_difference, elem_of_singleton.
    intros [Hin Hne]. rewrite lookup_delete_ne by done. by eapply Hr.
Qed.

Lemma on_fold_fields (regs : list (string * handler)) m :
  let m' := foldl (λ m '(eventName, h), on eventName h m) m regs in
  wss m' = wss m ∧ sockets m' = sockets m ∧ rooms m' = rooms m
  ∧ pubClient m' = pubClient m.
Proof.
  revert m. induction regs as [|[e h] regs IH]; intros m; simpl; [done|].
  destruct (IH (on e h m)) as (H1 & H2 & H3 & H4). by rewrite H1, H2, H3, H4.
Qed.

Lemma accept_upgrade_fields o ws m userData key protocol extensions :
  let m' := accept o ws m (WsUpgrade userData key protocol extensions) in
  wss m' = <[ws := userData]> (wss m)
  ∧ sockets m' = <[ud_id userData := ws]> (sockets m)
  ∧ rooms m' = rooms m ∧ pubClient m' = pubClient m.
Proof.
  simpl. unfold open. simpl. rewrite lookup_insert_eq.
  destruct (onSocketConnection o) as [callback|]; [|done].
  destruct (on_fold_fields (callback ws)
              (set_sockets (insert (ud_id userData) ws)
                 (set_wss (insert ws userData) m))) as (H1 & H2 & H3 & H4).
  by rewrite H1, H2, H3, H4.
Qed.

Lemma gateway_invariant_ext m m' :
  wss m' = wss m → sockets m' = sockets m → rooms m' = rooms m →
  gateway_invariant m → gateway_invariant m'.
Proof.
  unfold gateway_invariant, table_consistent, membership_symmetric,
    members_registered, members.
  by intros -> -> ->.
Qed.

Lemma accept_upgrade_invariant o ws m userData key protocol extensions :
  gateway_invariant m →
  wss m !! ws = None → sockets m !! ud_id userData = None →
  ud_rooms userData = ∅ →
  gateway_invariant (accept o ws m (WsUpgrade userData key protocol extensions)).
Proof.
  intros (Ht & Hs & Hr) Hw Hid Hrooms.
  destruct (accept_upgrade_fields o ws m userData key protocol extensions)
    as (Hw' & Hk & Hm & _).
  set (m' := accept o ws m (WsUpgrade userData key protocol extensions)) in *.
  assert (∀ r, members m' r = members m r) as Hm'
    by (intros r; unfold members; by rewrite Hm).
  split; [|split].
  - intros id' w'. rewrite Hk, Hw'. intros Hl.
    apply lookup_insert_Some in Hl as [[<- <-]|[Hne Hl]].
    + exists userData. by rewrite lookup_insert_eq.
    + destruct (Ht _ _ Hl) as (ud & Hud & Hi). exists ud. split; [|done].
      rewrite lookup_insert_ne; [done|]. intros <-. congruence.
  - intros id' w' ud' r. rewrite Hk, Hw', Hm'. intros Hl Hud.
    apply lookup_insert_Some in Hl as [[<- <-]|[Hne Hl]].
    + rewrite lookup_insert_eq in Hud. injection Hud as <-. rewrite Hrooms.
      split; [by intros ?%elem_of_empty|].
      intros Hin. destruct (Hr _ _ Hin) as [w Hsome]. congruence.
    + destruct (Ht _ _ Hl) as (ud & Hud0 & Hi).
      rewrite lookup_insert_ne in Hud by (intros <-; congruence).
      by apply (Hs id' w').
  - intros r id'. rewrite Hk, Hm'. intros Hin.
    rewrite lookup_insert_is_Some. destruct (decide (ud_id userData = id'));
      [by left|right]. split; [done|]. by eapply Hr.
Qed.

Lemma step_invariant o m m' :
  step o m m' → gateway_invariant m → gateway_invariant m'.
Proof.
  intros Hstep Hi. destruct Hstep as [m ws ud k p e Hw Hs Hr|m ws ud msg Hw Hs
                                     |m ws ud Hw Hs|m eventName h].
  - by apply accept_upgrade_invariant.
  - unfold handleMessage.
    destruct (_ || _); [by eapply handleJoinCollection_invariant|].
    destruct (bool_decide _); [by eapply handleUnsubscribe_invariant|].
    by destruct (customHandlers m !! _).
  - by eapply close_invariant.
  - by eapply gateway_invariant_ext; [..|done].
Qed.

Lemma new_manager_invariant redis : gateway_invariant (new_manager redis).
Proof.
  split; [|split].
  - intros id w Hl. cbn in Hl. by rewrite lookup_empty in Hl.
  - intros id w ud r Hl. cbn in Hl. by rewrite lookup_empty in Hl.
  - intros r id. unfold members. cbn. rewrite lookup_empty.
    by intros ?%elem_of_empty.
Qed.

Lemma reachable_invariant o m : reachable o m → gateway_invariant m.
Proof.
  intros [redis Hr]. pose proof (new_manager_invariant redis) as H0.
  revert H0. induction Hr as [|x y z Hxy _ IH]; [done|].
  intros Hx. apply IH. by eapply step_invariant.
Qed.

(** [C3] (amended) In every state reached from a new manager through the
    transport events ([open] of a newly upgraded socket, inbound messages
    to an open socket, [close] of an open socket) and handler
    registration, with custom handlers that leave the registry alone,
    membership is symmetric for the connections of the table: a
    connection's own room set contains a room exactly when the room's
    member set contains the connection's id; and every member id of a
    room is the id of a connection of the table. *)
Theorem C3_membership_symmetry (o : UWebSocketPluginOptions) (m : Manager) :
  reachable o m →
  membership_symmetric m ∧ members_registered m.
Proof. intros Hr. by destruct (reachable_invariant o m Hr) as (_ & Hs & Hm). Qed.

Lemma joined_directly_reachable : public_reachable no_options joined_directly.
Proof.
  exists false. eapply rtc_l; [|eapply rtc_l; [|apply rtc_refl]].
  - left. by apply (step_open no_options (new_manager false) 0
                      {| ud_user := Some alice; ud_id := "s1";
                         ud_rooms := ∅ |} "" "" "").
  - right. apply call_joinRoom.
Defined.

(** The public [joinRoom] enters the id in the registry and leaves the
    socket's own room set as it was: the room holds ["s1"], the socket
    lists no room. *)
Lemma C3_counterexample :
  public_reachable no_options joined_directly
  ∧ ¬ membership_symmetric joined_directly.
Proof.
  split; [apply joined_directly_reachable|].
  intros Hsym.
  specialize (Hsym "s1" 0
                {| ud_user := Some alice; ud_id := "s1"; ud_rooms := ∅ |}
                "room:alpha" eq_refl eq_refl).
  simpl in Hsym.
  apply (not_elem_of_empty (C := gset string) "room:alpha"), Hsym.
  vm_compute. reflexivity.
Qed.

Lemma one_subscriber_reachable : reachable no_options one_subscriber.
Proof.
  exists true. eapply rtc_l; [|eapply rtc_l; [|apply rtc_refl]].
  - by apply (step_open no_options (new_manager true) 0
                {| ud_user := Some alice; ud_id := "s1"; ud_rooms := ∅ |}
                "" "" "").
  - by apply (step_message no_options _ 0
                {| ud_user := Some alice; ud_id := "s1"; ud_rooms := ∅ |}
                (join_message "posts")).
Defined.

Lemma C3_witness :
  membership_symmetric one_subscriber ∧ members_registered one_subscriber.
Proof.
  exact (C3_membership_symmetry no_options one_subscriber
           one_subscriber_reachable).
Defined.

(** The table stays consistent under direct registry calls as well. *)
Lemma table_consistent_ext m m' :
  wss m' = wss m → sockets m' = sockets m →
  table_consistent m → table_consistent m'.
Proof. unfold table_consistent. by intros -> ->. Qed.

Lemma table_consistent_alter f ws m :
  (∀ ud, ud_id (f ud) = ud_id ud) →
  table_consistent m → table_consistent (set_wss (alter f ws) m).
Proof.
  intros Hf Ht id w Hl. simpl in *. destruct (Ht _ _ Hl) as (ud & Hud & Hi).
  rewrite lookup_alter. case_decide; subst; rewrite Hud; simpl; eexists;
    (split; [done|]); by rewrite ?Hf.
Qed.

Lemma step_table_consistent o m m' :
  step o m m' → table_consistent m → table_consistent m'.
Proof.
  intros Hstep Ht. destruct Hstep as [m ws ud k p e Hw Hs Hr|m ws ud msg Hw Hs
                                     |m ws ud Hw Hs|m eventName h].
  - destruct (accept_upgrade_fields o ws m ud k p e) as (Hw' & Hk & _).
    intros id' w'. rewrite Hk, Hw'. intros Hl.
    apply lookup_insert_Some in Hl as [[<- <-]|[Hne Hl]].
    + exists ud. by rewrite lookup_insert_eq.
    + destruct (Ht _ _ Hl) as (ud' & Hud & Hi). exists ud'. split; [|done].
      rewrite lookup_insert_ne; [done|]. intros <-. congruence.
  - unfold handleMessage.
    destruct (_ || _); [|destruct (bool_decide _)].
    + unfold handleJoinCollection. rewrite Hw.
      apply (foldl_preserves table_consistent); [|done]. intros a coll Ha.
      apply table_consistent_alter; [done|].
      eapply table_consistent_ext; [apply joinRoom_wss|apply joinRoom_sockets|done].
    + unfold handleUnsubscribe. rewrite Hw.
      apply (foldl_preserves table_consistent); [|done]. intros a coll Ha.
      apply table_consistent_alter; [done|].
      eapply table_consistent_ext; [apply leaveRoom_wss|apply leaveRoom_sockets|done].
    + by destruct (customHandlers m !! _).
  - destruct (close_fields m ws ud Hw) as (Hw' & Hk & _).
    intros id' w'. rewrite Hk, Hw'. intros [Hne Hl]%lookup_delete_Some. eauto.
  - done.
Qed.

Lemma public_reachable_table_consistent o m :
  public_reachable o m → table_consistent m.
Proof.
  intros [redis Hr].
  assert (table_consistent (new_manager redis)) as H0
    by (intros id w Hl; cbn in Hl; by rewrite lookup_empty in Hl).
  revert H0. induction Hr as [|x y z Hxy _ IH]; [done|].
  intros Hx. apply IH. destruct Hxy as [Hs|Hc].
  - by eapply step_table_consistent.
  - destruct Hc.
    + eapply table_consistent_ext; [apply joinRoom_wss|apply joinRoom_sockets|done].
    + eapply table_consistent_ext; [apply leaveRoom_wss|apply leaveRoom_sockets|done].
Qed.

(** ** Default deny *)

Lemma deliveries_other_label ws label label' (l : list (string * wsref)) p :
  label ≠ label' →
  deliveries ws label ((λ kv, Send kv.2 label' p) <$> l) = [].
Proof.
  intros Hne. induction l as [|[k v] l IH]; simpl; [done|].
  unfold deliveries in *. simpl.
  rewrite (bool_decide_eq_false_2 (label' = label)) by congruence.
  by rewrite andb_false_r.
Qed.

Lemma deliveries_publishToRedis ws label m type room eventName data :
  deliveries ws label (publishToRedis m type room eventName data) = [].
Proof. unfold publishToRedis. by destruct (pubClient m). Qed.

Lemma deliveries_absent ws label (l : list (string * wsref)) p :
  ws ∉ l.*2 → deliveries ws label ((λ kv, Send kv.2 label p) <$> l) = [].
Proof.
  induction l as [|[k v] l IH]; simpl; [done|].
  rewrite not_elem_of_cons. intros [Hne Hnin].
  unfold deliveries in *. simpl.
  rewrite (bool_decide_eq_false_2 (v = ws)) by congruence. simpl. by apply IH.
Qed.

Lemma deliveries_once ws label (l : list (string * wsref)) p k :
  NoDup (l.*1) →
  (∀ k1 k2 v, (k1, v) ∈ l → (k2, v) ∈ l → k1 = k2) →
  (k, ws) ∈ l →
  deliveries ws label ((λ kv, Send kv.2 label p) <$> l) = [p].
Proof.
  induction l as [|[k' v] l IH]; simpl; intros Hnd Hinj Hin.
  - by apply elem_of_nil in Hin.
  - apply NoDup_cons in Hnd as [Hk' Hnd].
    unfold deliveries in *. simpl.
    rewrite (bool_decide_eq_true_2 (label = label)) by done.
    destruct (decide (v = ws)) as [->|Hne].
    + rewrite bool_decide_eq_true_2 by done. simpl. f_equal.
      apply (deliveries_absent ws label l p).
      intros Hws. apply list_elem_of_fmap in Hws as [[k2 v2] [Heq Hin2]].
      simpl in Heq. subst v2.
      assert (k' = k2) as ->.
      { apply (Hinj k' k2 ws); [apply list_elem_of_here|].
        by apply list_elem_of_further. }
      apply Hk'. apply list_elem_of_fmap. by exists (k2, ws).
    + rewrite bool_decide_eq_false_2 by done. simpl.
      apply elem_of_cons in Hin as [Heq|Hin]; [congruence|].
      apply IH; [done| |done].
      intros k1 k2 v0 H1 H2.
      apply (Hinj k1 k2 v0); by apply list_elem_of_further.
Qed.

Lemma deliveries_emit_all m finalEvent socketId ws :
  table_consistent m → sockets m !! socketId = Some ws →
  deliveries ws "payload:event:all" (emit_all m finalEvent) = [PEvent finalEvent]
  ∧ deliveries ws "payload:event" (emit_all m finalEvent) = [].
Proof.
  intros Ht Hs. rewrite emit_all_fmap. split.
  - apply (deliveries_once _ _ _ _ socketId).
    + apply NoDup_fst_map_to_list.
    + intros k1 k2 v H1%elem_of_map_to_list H2%elem_of_map_to_list.
      destruct (Ht _ _ H1) as (ud1 & Hu1 & <-).
      destruct (Ht _ _ H2) as (ud2 & Hu2 & <-). congruence.
    + by apply elem_of_map_to_list.
  - by apply deliveries_other_label.
Qed.

(** [C5] [emitEvent] indexes the configuration object with the event's
    collection, and an object indexed with a name it does not hold itself
    answers with what it inherits.  With authorization configured and no
    handler registered at all, an event of a collection named
    ["toString"] passes the filter and is delivered under
    ["payload:event"] to the subscriber of its room: the inherited
    function is called in place of a handler and what it returns counts
    as consent.  Default-deny does not hold on this input; the delivery
    under ["payload:event:all"] is made once. *)
Theorem C5_inherited_name_is_not_denied :
  authorize no_handlers = Some ∅
  ∧ (∅ : gmap string (User → RealtimeEventPayload → bool))
      !! ev_collection toString7 = None
  ∧ public_reachable no_handlers toString_subscriber
  ∧ passes_filter no_handlers toString7 = true
  ∧ (emitEvent no_handlers toString_subscriber toString7).2 = Normal
  ∧ deliveries 0 "payload:event"
      (emitEvent no_handlers toString_subscriber toString7).1
    = [PEvent toString7]
  ∧ deliveries 0 "payload:event:all"
      (emitEvent no_handlers toString_subscriber toString7).1
    = [PEvent toString7].
Proof.
  split; [reflexivity|]. split; [reflexivity|]. split.
  - exists true. eapply rtc_l; [|eapply rtc_l; [|apply rtc_refl]].
    + left.
      by apply (step_open no_handlers (new_manager true) 0
                  {| ud_user := Some alice; ud_id := "s1"; ud_rooms := ∅ |}
                  "" "" "").
    + left.
      by apply (step_message no_handlers _ 0
                  {| ud_user := Some alice; ud_id := "s1"; ud_rooms := ∅ |}
                  (join_message "toString")).
  - repeat split; vm_compute; reflexivity.
Qed.

(** ** Closing a connection *)

Lemma broadcastToRoom_ext m m' room data eventName exclude :
  members m' room = members m room → sockets m' = sockets m →
  pubClient m' = pubClient m →
  broadcastToRoom m' room data eventName exclude
  = broadcastToRoom m room data eventName exclude.
Proof.
  intros Hm Hs Hp. unfold broadcastToRoom, publishToRedis.
  by rewrite !getSocketsInRoom_members, Hm, Hs, Hp.
Qed.

Lemma notify_left_ext m m' userData room :
  members m' room = members m room → sockets m' = sockets m →
  pubClient m' = pubClient m →
  notify_left m' userData room = notify_left m userData room.
Proof.
  intros Hm Hs Hp. unfold notify_left.
  destruct (ud_user userData); [|done].
  by rewrite !(broadcastToRoom_ext m m').
Qed.

Lemma close_fold_effects userData (l : list string) m acc :
  NoDup l →
  (foldl (close_room userData) (m, acc) l).2
  = acc ++ flat_map (notify_left m userData) l.
Proof.
  revert m acc. induction l as [|x l IH]; intros m acc Hnd; simpl.
  - by rewrite app_nil_r.
  - apply NoDup_cons in Hnd as [Hx Hnd]. rewrite IH by done.
    rewrite <- app_assoc. do 2 f_equal.
    clear IH Hnd. induction l as [|y l IHl]; simpl; [done|].
    apply not_elem_of_cons in Hx as [Hxy Hx]. f_equal; [|by apply IHl].
    apply notify_left_ext.
    + rewrite members_leaveRoom. by rewrite decide_False.
    + apply leaveRoom_sockets.
    + apply leaveRoom_pubClient.
Qed.

Lemma close_effects m ws userData :
  wss m !! ws = Some userData →
  (close m ws).2 = flat_map (notify_left m userData) (elements (ud_rooms userData)).
Proof.
  intros Hw. unfold close. rewrite Hw.
  pose proof (close_fold_effects userData (elements (ud_rooms userData)) m []
                (NoDup_elements _)) as He.
  destruct (foldl _ _ _) as [m1 effs]. done.
Qed.

(** [C4] (amended) When a connection with an identity closes, the
    notifications sent are exactly these: for every room the closing
    connection lists whose name starts with [project:] (respectively
    [actor:]), every other member of that room that the table knows is
    sent ["project:user-left"] (respectively ["actor:user-left"])
    carrying the identity's id, and with a publishing client the same
    notification is published for that room.  Hence a connection that
    shares only rooms with other names with the closing one,
    ["room:alpha"] among them, is sent nothing, and when the closing
    connection lists no room of the two kinds nothing is sent at all.  In
    every case the closed connection is no longer among the members of
    the rooms it listed. *)
Theorem C4_leave_notification_by_room_name (m : Manager) (ws1 : wsref)
    (userData1 : WebSocketUserData) (user1 : User) (room : string) :
  wss m !! ws1 = Some userData1 →
  ud_user userData1 = Some user1 →
  room ∈ ud_rooms userData1 →
  (∀ label socketId2 ws2,
     leave_label room = Some label →
     socketId2 ∈ members m room → socketId2 ≠ ud_id userData1 →
     sockets m !! socketId2 = Some ws2 →
     Send ws2 label (PUserLeft (user_id user1)) ∈ (close m ws1).2)
  ∧ (∀ ws2 label data,
       Send ws2 label data ∈ (close m ws1).2 ↔
       ∃ r socketId2,
         r ∈ ud_rooms userData1 ∧ leave_label r = Some label
         ∧ data = PUserLeft (user_id user1)
         ∧ socketId2 ∈ members m r
         ∧ (socketId2 ≠ ud_id userData1 ∨ ud_id userData1 = "")
         ∧ sockets m !! socketId2 = Some ws2)
  ∧ (∀ env,
       Publish env ∈ (close m ws1).2 ↔
       pubClient m = true
       ∧ ∃ r label,
           r ∈ ud_rooms userData1 ∧ leave_label r = Some label
           ∧ env = {| relay_type := "room-broadcast"; relay_room := r;
                      relay_eventName := label;
                      relay_event := PUserLeft (user_id user1);
                      relay_message := PUserLeft (user_id user1) |})
  ∧ (∀ ws2,
       (∀ r socketId2,
          r ∈ ud_rooms userData1 → socketId2 ∈ members m r →
          sockets m !! socketId2 = Some ws2 → leave_label r = None) →
       ∀ label data, Send ws2 label data ∉ (close m ws1).2)
  ∧ ((∀ r, r ∈ ud_rooms userData1 → leave_label r = None) →
     (close m ws1).2 = [])
  ∧ ud_id userData1 ∉ getSocketsInRoom (close m ws1).1 room.
Proof.
  intros Hw Hu Hroom. rewrite (close_effects m ws1 userData1 Hw).
  assert (∀ socketId2,
            is_excluded (Some (ud_id userData1)) socketId2 = false
            ↔ socketId2 ≠ ud_id userData1 ∨ ud_id userData1 = "") as Hex.
  { intros id2. unfold is_excluded.
    destruct (decide (ud_id userData1 = "")) as [He|He].
    - rewrite (bool_decide_eq_true_2 _ He). simpl. naive_solver.
    - rewrite (bool_decide_eq_false_2 _ He). simpl.
      case_bool_decide; naive_solver. }
  assert (∀ r e, e ∈ notify_left m userData1 r ↔
            ∃ label, leave_label r = Some label
              ∧ e ∈ broadcastToRoom m r (PUserLeft (user_id user1)) label
                      (Some (ud_id userData1))) as Hnotify.
  { intros r e. unfold notify_left, leave_label. rewrite Hu.
    destruct (String.prefix "project:" r).
    - split; [by exists "project:user-left"|]. by intros (l & [= <-] & ?).
    - destruct (String.prefix "actor:" r).
      + split; [by exists "actor:user-left"|]. by intros (l & [= <-] & ?).
      + split; [by intros ?%elem_of_nil|]. by intros (l & ? & _). }
  assert (∀ ws2 label data,
       Send ws2 label data
         ∈ flat_map (notify_left m userData1) (elements (ud_rooms userData1)) ↔
       ∃ r socketId2,
         r ∈ ud_rooms userData1 ∧ leave_label r = Some label
         ∧ data = PUserLeft (user_id user1)
         ∧ socketId2 ∈ members m r
         ∧ (socketId2 ≠ ud_id userData1 ∨ ud_id userData1 = "")
         ∧ sockets m !! socketId2 = Some ws2) as Hsends.
  { intros ws2 label data. rewrite elem_of_flat_map. split.
    - intros (r & Hin & Hr%elem_of_elements).
      apply Hnotify in Hin as (l & Hl & Hin).
      apply elem_of_broadcastToRoom in Hin
        as [(id2 & w & Hmem & Hx%Hex & Hs & Heq)|[_ Heq]]; [|done].
      injection Heq as -> -> ->. by exists r, id2.
    - intros (r & id2 & Hr & Hl & -> & Hmem & Hx%Hex & Hs).
      exists r. split; [|by apply elem_of_elements].
      apply Hnotify. exists label. split; [done|].
      apply elem_of_broadcastToRoom. left. by exists id2, ws2. }
  split; [|split; [|split; [|split; [|split]]]].
  - intros label id2 ws2 Hl Hin Hne Hs. apply Hsends.
    exists room, id2. split_and!; try done. by left.
  - exact Hsends.
  - intros env. rewrite elem_of_flat_map. split.
    + intros (r & Hin & Hr%elem_of_elements).
      apply Hnotify in Hin as (l & Hl & Hin).
      apply elem_of_broadcastToRoom in Hin
        as [(id2 & w & _ & _ & _ & Heq)|[Hp Heq]]; [done|].
      injection Heq as ->. split; [done|]. by exists r, l.
    + intros (Hp & r & l & Hr & Hl & ->).
      exists r. split; [|by apply elem_of_elements].
      apply Hnotify. exists l. split; [done|].
      apply elem_of_broadcastToRoom. by right.
  - intros ws2 Hnone label data Hin.
    apply Hsends in Hin as (r & id2 & Hr & Hl & _ & Hmem & _ & Hs).
    rewrite (Hnone r id2 Hr Hmem Hs) in Hl. done.
  - intros Hnone.
    assert (∀ l : list string, (∀ r, r ∈ l → leave_label r = None) →
              flat_map (notify_left m userData1) l = []) as Hl.
    { induction l as [|r l IH]; intros Hall; simpl; [done|].
      rewrite IH by (intros r' Hr'; apply Hall; by apply list_elem_of_further).
      rewrite app_nil_r.
      specialize (Hall r (list_elem_of_here _ _)).
      unfold notify_left, leave_label in *. rewrite Hu.
      destruct (String.prefix "project:" r); [done|].
      by destruct (String.prefix "actor:" r). }
    apply Hl. intros r Hr. by apply Hnone, elem_of_elements.
  - rewrite elem_of_getSocketsInRoom.
    destruct (close_fields m ws1 userData1 Hw) as (_ & _ & _ & _ & Hm).
    rewrite Hm, decide_True by done. set_solver.
Qed.

(** With both sockets in ["room:alpha"], closing the first sends nothing
    at all, so the second is not told that alice left; the first is
    removed from the room all the same. *)
Lemma C4_counterexample :
  "s1" ∈ members (two_in_room "room:alpha") "room:alpha"
  ∧ "s2" ∈ members (two_in_room "room:alpha") "room:alpha"
  ∧ sockets (two_in_room "room:alpha") !! "s2" = Some 1
  ∧ (¬ ∃ label, Send 1 label (PUserLeft (user_id alice))
                  ∈ (close (two_in_room "room:alpha") 0).2)
  ∧ getSocketsInRoom (close (two_in_room "room:alpha") 0).1 "room:alpha"
    = ["s2"].
Proof.
  split; [vm_compute; reflexivity|].
  split; [vm_compute; reflexivity|].
  split; [vm_compute; reflexivity|].
  split; [|vm_compute; reflexivity].
  assert ((close (two_in_room "room:alpha") 0).2 = []) as ->
    by (vm_compute; reflexivity).
  intros [label Hin]. by apply elem_of_nil in Hin.
Qed.

Lemma C4_witness :
  Send 1 "project:user-left" (PUserLeft (IdString "u1"))
    ∈ (close mixed_rooms 0).2
  ∧ (∀ label data, Send 2 label data ∉ (close mixed_rooms 0).2)
  ∧ "s3" ∈ members mixed_rooms "room:alpha"
  ∧ "s1" ∉ getSocketsInRoom (close mixed_rooms 0).1 "room:alpha".
Proof.
  assert (wss mixed_rooms !! 0
          = Some {| ud_user := Some alice; ud_id := "s1";
                    ud_rooms := {[ "project:alpha"; "room:alpha" ]} |}) as Hw
    by (vm_compute; reflexivity).
  pose proof (C4_leave_notification_by_room_name mixed_rooms 0 _ alice
                "project:alpha" Hw eq_refl) as Hproject.
  pose proof (C4_leave_notification_by_room_name mixed_rooms 0 _ alice
                "room:alpha" Hw eq_refl) as Hroom.
  destruct Hproject as (Hsend & _ & _ & Hsilent & _); [set_solver|].
  destruct Hroom as (_ & _ & _ & _ & _ & Hgone); [set_solver|].
  split; [|split; [|split; [vm_compute; reflexivity|exact Hgone]]].
  - apply (Hsend "project:user-left" "s2" 1); try (vm_compute; reflexivity).
    vm_compute. discriminate.
  - apply Hsilent. intros r id2 Hr Hmem Hs. simpl in Hr.
    apply elem_of_union in Hr as [Hr|Hr]; apply elem_of_singleton in Hr;
      subst r; [|reflexivity].
    exfalso.
    assert (members mixed_rooms "project:alpha" = {[ "s1"; "s2" ]}) as Hm
      by (vm_compute; reflexivity).
    rewrite Hm in Hmem.
    apply elem_of_union in Hmem as [Hmem|Hmem];
      apply elem_of_singleton in Hmem; subst id2;
      vm_compute in Hs; discriminate Hs.
Defined.

(** ** Instances *)

Lemma C8_witness :
  no_empty_room joined_directly
  ∧ rooms (leaveRoom "s1" "room:alpha" joined_directly) !! "room:alpha" = None.
Proof.
  destruct (C8_no_empty_room no_options joined_directly
              joined_directly_reachable) as (Hne & _ & Hlast).
  split; [exact Hne|].
  apply (Hlast "s1" "room:alpha"). vm_compute. reflexivity.
Defined.

Lemma C9_witness :
  length (getSocketsInRoom
            (joinRoom "s1" "room:alpha"
               (joinRoom "s1" "room:alpha" (new_manager false)))
            "room:alpha") = 1
  ∧ leaveRoom "s1" "room:alpha" (new_manager false) = new_manager false.
Proof.
  destruct (C9_join_leave_idempotent "s1" "room:alpha" (new_manager false))
    as (_ & Hjoin & _ & Hleave & _).
  split; [apply Hjoin; reflexivity|apply Hleave; reflexivity].
Defined.

(** * Further properties *)

(** ** Registry: entries after a join or a leave *)

Lemma lookup_rooms_joinRoom c r m r' :
  rooms (joinRoom c r m) !! r' =
    if decide (r = r') then Some ({[c]} ∪ members m r) else rooms m !! r'.
Proof.
  rewrite rooms_joinRoom. destruct (decide (r = r')) as [->|Hne].
  - apply lookup_insert_eq.
  - by apply lookup_insert_ne.
Qed.

Lemma lookup_rooms_leaveRoom c r m r' :
  rooms (leaveRoom c r m) !! r' =
    if decide (r = r') then without_member c (rooms m !! r)
    else rooms m !! r'.
Proof.
  rewrite rooms_leaveRoom. unfold without_member.
  destruct (rooms m !! r) as [s|] eqn:E.
  - destruct (decide (s ∖ {[c]} = ∅)); destruct (decide (r = r')) as [->|Hne];
      by rewrite ?lookup_delete_eq, ?lookup_insert_eq, ?lookup_delete_ne,
           ?lookup_insert_ne.
  - destruct (decide (r = r')) as [<-|]; [done|done].
Qed.

Lemma members_entry m r :
  no_empty_room m →
  rooms m !! r = if decide (members m r = ∅) then None else Some (members m r).
Proof.
  intros Hne. unfold members. destruct (rooms m !! r) as [s|] eqn:E; simpl.
  - rewrite decide_False; [done|]. by apply (Hne r).
  - by rewrite decide_True.
Qed.

Lemma Manager_rooms_eq m m' :
  wss m = wss m' → sockets m = sockets m' →
  customHandlers m = customHandlers m' → pubClient m = pubClient m' →
  (∀ r, rooms m !! r = rooms m' !! r) → m = m'.
Proof. intros ???? Hr. apply Manager_eq; try done. by apply map_eq. Qed.

(** Reads the fields that [joinRoom] and [leaveRoom] leave alone. *)
Ltac registry_fields :=
  repeat first
    [ rewrite joinRoom_wss | rewrite joinRoom_sockets
    | rewrite joinRoom_customHandlers | rewrite joinRoom_pubClient
    | rewrite leaveRoom_wss | rewrite leaveRoom_sockets
    | rewrite leaveRoom_customHandlers | rewrite leaveRoom_pubClient ].

Lemma same_registry_eq m1 m2 : m1 = m2 → same_registry m1 m2.
Proof. intros ->. by repeat split. Qed.

(** [X1] On a registry without empty rooms, [leaveRoom] undoes a
    [joinRoom] of a connection that was not a member: the state is what
    it was, a room created by the join being deleted again.  A [joinRoom]
    after a [leaveRoom] of a connection that was a member restores the
    rooms and their members (a room deleted by the leave is created again
    with the same single member); the re-joined connection is entered
    last, so the order of the members is not restored. *)
Theorem X1_join_leave_inverse (c r : string) (m : Manager) :
  no_empty_room m →
  (c ∉ members m r → leaveRoom c r (joinRoom c r m) = m)
  ∧ (c ∈ members m r → same_registry (joinRoom c r (leaveRoom c r m)) m).
Proof.
  intros Hne. split; intros Hc.
  - apply Manager_rooms_eq; registry_fields; try done.
    intros r'. rewrite lookup_rooms_leaveRoom, !lookup_rooms_joinRoom.
    destruct (decide (r = r')) as [<-|Hr]; [|done].
    rewrite decide_True by done. unfold without_member.
    assert (({[c]} ∪ members m r) ∖ {[c]} = members m r) as -> by set_solver.
    by rewrite (members_entry m r Hne).
  - apply same_registry_eq.
    apply Manager_rooms_eq; registry_fields; try done.
    intros r'. rewrite lookup_rooms_joinRoom, members_leaveRoom.
    destruct (decide (r = r')) as [<-|Hr].
    + rewrite decide_True by done. rewrite (members_entry m r Hne).
      rewrite decide_False by set_solver. f_equal.
      apply set_eq. intros x. rewrite elem_of_union, elem_of_difference,
        elem_of_singleton. destruct (decide (x = c)) as [->|]; naive_solver.
    + by rewrite lookup_rooms_leaveRoom, decide_False.
Qed.

Lemma X1_witness :
  leaveRoom "s2" "room:alpha" (joinRoom "s2" "room:alpha" joined_directly)
    = joined_directly
  ∧ same_registry
      (joinRoom "s1" "room:alpha" (leaveRoom "s1" "room:alpha" joined_directly))
      joined_directly.
Proof.
  pose proof (public_reachable_no_empty_room no_options joined_directly
                joined_directly_reachable) as Hne.
  destruct (X1_join_leave_inverse "s2" "room:alpha" joined_directly Hne)
    as [Hleave _].
  destruct (X1_join_leave_inverse "s1" "room:alpha" joined_directly Hne)
    as [_ Hjoin].
  split; [apply Hleave|apply Hjoin].
  - assert (members joined_directly "room:alpha" = {[ "s1" ]}) as ->
      by (vm_compute; reflexivity).
    apply not_elem_of_singleton. discriminate.
  - vm_compute. reflexivity.
Defined.

Lemma without_member_comm c1 c2 entry :
  without_member c1 (without_member c2 entry)
  = without_member c2 (without_member c1 entry).
Proof.
  unfold without_member. destruct entry as [s|]; [|done].
  assert (s ∖ {[c2]} ∖ {[c1]} = s ∖ {[c1]} ∖ {[c2]}) as Hs by set_solver.
  destruct (decide (s ∖ {[c2]} = ∅)) as [E2|E2];
    destruct (decide (s ∖ {[c1]} = ∅)) as [E1|E1]; try done.
  - rewrite decide_True; [done|]. rewrite <- Hs, E2. set_solver.
  - rewrite decide_True; [done|]. rewrite Hs, E1. set_solver.
  - by rewrite Hs.
Qed.

Lemma without_member_other c1 c2 (s : gset string) :
  c1 ≠ c2 →
  without_member c2 (Some ({[c1]} ∪ s)) = Some ({[c1]} ∪ s ∖ {[c2]}).
Proof.
  intros Hc. unfold without_member.
  rewrite decide_False by set_solver. f_equal. set_solver.
Qed.

(** [X2] Registry calls commute as far as membership goes: after two
    joins in either order, after two leaves in either order, and after a
    join and a leave of different connections or of different rooms in
    either order, the same rooms exist, every room has the same members,
    and nothing else differs.  (The order in which [getSocketsInRoom]
    lists the members of a room follows the order of the joins.) *)
Theorem X2_registry_calls_commute (c1 r1 c2 r2 : string) (m : Manager) :
  same_registry (joinRoom c1 r1 (joinRoom c2 r2 m))
    (joinRoom c2 r2 (joinRoom c1 r1 m))
  ∧ same_registry (leaveRoom c1 r1 (leaveRoom c2 r2 m))
      (leaveRoom c2 r2 (leaveRoom c1 r1 m))
  ∧ (c1 ≠ c2 ∨ r1 ≠ r2 →
     same_registry (joinRoom c1 r1 (leaveRoom c2 r2 m))
       (leaveRoom c2 r2 (joinRoom c1 r1 m))).
Proof.
  split; [|split; [|intros Hdiff]]; apply same_registry_eq;
    (apply Manager_rooms_eq; registry_fields; try done); intros r.
  - rewrite !lookup_rooms_joinRoom, !members_joinRoom.
    destruct (decide (r1 = r)) as [<-|H1]; destruct (decide (r2 = r1)) as [->|H2];
      rewrite ?decide_True, ?decide_False by done; try done.
    + f_equal. set_solver.
    + destruct (decide (r2 = r)); [|done]. by rewrite decide_False.
  - rewrite !lookup_rooms_leaveRoom.
    destruct (decide (r1 = r)) as [<-|H1]; destruct (decide (r2 = r1)) as [->|H2];
      rewrite ?decide_True, ?decide_False by done; try done.
    + apply without_member_comm.
    + destruct (decide (r2 = r)); [|done]. by rewrite decide_False.
  - repeat first [ rewrite lookup_rooms_joinRoom | rewrite lookup_rooms_leaveRoom
                 | rewrite members_leaveRoom ].
    destruct (decide (r1 = r)) as [<-|H1]; destruct (decide (r2 = r1)) as [->|H2];
      rewrite ?decide_True, ?decide_False by done; try done.
    + destruct Hdiff as [Hc|Hr]; [|done].
      rewrite without_member_other by done. f_equal.
    + destruct (decide (r2 = r)); [|done]. by rewrite decide_False.
Qed.

(** [X3] [getSocketsInRoom] lists every member once.  After a join it
    lists, for every room, what it listed before plus the joined
    connection in the joined room; after a leave, what it listed before
    minus the leaving connection in the room left.  A room that does not
    exist has the empty list. *)
Theorem X3_membership_queries (m : Manager) (c r : string) :
  (∀ r', NoDup (getSocketsInRoom m r'))
  ∧ (∀ r', rooms m !! r' = None → getSocketsInRoom m r' = [])
  ∧ (∀ c' r', c' ∈ getSocketsInRoom (joinRoom c r m) r' ↔
        (c' = c ∧ r' = r) ∨ c' ∈ getSocketsInRoom m r')
  ∧ (∀ c' r', c' ∈ getSocketsInRoom (leaveRoom c r m) r' ↔
        c' ∈ getSocketsInRoom m r' ∧ ¬ (c' = c ∧ r' = r)).
Proof.
  split; [|split; [|split]].
  - intros r'. rewrite getSocketsInRoom_members. apply NoDup_elements.
  - intros r' E. unfold getSocketsInRoom. by rewrite E.
  - intros c' r'. rewrite !elem_of_getSocketsInRoom, members_joinRoom.
    destruct (decide (r = r')) as [->|Hne].
    + rewrite elem_of_union, elem_of_singleton. naive_solver.
    + naive_solver.
  - intros c' r'. rewrite !elem_of_getSocketsInRoom, members_leaveRoom.
    destruct (decide (r = r')) as [->|Hne].
    + rewrite elem_of_difference, elem_of_singleton. naive_solver.
    + naive_solver.
Qed.

(** ** Inbound messages: what a subscription changes *)

Lemma collection_room_prefix coll :
  String.prefix "collection:" (collection_room coll) = true.
Proof. vm_compute. by destruct coll. Qed.

Lemma handleJoinCollection_lookups m ws userData data :
  wss m !! ws = Some userData →
  let m' := handleJoinCollection m ws data in
  sockets m' = sockets m ∧ customHandlers m' = customHandlers m
  ∧ pubClient m' = pubClient m
  ∧ (∀ r, rooms m' !! r =
       if decide (r ∈ rooms_named data)
       then Some ({[ud_id userData]} ∪ members m r) else rooms m !! r)
  ∧ (∀ w, wss m' !! w =
       if decide (w = ws)
       then Some {| ud_user := ud_user userData; ud_id := ud_id userData;
                    ud_rooms := list_to_set (rooms_named data)
                                ∪ ud_rooms userData |}
       else wss m !! w).
Proof.
  intros Hw. unfold handleJoinCollection, rooms_named. rewrite Hw. simpl.
  revert m userData Hw.
  induction (collections_of data) as [|coll l IH]; intros m ud Hw; simpl.
  - do 3 (split; [done|]). split.
    + intros r.
      first [done | rewrite decide_False; [done|apply not_elem_of_nil]].
    + intros w. case_decide; [|done]. subst w. rewrite Hw. f_equal.
      destruct ud; simpl. f_equal. set_solver.
  - set (m1 := set_wss (alter (rooms_add ("collection:" +:+ coll)) ws)
                 (joinRoom (ud_id ud) ("collection:" +:+ coll) m)).
    assert (wss m1 !! ws = Some (rooms_add ("collection:" +:+ coll) ud)) as Hw1.
    { subst m1. simpl. by rewrite joinRoom_wss, lookup_alter_eq, Hw. }
    destruct (IH m1 _ Hw1) as (Hs & Hc & Hp & Hr & Hu). simpl in *.
    rewrite Hs, Hc, Hp. subst m1. simpl. registry_fields.
    do 3 (split; [done|]). split.
    + intros r. rewrite Hr. change (collection_room coll) with
        ("collection:" +:+ coll).
      change (members (set_wss ?f ?x) r) with (members x r).
      simpl. rewrite lookup_rooms_joinRoom, members_joinRoom.
      destruct (decide (("collection:" +:+ coll) = r)) as [<-|Hne].
      * rewrite (decide_True (P := _ ∈ _ :: _)) by apply list_elem_of_here.
        case_decide; f_equal; set_solver.
      * destruct (decide (r ∈ collection_room <$> l)) as [Hin|Hin].
        -- rewrite decide_True; [done|by apply list_elem_of_further].
        -- rewrite decide_False; [done|]. rewrite elem_of_cons.
           unfold collection_room at 1. naive_solver.
    + intros w. rewrite Hu. case_decide; [|].
      * f_equal. f_equal. set_solver.
      * rewrite joinRoom_wss. by rewrite lookup_alter_ne.
Qed.

Lemma without_member_idemp c entry :
  without_member c (without_member c entry) = without_member c entry.
Proof.
  unfold without_member. destruct entry as [s|]; [|done].
  destruct (decide (s ∖ {[c]} = ∅)) as [E|E]; [done|].
  assert (s ∖ {[c]} ∖ {[c]} = s ∖ {[c]}) as -> by set_solver.
  by rewrite decide_False.
Qed.

Lemma elem_of_without_member c c' entry :
  c' ∈ default ∅ (without_member c entry) ↔ c' ∈ default ∅ entry ∧ c' ≠ c.
Proof.
  unfold without_member. destruct entry as [s|]; simpl.
  - destruct (decide (s ∖ {[c]} = ∅)) as [E|E]; simpl; set_solver.
  - set_solver.
Qed.

Lemma handleUnsubscribe_lookups m ws userData data :
  wss m !! ws = Some userData →
  let m' := handleUnsubscribe m ws data in
  sockets m' = sockets m ∧ customHandlers m' = customHandlers m
  ∧ pubClient m' = pubClient m
  ∧ (∀ r, rooms m' !! r =
       if decide (r ∈ rooms_named data)
       then without_member (ud_id userData) (rooms m !! r) else rooms m !! r)
  ∧ (∀ w, wss m' !! w =
       if decide (w = ws)
       then Some {| ud_user := ud_user userData; ud_id := ud_id userData;
                    ud_rooms := ud_rooms userData
                                ∖ list_to_set (rooms_named data) |}
       else wss m !! w).
Proof.
  intros Hw. unfold handleUnsubscribe, rooms_named. rewrite Hw. simpl.
  revert m userData Hw.
  induction (collections_of data) as [|coll l IH]; intros m ud Hw; simpl.
  - do 3 (split; [done|]). split.
    + intros r.
      first [done | rewrite decide_False; [done|apply not_elem_of_nil]].
    + intros w. case_decide; [|done]. subst w. rewrite Hw. f_equal.
      destruct ud; simpl. f_equal. set_solver.
  - set (m1 := set_wss (alter (rooms_delete ("collection:" +:+ coll)) ws)
                 (leaveRoom (ud_id ud) ("collection:" +:+ coll) m)).
    assert (wss m1 !! ws = Some (rooms_delete ("collection:" +:+ coll) ud))
      as Hw1.
    { subst m1. simpl. by rewrite leaveRoom_wss, lookup_alter_eq, Hw. }
    destruct (IH m1 _ Hw1) as (Hs & Hc & Hp & Hr & Hu). simpl in *.
    rewrite Hs, Hc, Hp. subst m1. simpl. registry_fields.
    do 3 (split; [done|]). split.
    + intros r. rewrite Hr. change (collection_room coll) with
        ("collection:" +:+ coll).
      simpl. rewrite lookup_rooms_leaveRoom.
      destruct (decide (("collection:" +:+ coll) = r)) as [<-|Hne].
      * rewrite (decide_True (P := _ ∈ _ :: _)) by apply list_elem_of_here.
        case_decide; [apply without_member_idemp|done].
      * destruct (decide (r ∈ collection_room <$> l)) as [Hin|Hin].
        -- rewrite decide_True; [done|by apply list_elem_of_further].
        -- rewrite decide_False; [done|]. rewrite elem_of_cons.
           unfold collection_room at 1. naive_solver.
    + intros w. rewrite Hu. case_decide; [|].
      * f_equal. f_equal. set_solver.
      * rewrite leaveRoom_wss. by rewrite lookup_alter_ne.
Qed.

Lemma rooms_named_prefix data r :
  r ∈ rooms_named data → String.prefix "collection:" r = true.
Proof.
  unfold rooms_named. intros [coll [-> _]]%list_elem_of_fmap.
  apply collection_room_prefix.
Qed.

Lemma register_all_fields regs m :
  wss (register_all regs m) = wss m
  ∧ sockets (register_all regs m) = sockets m
  ∧ rooms (register_all regs m) = rooms m
  ∧ pubClient (register_all regs m) = pubClient m.
Proof. exact (on_fold_fields regs m). Qed.

(** [C7] Whatever handlers have been registered, a message labelled
    ["subscribe"] or ["join-collection"] runs the built-in join and one
    labelled ["unsubscribe"] the built-in leave, and neither calls a
    handler, nor touches the handler table.  On the room registry the
    join enters the sending connection in every room the payload names
    (creating the room where there is none) and in no other room, and
    adds the rooms to the connection's own room set; the leave removes it
    from every room the payload names (dropping a room left empty),
    changes no other room, and removes the rooms from the connection's
    own room set.  A message with any other label calls exactly the
    handler most recently registered under that label (or, when the
    sequence registers none, the one the table already held), and no
    other. *)
Theorem C7_reserved_labels_and_last_registration
    (regs : list (string * handler)) (m : Manager) (ws : wsref)
    (label : string) (data : Data) :
  let m' := register_all regs m in
  let msg := {| msg_type := label; msg_data := data |} in
  (label = "subscribe" ∨ label = "join-collection" →
     handleMessage m' ws msg = (handleJoinCollection m' ws data, []))
  ∧ (label = "unsubscribe" →
     handleMessage m' ws msg = (handleUnsubscribe m' ws data, []))
  ∧ (reserved label = true →
     (∀ h w d, CallHandler h w d ∉ (handleMessage m' ws msg).2)
     ∧ customHandlers (handleMessage m' ws msg).1 = customHandlers m')
  ∧ (∀ userData,
       wss m !! ws = Some userData →
       label = "subscribe" ∨ label = "join-collection" →
       (∀ r, rooms (handleMessage m' ws msg).1 !! r =
               if decide (r ∈ rooms_named data)
               then Some ({[ud_id userData]} ∪ members m r)
               else rooms m !! r)
       ∧ (∀ r, r ∈ rooms_named data →
            ud_id userData ∈ getSocketsInRoom (handleMessage m' ws msg).1 r)
       ∧ wss (handleMessage m' ws msg).1 !! ws =
           Some {| ud_user := ud_user userData; ud_id := ud_id userData;
                   ud_rooms := list_to_set (rooms_named data)
                               ∪ ud_rooms userData |})
  ∧ (∀ userData,
       wss m !! ws = Some userData →
       label = "unsubscribe" →
       (∀ r, rooms (handleMessage m' ws msg).1 !! r =
               if decide (r ∈ rooms_named data)
               then without_member (ud_id userData) (rooms m !! r)
               else rooms m !! r)
       ∧ (∀ r, r ∈ rooms_named data →
            ud_id userData ∉ getSocketsInRoom (handleMessage m' ws msg).1 r)
       ∧ wss (handleMessage m' ws msg).1 !! ws =
           Some {| ud_user := ud_user userData; ud_id := ud_id userData;
                   ud_rooms := ud_rooms userData
                               ∖ list_to_set (rooms_named data) |})
  ∧ (reserved label = false →
     (handleMessage m' ws msg).2 =
       match last_registered label regs with
       | Some h => [CallHandler h ws data]
       | None =>
           match customHandlers m !! label with
           | Some h => [CallHandler h ws data]
           | None => []
           end
       end).
Proof.
  intros m' msg.
  destruct (register_all_fields regs m) as (Hrw & _ & Hrr & _).
  fold m' in Hrw, Hrr.
  assert (∀ r, members m' r = members m r) as Hrm
    by (intros r; unfold members; by rewrite Hrr).
  assert (label = "subscribe" ∨ label = "join-collection" →
          handleMessage m' ws msg = (handleJoinCollection m' ws data, []))
    as Hjoin.
  { unfold handleMessage. simpl. intros [->| ->]; done. }
  assert (label = "unsubscribe" →
          handleMessage m' ws msg = (handleUnsubscribe m' ws data, []))
    as Hleave.
  { unfold handleMessage. simpl. by intros ->. }
  split; [done|]. split; [done|]. split; [|split; [|split]].
  - unfold reserved. intros Hres.
    destruct (decide (label = "subscribe" ∨ label = "join-collection"))
      as [Hl|Hl].
    + rewrite (Hjoin Hl). simpl. split; [intros; apply not_elem_of_nil|].
      unfold handleJoinCollection.
      destruct (wss m' !! ws) as [ud|] eqn:Hw; [|done].
      by destruct (handleJoinCollection_lookups m' ws ud data Hw)
        as (_ & Hc & _); unfold handleJoinCollection in Hc; rewrite Hw in Hc.
    + assert (label = "unsubscribe") as Hu.
      { apply orb_true_iff in Hres as [Hres|Hres].
        - apply orb_true_iff in Hres as [Hres|Hres];
            apply bool_decide_eq_true_1 in Hres; naive_solver.
        - by apply bool_decide_eq_true_1 in Hres. }
      rewrite (Hleave Hu). simpl. split; [intros; apply not_elem_of_nil|].
      unfold handleUnsubscribe.
      destruct (wss m' !! ws) as [ud|] eqn:Hw; [|done].
      by destruct (handleUnsubscribe_lookups m' ws ud data Hw)
        as (_ & Hc & _); unfold handleUnsubscribe in Hc; rewrite Hw in Hc.
  - intros ud Hw Hl. rewrite (Hjoin Hl). simpl.
    rewrite <- Hrw in Hw.
    destruct (handleJoinCollection_lookups m' ws ud data Hw)
      as (_ & _ & _ & Hr & Hu).
    assert (∀ r, rooms (handleJoinCollection m' ws data) !! r =
                   if decide (r ∈ rooms_named data)
                   then Some ({[ud_id ud]} ∪ members m r)
                   else rooms m !! r) as Hr'.
    { intros r. rewrite Hr, Hrm, Hrr. done. }
    split; [done|]. split.
    + intros r Hin. rewrite elem_of_getSocketsInRoom. unfold members at 1.
      rewrite Hr', decide_True by done. simpl. set_solver.
    + by rewrite Hu, decide_True.
  - intros ud Hw Hl. rewrite (Hleave Hl). simpl.
    rewrite <- Hrw in Hw.
    destruct (handleUnsubscribe_lookups m' ws ud data Hw)
      as (_ & _ & _ & Hr & Hu).
    assert (∀ r, rooms (handleUnsubscribe m' ws data) !! r =
                   if decide (r ∈ rooms_named data)
                   then without_member (ud_id ud) (rooms m !! r)
                   else rooms m !! r) as Hr'.
    { intros r. rewrite Hr, Hrr. done. }
    split; [done|]. split.
    + intros r Hin. rewrite elem_of_getSocketsInRoom. unfold members at 1.
      rewrite Hr', decide_True by done. rewrite elem_of_without_member.
      naive_solver.
    + by rewrite Hu, decide_True.
  - unfold reserved, handleMessage. simpl. intros Hres.
    apply orb_false_iff in Hres as [Hres ->].
    rewrite Hres. subst m'. rewrite register_all_customHandlers.
    destruct (last_registered label regs); [done|].
    by destruct (customHandlers m !! label).
Qed.

Lemma C7_witness :
  rooms (handleMessage
           (register_all [("subscribe", 5); ("ping", 1); ("ping", 2)]
              one_subscriber) 0
           {| msg_type := "subscribe"; msg_data := DScalar "pages" |}).1
    !! "collection:pages" = Some {[ "s1" ]}
  ∧ (handleMessage
       (register_all [("subscribe", 5); ("ping", 1); ("ping", 2)]
          one_subscriber) 0
       {| msg_type := "subscribe"; msg_data := DScalar "pages" |}).2 = []
  ∧ rooms (handleMessage
             (register_all [("unsubscribe", 5)] one_subscriber) 0
             {| msg_type := "unsubscribe"; msg_data := DScalar "posts" |}).1
      !! "collection:posts" = None
  ∧ (handleMessage
       (register_all [("subscribe", 5); ("ping", 1); ("ping", 2)]
          one_subscriber) 0
       {| msg_type := "ping"; msg_data := DScalar "x" |}).2
    = [CallHandler 2 0 (DScalar "x")].
Proof.
  assert (wss one_subscriber !! 0
          = Some {| ud_user := Some alice; ud_id := "s1";
                    ud_rooms := {[ "collection:posts" ]} |}) as Hw
    by (vm_compute; reflexivity).
  pose proof (C7_reserved_labels_and_last_registration
                [("subscribe", 5); ("ping", 1); ("ping", 2)] one_subscriber 0
                "subscribe" (DScalar "pages")) as (Hrun & _ & _ & Hjoin & _).
  pose proof (C7_reserved_labels_and_last_registration
                [("unsubscribe", 5)] one_subscriber 0
                "unsubscribe" (DScalar "posts")) as (_ & _ & _ & _ & Hleave & _).
  pose proof (C7_reserved_labels_and_last_registration
                [("subscribe", 5); ("ping", 1); ("ping", 2)] one_subscriber 0
                "ping" (DScalar "x")) as (_ & _ & _ & _ & _ & Hping).
  destruct (Hjoin _ Hw (or_introl eq_refl)) as (Hjr & _).
  destruct (Hleave _ Hw eq_refl) as (Hlr & _).
  split; [|split; [|split]].
  - rewrite Hjr. vm_compute. reflexivity.
  - by rewrite (Hrun (or_introl eq_refl)).
  - rewrite Hlr. vm_compute. reflexivity.
  - exact (Hping eq_refl).
Defined.

(** [X4] After a ["subscribe"] message the sending connection is a
    member of every room its payload names and lists each of them in its
    own room set; after an ["unsubscribe"] message it is a member of none
    of them and lists none of them. *)
Theorem X4_subscription_effect (m : Manager) (ws : wsref)
    (userData : WebSocketUserData) (data : Data) (r : string) :
  wss m !! ws = Some userData →
  r ∈ rooms_named data →
  (ud_id userData ∈ getSocketsInRoom (handleMessage m ws (subscribe_message data)).1 r
   ∧ ∃ ud', wss (handleMessage m ws (subscribe_message data)).1 !! ws = Some ud'
            ∧ r ∈ ud_rooms ud')
  ∧ ((ud_id userData
        ∉ getSocketsInRoom (handleMessage m ws (unsubscribe_message data)).1 r)
     ∧ ∃ ud', wss (handleMessage m ws (unsubscribe_message data)).1 !! ws
                = Some ud'
              ∧ r ∉ ud_rooms ud').
Proof.
  intros Hw Hr. unfold handleMessage. simpl.
  destruct (handleJoinCollection_lookups m ws userData data Hw)
    as (_ & _ & _ & Hjr & Hjw).
  destruct (handleUnsubscribe_lookups m ws userData data Hw)
    as (_ & _ & _ & Hlr & Hlw).
  split; split.
  - rewrite elem_of_getSocketsInRoom. unfold members at 1.
    rewrite Hjr, decide_True by done. simpl. set_solver.
  - eexists. rewrite Hjw, decide_True by done. split; [done|]. simpl.
    rewrite elem_of_union, elem_of_list_to_set. by left.
  - rewrite elem_of_getSocketsInRoom. unfold members at 1.
    rewrite Hlr, decide_True by done. rewrite elem_of_without_member.
    naive_solver.
  - eexists. rewrite Hlw, decide_True by done. split; [done|]. simpl.
    rewrite elem_of_difference, elem_of_list_to_set. naive_solver.
Qed.

Lemma X4_witness :
  "s1" ∈ getSocketsInRoom
           (handleMessage one_subscriber 0
              (subscribe_message (DArray ["posts"; "pages"]))).1
           "collection:pages"
  ∧ "s1" ∉ getSocketsInRoom
             (handleMessage one_subscriber 0
                (unsubscribe_message (DArray ["posts"; "pages"]))).1
             "collection:posts".
Proof.
  assert ("collection:pages" ∈ rooms_named (DArray ["posts"; "pages"])) as H1.
  { apply list_elem_of_further, list_elem_of_here. }
  assert ("collection:posts" ∈ rooms_named (DArray ["posts"; "pages"])) as H2.
  { apply list_elem_of_here. }
  split.
  - exact (proj1 (proj1 (X4_subscription_effect one_subscriber 0 _
                          (DArray ["posts"; "pages"]) "collection:pages"
                          eq_refl H1))).
  - exact (proj1 (proj2 (X4_subscription_effect one_subscriber 0 _
                          (DArray ["posts"; "pages"]) "collection:posts"
                          eq_refl H2))).
Defined.

(** [X5] Handling a message that no custom handler is run for (its label
    is one of the three built-in ones, or no handler is registered under
    it) leaves the connection table, the handler table and every other
    socket's user data as they were, keeps the sender's id and identity,
    never changes whether another connection is a member of a room, and
    never changes a room whose name does not start with ["collection:"].
    (What a custom handler does with the manager is its own code.) *)
Theorem X5_message_confined (m : Manager) (ws : wsref)
    (userData : WebSocketUserData) (msg : WebSocketMessage) :
  wss m !! ws = Some userData →
  reserved (msg_type msg) = true ∨ customHandlers m !! msg_type msg = None →
  let m' := (handleMessage m ws msg).1 in
  sockets m' = sockets m
  ∧ customHandlers m' = customHandlers m
  ∧ (∀ w, w ≠ ws → wss m' !! w = wss m !! w)
  ∧ (∃ ud', wss m' !! ws = Some ud' ∧ ud_id ud' = ud_id userData
            ∧ ud_user ud' = ud_user userData)
  ∧ (∀ c r, c ≠ ud_id userData → c ∈ members m' r ↔ c ∈ members m r)
  ∧ (∀ r, String.prefix "collection:" r = false →
       rooms m' !! r = rooms m !! r).
Proof.
  intros Hw _. unfold handleMessage.
  destruct (_ || _); [|destruct (bool_decide _)]; simpl.
  - destruct (handleJoinCollection_lookups m ws userData (msg_data msg) Hw)
      as (Hs & Hc & _ & Hr & Hu).
    split; [done|]. split; [done|]. split; [|split; [|split]].
    + intros w Hne. by rewrite Hu, decide_False.
    + eexists. by rewrite Hu, decide_True.
    + intros c r Hne. unfold members at 1. rewrite Hr.
      case_decide; [|done]. simpl. set_solver.
    + intros r Hp. rewrite Hr. case_decide as Hin; [|done].
      apply rooms_named_prefix in Hin. congruence.
  - destruct (handleUnsubscribe_lookups m ws userData (msg_data msg) Hw)
      as (Hs & Hc & _ & Hr & Hu).
    split; [done|]. split; [done|]. split; [|split; [|split]].
    + intros w Hne. by rewrite Hu, decide_False.
    + eexists. by rewrite Hu, decide_True.
    + intros c r Hne. unfold members at 1. rewrite Hr.
      case_decide; [|done]. rewrite elem_of_without_member. naive_solver.
    + intros r Hp. rewrite Hr. case_decide as Hin; [|done].
      apply rooms_named_prefix in Hin. congruence.
  - destruct (customHandlers m !! msg_type msg); simpl;
      (do 2 (split; [done|]); split; [done|]; split; [by eexists|]; done).
Qed.

Lemma X5_witness :
  sockets (handleMessage (two_in_room "project:alpha") 0
             (subscribe_message (DScalar "posts"))).1
  = sockets (two_in_room "project:alpha")
  ∧ rooms (handleMessage (two_in_room "project:alpha") 0
             (unsubscribe_message (DScalar "posts"))).1 !! "project:alpha"
    = rooms (two_in_room "project:alpha") !! "project:alpha"
  ∧ customHandlers (handleMessage (two_in_room "project:alpha") 0
                      (message_of "ping" (DScalar "x"))).1
    = customHandlers (two_in_room "project:alpha").
Proof.
  split; [|split].
  - exact (proj1 (X5_message_confined (two_in_room "project:alpha") 0 _
                    (subscribe_message (DScalar "posts")) eq_refl
                    (or_introl eq_refl))).
  - exact (proj2 (proj2 (proj2 (proj2 (proj2
             (X5_message_confined (two_in_room "project:alpha") 0 _
                (unsubscribe_message (DScalar "posts")) eq_refl
                (or_introl eq_refl))))))
             "project:alpha" eq_refl).
  - exact (proj1 (proj2
             (X5_message_confined (two_in_room "project:alpha") 0 _
                (message_of "ping" (DScalar "x")) eq_refl
                (or_intror eq_refl)))).
Defined.

(** [X6] For a connection that is in none of the rooms its payload names,
    on a registry without empty rooms, an ["unsubscribe"] message after a
    ["subscribe"] message with the same payload restores the manager:
    rooms created by the subscription are deleted again and the
    connection's own room set is what it was. *)
Theorem X6_unsubscribe_undoes_subscribe (m : Manager) (ws : wsref)
    (userData : WebSocketUserData) (data : Data) :
  wss m !! ws = Some userData →
  no_empty_room m →
  (∀ r, r ∈ rooms_named data →
     (r ∉ ud_rooms userData) ∧ (ud_id userData ∉ members m r)) →
  (handleMessage (handleMessage m ws (subscribe_message data)).1 ws
     (unsubscribe_message data)).1 = m.
Proof.
  intros Hw Hne Hnew. unfold handleMessage. simpl.
  destruct (handleJoinCollection_lookups m ws userData data Hw)
    as (Hs & Hc & Hp & Hr & Hu).
  set (mj := handleJoinCollection m ws data) in *.
  assert (wss mj !! ws =
            Some {| ud_user := ud_user userData; ud_id := ud_id userData;
                    ud_rooms := list_to_set (rooms_named data)
                                ∪ ud_rooms userData |}) as Hwj
    by (by rewrite Hu, decide_True).
  destruct (handleUnsubscribe_lookups mj ws _ data Hwj)
    as (Hs' & Hc' & Hp' & Hr' & Hu'). simpl in *.
  apply Manager_eq; try congruence.
  - apply map_eq. intros w. rewrite Hu'. case_decide as Hww.
    + subst w. rewrite Hw. f_equal. destruct userData as [u i rs]. simpl in *.
      f_equal. apply set_eq. intros r.
      rewrite elem_of_difference, elem_of_union, elem_of_list_to_set.
      specialize (Hnew r). naive_solver.
    + by rewrite Hu, decide_False.
  - apply map_eq. intros r. rewrite Hr'. case_decide as Hin.
    + rewrite Hr, decide_True by done. unfold without_member.
      destruct (Hnew r Hin) as [_ Hnot].
      assert (({[ud_id userData]} ∪ members m r) ∖ {[ud_id userData]}
              = members m r) as -> by set_solver.
      by rewrite (members_entry m r Hne).
    + by rewrite Hr, decide_False.
Qed.

Lemma X6_witness :
  (handleMessage
     (handleMessage one_subscriber 0 (subscribe_message (DScalar "pages"))).1
     0 (unsubscribe_message (DScalar "pages"))).1 = one_subscriber.
Proof.
  apply (X6_unsubscribe_undoes_subscribe one_subscriber 0
           {| ud_user := Some alice; ud_id := "s1";
              ud_rooms := {[ "collection:posts" ]} |} (DScalar "pages")).
  - vm_compute. reflexivity.
  - apply (public_reachable_no_empty_room no_options).
    destruct one_subscriber_reachable as [redis Hr]. exists redis.
    eapply rtc_subrel; [|exact Hr]. intros x y Hxy. by left.
  - intros r [->|Hin%elem_of_nil]%elem_of_cons; [|done]. split.
    + simpl. intros H%elem_of_singleton. vm_compute in H. discriminate H.
    + assert (members one_subscriber (collection_room "pages") = ∅) as ->
        by (vm_compute; reflexivity).
      apply not_elem_of_empty.
Defined.

(** ** Closing, once more *)

(** [X7] In a state reached through transport events, closing an open
    connection removes its id from the connection table and from every
    room, and touches nothing else: the other table entries, the other
    connections' memberships and the handler table are what they were
    (handlers registered when the connection was opened stay
    registered). *)
Theorem X7_close_removes_the_connection_only (o : UWebSocketPluginOptions)
    (m : Manager) (ws : wsref) (userData : WebSocketUserData) :
  reachable o m →
  wss m !! ws = Some userData →
  sockets m !! ud_id userData = Some ws →
  let m' := (close m ws).1 in
  sockets m' !! ud_id userData = None
  ∧ (∀ r, ud_id userData ∉ getSocketsInRoom m' r)
  ∧ (∀ c, c ≠ ud_id userData → sockets m' !! c = sockets m !! c)
  ∧ (∀ c r, c ≠ ud_id userData →
       c ∈ getSocketsInRoom m' r ↔ c ∈ getSocketsInRoom m r)
  ∧ customHandlers m' = customHandlers m.
Proof.
  intros Hreach Hw Hs m'.
  destruct (reachable_invariant o m Hreach) as (_ & Hsym & _).
  destruct (close_fields m ws userData Hw) as (_ & Hk & Hc & _ & Hm).
  fold m' in Hk, Hc, Hm.
  assert (∀ r, members m' r = members m r ∖ {[ud_id userData]}) as Hm'.
  { intros r. rewrite Hm. case_decide as Hin; [done|].
    specialize (Hsym _ _ _ r Hs Hw). set_solver. }
  split; [by rewrite Hk, lookup_delete_eq|]. split; [|split; [|split]].
  - intros r. rewrite elem_of_getSocketsInRoom, Hm'. set_solver.
  - intros c Hne. by rewrite Hk, lookup_delete_ne.
  - intros c r Hne. rewrite !elem_of_getSocketsInRoom, Hm'. set_solver.
  - done.
Qed.

Lemma X7_witness :
  sockets (close one_subscriber 0).1 !! "s1" = None
  ∧ ∀ r, "s1" ∉ getSocketsInRoom (close one_subscriber 0).1 r.
Proof.
  destruct (X7_close_removes_the_connection_only no_options one_subscriber 0
              {| ud_user := Some alice; ud_id := "s1";
                 ud_rooms := {[ "collection:posts" ]} |}
              one_subscriber_reachable) as (H1 & H2 & _).
  - vm_compute. reflexivity.
  - reflexivity.
  - split; [exact H1|exact H2].
Defined.

(** [X8] A connection that is a member of a collection room which its own
    room set does not list (it was entered by a direct [joinRoom]) stays
    a member of that room when it closes, while leaving the connection
    table.  From then on every [emitEvent] for that collection that
    reaches a registered authorization handler ends in a [TypeError]. *)
Theorem X8_unlisted_room_survives_close (o : UWebSocketPluginOptions)
    (m : Manager) (ws : wsref) (userData : WebSocketUserData)
    (event : RealtimeEventPayload)
    (handlers : gmap string (User → RealtimeEventPayload → bool))
    (h : User → RealtimeEventPayload → bool) :
  wss m !! ws = Some userData →
  ud_id userData ∈ members m (collection_room (ev_collection event)) →
  collection_room (ev_collection event) ∉ ud_rooms userData →
  passes_filter o event = true →
  authorize o = Some handlers →
  handlers !! ev_collection event = Some h →
  ud_id userData
    ∈ getSocketsInRoom (close m ws).1 (collection_room (ev_collection event))
  ∧ sockets (close m ws).1 !! ud_id userData = None
  ∧ (emitEvent o (close m ws).1 event).2 = Thrown "TypeError".
Proof.
  intros Hw Hin Hnot Hf Ha Hh.
  destruct (close_fields m ws userData Hw) as (_ & Hk & _ & _ & Hm).
  assert (ud_id userData
            ∈ members (close m ws).1 (collection_room (ev_collection event)))
    as Hin'
    by (by rewrite Hm, decide_False).
  assert (sockets (close m ws).1 !! ud_id userData = None) as Hnone
    by (by rewrite Hk, lookup_delete_eq).
  split; [by apply elem_of_getSocketsInRoom|]. split; [done|].
  rewrite emitEvent_passed by done. simpl. rewrite Ha, Hh.
  pose proof (emit_authorized_thrown (close m ws).1 h (final_event o event)
                (getSocketsInRoom (close m ws).1
                   (collection_room (ev_collection event)))
                (ud_id userData)) as Ht.
  destruct (emit_authorized _ _ _ _) as [effs c]. simpl in Ht.
  rewrite Ht; [done| |done]. by apply elem_of_getSocketsInRoom.
Qed.

Lemma X8_witness :
  "s1" ∈ getSocketsInRoom (close joined_posts_directly 0).1 "collection:posts"
  ∧ sockets (close joined_posts_directly 0).1 !! "s1" = None
  ∧ (emitEvent posts_for_all (close joined_posts_directly 0).1 post7).2
    = Thrown "TypeError".
Proof.
  apply (X8_unlisted_room_survives_close posts_for_all joined_posts_directly 0
           {| ud_user := Some alice; ud_id := "s1"; ud_rooms := ∅ |}
           post7 {[ "posts" := λ _ _, true ]} (λ _ _, true));
    [reflexivity|vm_compute; reflexivity|apply not_elem_of_empty
    |reflexivity..].
Defined.

(** ** The handler table is shared *)

Lemma handleMessage_custom m ws label data :
  reserved label = false →
  handleMessage m ws (message_of label data) =
    (m, match customHandlers m !! label with
        | Some h => [CallHandler h ws data]
        | None => []
        end).
Proof.
  unfold reserved. intros [Hr Hu]%orb_false_iff.
  unfold handleMessage, message_of. cbn [msg_type msg_data].
  rewrite Hr, Hu. by destruct (customHandlers m !! label).
Qed.

(** [X9] The handlers that [onSocketConnection] registers when one socket
    opens serve every socket: a message with that label from any socket
    calls the registered handler, and still does after the socket that
    was being opened has closed. *)
Theorem X9_handlers_outlive_their_connection (o : UWebSocketPluginOptions)
    (m : Manager) (ws : wsref) (userData : WebSocketUserData)
    (key protocol extensions : string)
    (callback : wsref → list (string * handler)) (label : string)
    (h : handler) :
  onSocketConnection o = Some callback →
  last_registered label (callback ws) = Some h →
  reserved label = false →
  let opened := accept o ws m (WsUpgrade userData key protocol extensions) in
  ∀ ws' data,
    (handleMessage opened ws' (message_of label data)).2
      = [CallHandler h ws' data]
    ∧ (handleMessage (close opened ws).1 ws' (message_of label data)).2
      = [CallHandler h ws' data].
Proof.
  intros Hcb Hlast Hres opened ws' data.
  assert (customHandlers opened !! label = Some h) as Hh.
  { subst opened. simpl. unfold open. simpl. rewrite lookup_insert_eq, Hcb.
    fold (register_all (callback ws)
            (set_sockets (insert (ud_id userData) ws)
               (set_wss (insert ws userData) m))).
    by rewrite register_all_customHandlers, Hlast. }
  assert (wss opened !! ws = Some userData) as Hw.
  { destruct (accept_upgrade_fields o ws m userData key protocol extensions)
      as (Hw & _). fold opened in Hw. by rewrite Hw, lookup_insert_eq. }
  destruct (close_fields opened ws userData Hw) as (_ & _ & Hc & _).
  rewrite !handleMessage_custom by done. simpl. by rewrite Hc, Hh.
Qed.

Lemma X9_witness :
  (handleMessage
     (close (accept with_ping 0 (new_manager false) (fresh_socket alice "s1"))
        0).1
     1 (message_of "ping" (DScalar "x"))).2
  = [CallHandler 7 1 (DScalar "x")].
Proof.
  exact (proj2 (X9_handlers_outlive_their_connection with_ping
                  (new_manager false) 0 _ "" "" "" (λ _, [("ping", 7)])
                  "ping" 7 eq_refl eq_refl eq_refl 1 (DScalar "x"))).
Defined.

(** ** Handshake outcomes *)

Lemma extractTokenFromQuery_Some query token :
  extractTokenFromQuery query = Some token → ("token", token) ∈ query.
Proof.
  induction query as [|[k v] rest IH]; simpl; [done|].
  case_bool_decide as Hk.
  - intros [= ->]. subst k. apply list_elem_of_here.
  - intros H. by apply list_elem_of_further, IH.
Qed.

Lemma extractTokenFromQuery_None query :
  extractTokenFromQuery query = None ↔ ∀ v, ("token", v) ∉ query.
Proof.
  induction query as [|[k v] rest IH]; simpl.
  - split; [intros _ v; apply not_elem_of_nil|done].
  - case_bool_decide as Hk.
    + subst k. split; [done|]. intros H. destruct (H v). apply list_elem_of_here.
    + rewrite IH. split.
      * intros H v' [Heq|Hin]%elem_of_cons; [congruence|by eapply H].
      * intros H v' Hin. apply (H v'). by apply list_elem_of_further.
Qed.

Lemma upgrade_Finished jwt_verify req writes :
  upgrade jwt_verify req = Finished writes →
  ∃ body, writes = [WriteEnd "401 Unauthorized" body].
Proof.
  unfold upgrade.
  destruct (extractTokenFromQuery (req_query req)) as [token|];
    [|intros [= <-]; by eexists].
  case_bool_decide; [intros [= <-]; by eexists|].
  destruct (jwt_verify token); [done|]. intros [= <-]. by eexists.
Qed.

Lemma upgrade_Awaiting jwt_verify req p :
  upgrade jwt_verify req = Awaiting p →
  pu_aborted p = false
  ∧ pu_key p = req_key req ∧ pu_protocol p = req_protocol req
  ∧ pu_extensions p = req_extensions req
  ∧ ∃ token, ("token", token) ∈ req_query req ∧ token ≠ ""
             ∧ jwt_verify token = Some (pu_decoded p).
Proof.
  unfold upgrade.
  destruct (extractTokenFromQuery (req_query req)) as [token|] eqn:E; [|done].
  case_bool_decide as Ht; [done|].
  destruct (jwt_verify token) as [decoded|] eqn:Ev; [|done].
  intros [= <-]. simpl. do 4 (split; [done|]).
  exists token. split; [by apply extractTokenFromQuery_Some|done].
Qed.

(** [X10] The synchronous part of [upgrade] ends in exactly one of three
    ways.  It rejects with ["Authentication token required"] exactly when
    the query has no [token] parameter or its first one is empty, without
    consulting the verifier; it rejects with ["Invalid authentication
    token"] when the verifier refuses the token; otherwise it suspends,
    not aborted, holding the verified claims and the three negotiation
    headers of the request.  A finished handshake has written exactly one
    rejection. *)
Theorem X10_upgrade_outcomes (jwt_verify : string → option Decoded)
    (req : HttpRequest) :
  (upgrade jwt_verify req
     = Finished [WriteEnd "401 Unauthorized" "Authentication token required"]
   ↔ (∀ v, ("token", v) ∉ req_query req)
     ∨ extractTokenFromQuery (req_query req) = Some "")
  ∧ (∀ writes, upgrade jwt_verify req = Finished writes →
       ∃ body, writes = [WriteEnd "401 Unauthorized" body])
  ∧ (∀ p, upgrade jwt_verify req = Awaiting p →
       pu_aborted p = false
       ∧ pu_key p = req_key req ∧ pu_protocol p = req_protocol req
       ∧ pu_extensions p = req_extensions req
       ∧ ∃ token, ("token", token) ∈ req_query req ∧ token ≠ ""
                  ∧ jwt_verify token = Some (pu_decoded p)).
Proof.
  split; [|split].
  - unfold upgrade.
    destruct (extractTokenFromQuery (req_query req)) as [token|] eqn:E.
    + case_bool_decide as Ht.
      * subst token. split; [by right|done].
      * split.
        -- by destruct (jwt_verify token).
        -- intros [Hno|Hempty]; [|congruence].
           apply extractTokenFromQuery_Some in E. by destruct (Hno token).
    + split; [|done]. intros _. left. by apply extractTokenFromQuery_None.
  - apply upgrade_Finished.
  - apply upgrade_Awaiting.
Qed.

Lemma collection_or_users_nonempty decoded : collection_or_users decoded ≠ "".
Proof.
  unfold collection_or_users. destruct (dec_collection decoded) as [c|]; [|done].
  by case_bool_decide.
Qed.

(** [X11] A whole handshake writes on the response at most once.  It
    writes nothing exactly when the client aborted while the identity
    lookup was pending.  It upgrades only if the client did not abort,
    the token was present, non-empty and verified, and the lookup found a
    user document; the user data of the upgrade then carries the given
    fresh id, an empty room set, the document's id, email and role, a
    non-empty collection (the token's, or ["users"]), and the request's
    negotiation headers. *)
Theorem X11_handshake_writes (jwt_verify : string → option Decoded)
    (req : HttpRequest) (aborts : bool) (result : LookupResult)
    (uuid : string) :
  let writes := handshake jwt_verify req aborts result uuid in
  (length writes ≤ 1)%nat
  ∧ (writes = [] ↔ aborts = true ∧ ∃ p, upgrade jwt_verify req = Awaiting p)
  ∧ (∀ userData key protocol extensions,
       WsUpgrade userData key protocol extensions ∈ writes →
       aborts = false
       ∧ key = req_key req ∧ protocol = req_protocol req
       ∧ extensions = req_extensions req
       ∧ ud_id userData = uuid ∧ ud_rooms userData = ∅
       ∧ ∃ token decoded doc collection,
           ("token", token) ∈ req_query req ∧ token ≠ ""
           ∧ jwt_verify token = Some decoded
           ∧ result = Resolved (Some doc)
           ∧ collection ≠ ""
           ∧ ud_user userData
             = Some {| user_id := doc_id doc; user_email := doc_email doc;
                       user_collection := Some collection;
                       user_role := doc_role doc |}).
Proof.
  intros writes. subst writes. unfold handshake.
  destruct (upgrade jwt_verify req) as [ws|p] eqn:Eu.
  - destruct (upgrade_Finished _ _ _ Eu) as [body ->]. simpl.
    split; [lia|]. split.
    + split; [done|]. by intros [_ [p ?]].
    + intros ud k pr e Hin. apply list_elem_of_singleton in Hin. done.
  - destruct (upgrade_Awaiting _ _ _ Eu)
      as (Hab & Hk & Hp & He & token & Hin & Hne & Hv).
    destruct aborts.
    + assert (upgrade_resume (onAborted p) result uuid = []) as ->
        by (unfold upgrade_resume; by destruct result as [[doc|]|]).
      simpl. split; [lia|].
      split; [split; [intros _; split; [done|by eexists]|done]|].
      intros ud k pr e Hel. by apply elem_of_nil in Hel.
    + unfold upgrade_resume. rewrite Hab.
      destruct result as [[doc|]|err]; simpl; (split; [lia|]);
        (split; [split; [done|by intros [? _]]|]);
        intros ud k pr e Hel; apply list_elem_of_singleton in Hel;
        [|done|done].
      injection Hel as -> -> -> ->. simpl. do 6 (split; [done|]).
      exists token, (pu_decoded p), doc, (collection_or_users (pu_decoded p)).
      split_and!; try done. apply collection_or_users_nonempty.
Qed.

(** [X12] Whatever the request, the verifier, the lookup result and the
    client's abort, replaying a handshake's writes through the transport
    either leaves the manager as it was, or registers exactly one
    connection: under the fresh id, with an identity and an empty room
    set, the registry untouched. *)
Theorem X12_registration_requires_identity (o : UWebSocketPluginOptions)
    (m : Manager) (ws : wsref) (jwt_verify : string → option Decoded)
    (req : HttpRequest) (aborts : bool) (result : LookupResult)
    (uuid : string) :
  let m' :=
    foldl (accept o ws) m (handshake jwt_verify req aborts result uuid) in
  m' = m
  ∨ (sockets m' = <[uuid := ws]> (sockets m)
     ∧ rooms m' = rooms m
     ∧ ∃ userData user,
         wss m' !! ws = Some userData ∧ ud_id userData = uuid
         ∧ ud_user userData = Some user ∧ ud_rooms userData = ∅).
Proof.
  unfold handshake.
  destruct (upgrade jwt_verify req) as [writes|p] eqn:Eu.
  - destruct (upgrade_Finished _ _ _ Eu) as [body ->]. by left.
  - unfold upgrade_resume.
    destruct result as [[doc|]|err];
      destruct (pu_aborted (if aborts then onAborted p else p)); try by left.
    right. cbn [foldl].
    match goal with
    | |- context [accept o ws m (WsUpgrade ?ud ?k ?pr ?e)] =>
        destruct (accept_upgrade_fields o ws m ud k pr e) as (Hw & Hs & Hr & _);
        set (m' := accept o ws m (WsUpgrade ud k pr e)) in *
    end.
    split; [done|]. split; [done|].
    eexists _, _. rewrite Hw, lookup_insert_eq. by split_and!.
Qed.

(** ** Deliveries of a broadcast *)

Lemma deliveries_per_socket_absent m ws label (g : wsref → list Effect)
    (excluded : string → bool) (socketIds : list string) :
  (∀ w, w ≠ ws → deliveries ws label (g w) = []) →
  (∀ socketId, socketId ∈ socketIds →
     excluded socketId = false → sockets m !! socketId ≠ Some ws) →
  deliveries ws label
    (flat_map (λ socketId,
         if excluded socketId then []
         else match sockets m !! socketId with
              | Some socket => g socket
              | None => []
              end) socketIds) = [].
Proof.
  intros Hg. induction socketIds as [|s rest IH]; intros Hno; simpl; [done|].
  rewrite deliveries_app, IH
    by (intros s' Hin; apply Hno; by apply list_elem_of_further).
  rewrite app_nil_r.
  specialize (Hno s (list_elem_of_here _ _)).
  destruct (excluded s); [done|].
  destruct (sockets m !! s) as [w|] eqn:Es; [|done].
  apply Hg. intros ->. by apply Hno.
Qed.

(** A loop that looks every id of a duplicate-free list up in the table
    and produces, for the socket found, effects addressed to that socket
    only: what one socket of the table is sent. *)
Lemma deliveries_per_socket m ws label (g : wsref → list Effect)
    (excluded : string → bool) (socketIds : list string) socketId :
  (∀ w, w ≠ ws → deliveries ws label (g w) = []) →
  table_consistent m → NoDup socketIds →
  sockets m !! socketId = Some ws →
  deliveries ws label
    (flat_map (λ socketId,
         if excluded socketId then []
         else match sockets m !! socketId with
              | Some socket => g socket
              | None => []
              end) socketIds)
  = if decide (socketId ∈ socketIds)
    then (if excluded socketId then [] else deliveries ws label (g ws))
    else [].
Proof.
  intros Hg Ht Hnd Hs.
  assert (∀ s, sockets m !! s = Some ws → s = socketId) as Hinj.
  { intros s Hs'. destruct (Ht _ _ Hs) as (ud & Hu & <-).
    destruct (Ht _ _ Hs') as (ud' & Hu' & <-). congruence. }
  induction socketIds as [|s rest IH]; simpl.
  - first [done | by rewrite decide_False by apply not_elem_of_nil].
  - apply NoDup_cons in Hnd as [Hs_rest Hnd]. rewrite deliveries_app.
    destruct (decide (s = socketId)) as [->|Hne].
    + rewrite (decide_True (P := _ ∈ _ :: _)) by apply list_elem_of_here.
      rewrite (deliveries_per_socket_absent m ws label g excluded rest Hg).
      * rewrite app_nil_r. destruct (excluded socketId); [done|].
        by rewrite Hs.
      * intros s' Hin _ Hs'. apply Hinj in Hs'. by subst s'.
    + rewrite IH by done.
      assert (deliveries ws label
                (if excluded s then []
                 else match sockets m !! s with
                      | Some socket => g socket
                      | None => []
                      end) = []) as ->.
      { destruct (excluded s); [done|].
        destruct (sockets m !! s) as [w|] eqn:Es; [|done].
        apply Hg. intros ->. apply Hne. by apply Hinj. }
      simpl. destruct (decide (socketId ∈ rest)) as [Hin|Hin].
      * rewrite decide_True; [done|by apply list_elem_of_further].
      * rewrite decide_False; [done|]. rewrite elem_of_cons. naive_solver.
Qed.

Lemma deliveries_sendToSocket ws label w label' p :
  deliveries ws label (sendToSocket w label' p) =
    if bool_decide (w = ws) && bool_decide (label' = label) then [p] else [].
Proof.
  unfold deliveries, sendToSocket. simpl.
  by destruct (bool_decide (w = ws) && bool_decide (label' = label)).
Qed.

Lemma reachable_public o m : reachable o m → public_reachable o m.
Proof.
  intros [redis Hr]. exists redis.
  eapply rtc_subrel; [|exact Hr]. intros x y Hxy. by left.
Qed.

Lemma deliveries_broadcastToRoom m room data label exclude socketId ws label' :
  table_consistent m →
  sockets m !! socketId = Some ws →
  deliveries ws label' (broadcastToRoom m room data label exclude)
  = if bool_decide (label = label')
    then (if decide (socketId ∈ members m room)
          then (if is_excluded exclude socketId then [] else [data]) else [])
    else [].
Proof.
  intros Ht Hs. unfold broadcastToRoom.
  rewrite deliveries_app, deliveries_publishToRedis, app_nil_r.
  rewrite (deliveries_per_socket m ws label'
             (λ socket, sendToSocket socket label data)
             (is_excluded exclude) (getSocketsInRoom m room) socketId);
    [|intros w Hne; rewrite deliveries_sendToSocket;
      by rewrite bool_decide_eq_false_2
     |done
     |rewrite getSocketsInRoom_members; apply NoDup_elements
     |done].
  rewrite deliveries_sendToSocket, (bool_decide_eq_true_2 (ws = ws)) by done.
  simpl.
  destruct (decide (socketId ∈ members m room)) as [Hin|Hin].
  - rewrite decide_True by (by apply elem_of_getSocketsInRoom).
    destruct (bool_decide (label = label')); [done|].
    by destruct (is_excluded exclude socketId).
  - rewrite decide_False by (by rewrite elem_of_getSocketsInRoom).
    by destruct (bool_decide (label = label')).
Qed.

(** [X13] In every state the manager can be in, [broadcastToRoom] sends
    its data under its label exactly once to each connection of the
    table that is a member of the room and not the excluded one, and not
    at all to the excluded member and to connections outside the room.
    An empty exclusion id excludes nobody. *)
Theorem X13_broadcast_deliveries (o : UWebSocketPluginOptions) (m : Manager)
    (room : string) (data : Payload) (label : string)
    (exclude : option string) (socketId : string) (ws : wsref) :
  public_reachable o m →
  sockets m !! socketId = Some ws →
  deliveries ws label (broadcastToRoom m room data label exclude)
  = (if decide (socketId ∈ members m room)
     then (if is_excluded exclude socketId then [] else [data]) else [])
  ∧ broadcastToRoom m room data label (Some "")
    = broadcastToRoom m room data label None.
Proof.
  intros Hr Hs. split; [|done].
  pose proof (public_reachable_table_consistent o m Hr) as Ht.
  rewrite (deliveries_broadcastToRoom m room data label exclude socketId ws)
    by done.
  by rewrite bool_decide_eq_true_2.
Qed.

Lemma X13_witness :
  deliveries 0 "note" (broadcastToRoom one_subscriber "collection:posts"
                         (PData (DScalar "hello")) "note" (Some "s1")) = []
  ∧ deliveries 0 "note" (broadcastToRoom one_subscriber "collection:posts"
                           (PData (DScalar "hello")) "note" None)
    = [PData (DScalar "hello")].
Proof.
  split.
  - exact (proj1 (X13_broadcast_deliveries no_options one_subscriber
                    "collection:posts" (PData (DScalar "hello")) "note"
                    (Some "s1") "s1" 0
                    (reachable_public _ _ one_subscriber_reachable) eq_refl)).
  - exact (proj1 (X13_broadcast_deliveries no_options one_subscriber
                    "collection:posts" (PData (DScalar "hello")) "note"
                    None "s1" 0
                    (reachable_public _ _ one_subscriber_reachable) eq_refl)).
Defined.

(** ** What [emitEvent] delivers and publishes *)

Lemma publications_app effs1 effs2 :
  publications (effs1 ++ effs2) = publications effs1 ++ publications effs2.
Proof. unfold publications. apply omap_app. Qed.

Lemma publications_none effs :
  (∀ e, e ∈ effs → ∃ ws label p, e = Send ws label p) →
  publications effs = [].
Proof.
  induction effs as [|e effs IH]; intros Hall; [done|].
  destruct (Hall e (list_elem_of_here _ _)) as (ws & label & p & ->).
  unfold publications in *. simpl. apply IH.
  intros e' Hin. by apply Hall, list_elem_of_further.
Qed.

Lemma publications_publishToRedis m type room eventName data :
  publications (publishToRedis m type room eventName data) =
    if pubClient m
    then [{| relay_type := type; relay_room := room;
             relay_eventName := eventName;
             relay_event := data; relay_message := data |}]
    else [].
Proof. unfold publishToRedis. by destruct (pubClient m). Qed.

Lemma publications_broadcastToRoom m room data eventName exclude :
  publications (broadcastToRoom m room data eventName exclude) =
    if pubClient m
    then [{| relay_type := "room-broadcast"; relay_room := room;
             relay_eventName := eventName;
             relay_event := data; relay_message := data |}]
    else [].
Proof.
  unfold broadcastToRoom.
  rewrite publications_app, publications_publishToRedis.
  rewrite publications_none; [done|].
  intros e [s [He _]]%elem_of_flat_map.
  destruct (is_excluded exclude s); [by apply elem_of_nil in He|].
  destruct (sockets m !! s); [|by apply elem_of_nil in He].
  apply list_elem_of_singleton in He. by eexists _, _, _.
Qed.

Lemma publications_emit_all m finalEvent :
  publications (emit_all m finalEvent) = [].
Proof.
  apply publications_none. intros e (s & w & _ & ->)%elem_of_emit_all.
  by eexists _, _, _.
Qed.

Lemma publications_emit_authorized m h finalEvent socketIds :
  publications (emit_authorized m h finalEvent socketIds).1 = [].
Proof.
  apply publications_none. intros e He.
  destruct (emit_authorized_effects _ _ _ _ _ He) as (s & w & ud & u & ? & ? & ? & ? & ? & ->).
  by eexists _, _, _.
Qed.

(** The authorized loop over ids that are all in the table is a plain
    loop over the sockets found. *)
Lemma emit_authorized_registered m h finalEvent socketIds :
  Forall (λ socketId, is_Some (sockets m !! socketId)) socketIds →
  emit_authorized m h finalEvent socketIds =
    (flat_map (λ socketId,
         match sockets m !! socketId with
         | Some socket =>
             match wss m !! socket with
             | Some socketData =>
                 match ud_user socketData with
                 | Some user =>
                     if h user finalEvent
                     then sendToSocket socket "payload:event"
                            (PEvent finalEvent)
                     else []
                 | None => []
                 end
             | None => []
             end
         | None => []
         end) socketIds, Normal).
Proof.
  induction 1 as [|s rest [w Es] _ IH]; simpl; [done|].
  rewrite Es, IH. done.
Qed.

(** [X14] Without authorization configured, in every state the manager
    can be in, an event that passes the filter is sent under
    ["payload:event"] exactly once to each connection of the table that
    is a member of the collection's room and to no other, and under
    ["payload:event:all"] exactly once to every connection of the table.
    With a publishing client the event is published twice, first as
    ["room-broadcast"] by [broadcastToRoom] and then as ["event"];
    without one nothing is published. *)
Theorem X14_unrestricted_emit (o : UWebSocketPluginOptions) (m : Manager)
    (event : RealtimeEventPayload) (socketId : string) (ws : wsref) :
  public_reachable o m →
  passes_filter o event = true →
  authorize o = None →
  sockets m !! socketId = Some ws →
  let room := collection_room (ev_collection event) in
  let data := PEvent (final_event o event) in
  let envelope kind :=
    {| relay_type := kind; relay_room := room;
       relay_eventName := "payload:event";
       relay_event := data; relay_message := data |} in
  (emitEvent o m event).2 = Normal
  ∧ deliveries ws "payload:event" (emitEvent o m event).1
    = (if decide (socketId ∈ members m room) then [data] else [])
  ∧ deliveries ws "payload:event:all" (emitEvent o m event).1 = [data]
  ∧ publications (emitEvent o m event).1
    = (if pubClient m then [envelope "room-broadcast"; envelope "event"]
       else []).
Proof.
  intros Hr Hf Ha Hs room data envelope.
  pose proof (public_reachable_table_consistent o m Hr) as Ht.
  rewrite emitEvent_passed by done. simpl. rewrite Ha. simpl.
  fold room. fold data.
  destruct (deliveries_emit_all m (final_event o event) socketId ws Ht Hs)
    as [Hall Hnone].
  split; [done|]. split; [|split].
  - rewrite !deliveries_app, deliveries_publishToRedis, app_nil_r, Hnone,
      app_nil_r.
    rewrite (deliveries_broadcastToRoom m room data "payload:event" None
               socketId ws) by done.
    simpl. by destruct (decide (socketId ∈ members m room)).
  - rewrite !deliveries_app, deliveries_publishToRedis, app_nil_r, Hall.
    by rewrite (deliveries_broadcastToRoom m room data "payload:event" None
                  socketId ws) by done.
  - rewrite !publications_app, publications_broadcastToRoom,
      publications_emit_all, publications_publishToRedis.
    by destruct (pubClient m).
Qed.

Lemma X14_witness :
  deliveries 0 "payload:event" (emitEvent no_options one_subscriber post7).1
    = [PEvent post7]
  ∧ length (publications (emitEvent no_options one_subscriber post7).1) = 2.
Proof.
  destruct (X14_unrestricted_emit no_options one_subscriber post7 "s1" 0
              (reachable_public _ _ one_subscriber_reachable)
              eq_refl eq_refl eq_refl) as (_ & Hroom & _ & Hpub).
  split; [exact Hroom|]. by rewrite Hpub.
Defined.

(** [X15] An [emitEvent] call that runs to its end with no other task in
    between (no connection opens, closes or sends a message while a
    handler is awaited) and whose handler returns a value and changes
    nothing.  With a handler registered for the event's collection, in
    every state reached through transport events, such a call returns
    normally and a connection of the table is sent the event under
    ["payload:event"] exactly once if it is a member of the collection's
    room, has an identity and the handler lets that identity through, and
    not at all otherwise.  The event is published once, as ["event"],
    when there is a publishing client. *)
Theorem X15_authorized_emit (o : UWebSocketPluginOptions) (m : Manager)
    (event : RealtimeEventPayload)
    (handlers : gmap string (User → RealtimeEventPayload → bool))
    (h : User → RealtimeEventPayload → bool)
    (socketId : string) (ws : wsref) (userData : WebSocketUserData) :
  reachable o m →
  passes_filter o event = true →
  authorize o = Some handlers →
  handlers !! ev_collection event = Some h →
  sockets m !! socketId = Some ws →
  wss m !! ws = Some userData →
  let room := collection_room (ev_collection event) in
  let data := PEvent (final_event o event) in
  (emitEvent o m event).2 = Normal
  ∧ deliveries ws "payload:event" (emitEvent o m event).1
    = (if decide (socketId ∈ members m room)
       then match ud_user userData with
            | Some user => if h user (final_event o event) then [data] else []
            | None => []
            end
       else [])
  ∧ deliveries ws "payload:event:all" (emitEvent o m event).1 = [data]
  ∧ publications (emitEvent o m event).1
    = (if pubClient m
       then [{| relay_type := "event"; relay_room := room;
                relay_eventName := "payload:event";
                relay_event := data; relay_message := data |}]
       else []).
Proof.
  intros Hr Hf Ha Hh Hs Hw room data.
  destruct (reachable_invariant o m Hr) as (Ht & _ & Hreg).
  rewrite emitEvent_passed by done. simpl. rewrite Ha, Hh. fold room.
  assert (Forall (λ s, is_Some (sockets m !! s)) (getSocketsInRoom m room))
    as Hall.
  { apply Forall_forall. intros s Hin. apply (Hreg room).
    by apply elem_of_getSocketsInRoom. }
  assert (NoDup (getSocketsInRoom m room)) as Hnd
    by (rewrite getSocketsInRoom_members; apply NoDup_elements).
  set (g := λ socket : wsref,
         match wss m !! socket with
         | Some socketData =>
             match ud_user socketData with
             | Some user =>
                 if h user (final_event o event)
                 then sendToSocket socket "payload:event"
                        (PEvent (final_event o event))
                 else []
             | None => []
             end
         | None => []
         end).
  assert (∀ label w, w ≠ ws → deliveries ws label (g w) = []) as Hg.
  { intros label w Hne. subst g. simpl.
    destruct (wss m !! w) as [ud|]; [|done].
    destruct (ud_user ud) as [u|]; [|done].
    destruct (h u (final_event o event)); [|done].
    by rewrite deliveries_sendToSocket, bool_decide_eq_false_2. }
  assert (∀ label,
            deliveries ws label
              (emit_authorized m h (final_event o event)
                 (getSocketsInRoom m room)).1
            = if decide (socketId ∈ members m room)
              then deliveries ws label (g ws) else []) as Hloop.
  { intros label. rewrite (emit_authorized_registered m h _ _ Hall).
    etrans; [exact (deliveries_per_socket m ws label g (λ _, false)
                      (getSocketsInRoom m room) socketId (Hg _) Ht Hnd Hs)|].
    simpl. destruct (decide (socketId ∈ members m room)) as [Hin|Hin].
    - by rewrite decide_True by (by apply elem_of_getSocketsInRoom).
    - by rewrite decide_False by (by rewrite elem_of_getSocketsInRoom). }
  pose proof (publications_emit_authorized m h (final_event o event)
                (getSocketsInRoom m room)) as Hpub.
  assert ((emit_authorized m h (final_event o event)
             (getSocketsInRoom m room)).2 = Normal) as Hnormal
    by (by rewrite (emit_authorized_registered m h _ _ Hall)).
  destruct (emit_authorized m h (final_event o event)
              (getSocketsInRoom m room)) as [scoped c].
  simpl in Hloop, Hpub, Hnormal. subst c. simpl.
  destruct (deliveries_emit_all m (final_event o event) socketId ws Ht Hs)
    as [Hevall Hnone].
  assert (∀ label, deliveries ws label (g ws) =
            match ud_user userData with
            | Some user =>
                if h user (final_event o event)
                then (if bool_decide ("payload:event" = label)
                      then [data] else [])
                else []
            | None => []
            end) as Hgws.
  { intros label. subst g. simpl. rewrite Hw.
    destruct (ud_user userData) as [u|]; [|done].
    destruct (h u (final_event o event)); [|done].
    by rewrite deliveries_sendToSocket, bool_decide_eq_true_2. }
  split; [done|]. split; [|split].
  - rewrite !deliveries_app, deliveries_publishToRedis, app_nil_r, Hnone,
      app_nil_r, Hloop, Hgws.
    by rewrite bool_decide_eq_true_2.
  - rewrite !deliveries_app, deliveries_publishToRedis, app_nil_r, Hevall,
      Hloop, Hgws.
    rewrite (bool_decide_eq_false_2 ("payload:event" = "payload:event:all"))
      by done.
    destruct (decide (socketId ∈ members m room)); [|done].
    destruct (ud_user userData) as [u|]; [|done].
    by destruct (h u (final_event o event)).
  - rewrite !publications_app, Hpub, publications_emit_all,
      publications_publishToRedis.
    by destruct (pubClient m).
Qed.

Lemma one_subscriber_reachable_authorized :
  reachable posts_for_all one_subscriber.
Proof.
  exists true. eapply rtc_l; [|eapply rtc_l; [|apply rtc_refl]].
  - by apply (step_open posts_for_all (new_manager true) 0
                {| ud_user := Some alice; ud_id := "s1"; ud_rooms := ∅ |}
                "" "" "").
  - by apply (step_message posts_for_all _ 0
                {| ud_user := Some alice; ud_id := "s1"; ud_rooms := ∅ |}
                (join_message "posts")).
Defined.

Lemma X15_witness :
  deliveries 0 "payload:event" (emitEvent posts_for_all one_subscriber post7).1
    = [PEvent post7]
  ∧ (emitEvent posts_for_all one_subscriber post7).2 = Normal.
Proof.
  destruct (X15_authorized_emit posts_for_all one_subscriber post7
              {[ "posts" := λ _ _, true ]} (λ _ _, true) "s1" 0
              {| ud_user := Some alice; ud_id := "s1";
                 ud_rooms := {[ "collection:posts" ]} |}
              one_subscriber_reachable_authorized
              eq_refl eq_refl eq_refl eq_refl)
    as (Hn & Hd & _).
  - vm_compute. reflexivity.
  - split; [exact Hd|exact Hn].
Defined.

(** ** Across the relay *)

(** [X16] What [publishToRedis] publishes, [handleRedisMessage] reads
    back: for a message of kind ["event"] or ["room-broadcast"] the
    receiving instance runs [broadcastToRoom] with the published room,
    data and label and with no exclusion (an exclusion made by the
    publisher does not travel), whatever the channel argument; a message
    of any other kind is dropped. *)
Theorem X16_relay_round_trip (publisher receiver : Manager)
    (kind room label channel : string) (data : Payload)
    (env : RelayEnvelope) :
  Publish env ∈ publishToRedis publisher kind room label data →
  handleRedisMessage receiver channel (Some env) =
    if bool_decide (kind = "event") || bool_decide (kind = "room-broadcast")
    then broadcastToRoom receiver room data label None
    else [].
Proof.
  intros [_ [= ->]]%elem_of_publishToRedis. unfold handleRedisMessage. simpl.
  destruct (bool_decide (kind = "event")); [done|].
  by destruct (bool_decide (kind = "room-broadcast")).
Qed.

Lemma X16_witness :
  handleRedisMessage one_subscriber "uwebsocket:events" (Some relayed_event)
  = broadcastToRoom one_subscriber "collection:posts" (PEvent post7)
      "payload:event" None.
Proof.
  apply (X16_relay_round_trip one_subscriber one_subscriber "event"
           "collection:posts" "payload:event" "uwebsocket:events"
           (PEvent post7) relayed_event).
  apply list_elem_of_here.
Defined.

Lemma publications_authorized_part m
    (handlers : gmap string (User → RealtimeEventPayload → bool))
    collection finalEvent socketIds :
  publications
    (match handlers !! collection with
     | Some collectionHandler =>
         emit_authorized m collectionHandler finalEvent socketIds
     | None =>
         match Object_prototype collection with
         | Some InheritedTruthy =>
             emit_authorized m (λ _ _, true) finalEvent socketIds
         | Some InheritedThrows => emit_uncallable m socketIds
         | None => ([], Normal)
         end
     end).1 = [].
Proof.
  destruct (handlers !! collection) as [h|];
    [apply publications_emit_authorized|].
  destruct (Object_prototype collection) as [[|]|];
    [apply publications_emit_authorized| |done].
  by rewrite emit_uncallable_effects.
Qed.

(** [X17] Authorization is applied where the event is emitted, not where
    it is relayed to: when an instance with authorization configured and
    a publishing client emits an event and returns normally, it
    publishes one ["event"] message, whatever its handlers decided, and
    an instance that receives this message sends the event under
    ["payload:event"] to every member of the room that its table
    knows. *)
Theorem X17_relayed_events_skip_authorization (o : UWebSocketPluginOptions)
    (emitter receiver : Manager) (event : RealtimeEventPayload)
    (handlers : gmap string (User → RealtimeEventPayload → bool))
    (channel : string) :
  passes_filter o event = true →
  authorize o = Some handlers →
  pubClient emitter = true →
  (emitEvent o emitter event).2 = Normal →
  ∃ env,
    publications (emitEvent o emitter event).1 = [env]
    ∧ ∀ socketId ws,
        socketId ∈ members receiver (collection_room (ev_collection event)) →
        sockets receiver !! socketId = Some ws →
        Send ws "payload:event" (PEvent (final_event o event))
          ∈ handleRedisMessage receiver channel (Some env).
Proof.
  intros Hf Ha Hp. rewrite emitEvent_passed by done. simpl. rewrite Ha.
  set (room := collection_room (ev_collection event)).
  set (data := PEvent (final_event o event)).
  pose proof (publications_authorized_part emitter handlers
                (ev_collection event) (final_event o event)
                (getSocketsInRoom emitter room)) as Hs.
  destruct (match handlers !! ev_collection event with
            | Some _ => _ | None => _ end) as [scoped c].
  simpl in Hs.
  destruct c; [|done]. intros _. simpl.
  eexists. split.
  - rewrite !publications_app, Hs, publications_emit_all,
      publications_publishToRedis, Hp. done.
  - intros socketId ws Hin Hsock. unfold handleRedisMessage. simpl.
    apply elem_of_broadcastToRoom. left. by exists socketId, ws.
Qed.

Lemma X17_witness :
  deliveries 0 "payload:event" (emitEvent posts_for_none one_subscriber post7).1
    = []
  ∧ ∃ env,
      publications (emitEvent posts_for_none one_subscriber post7).1 = [env]
      ∧ Send 0 "payload:event" (PEvent post7)
          ∈ handleRedisMessage one_subscriber "uwebsocket:events" (Some env).
Proof.
  split; [vm_compute; reflexivity|].
  destruct (X17_relayed_events_skip_authorization posts_for_none
              one_subscriber one_subscriber post7
              {[ "posts" := λ _ _, false ]}
              "uwebsocket:events" eq_refl eq_refl eq_refl)
    as (env & Hpub & Hsend).
  - vm_compute. reflexivity.
  - exists env. split; [exact Hpub|].
    apply (Hsend "s1" 0); vm_compute; reflexivity.
Defined.

(** [X18] Without a publishing client nothing is ever published: not by
    [emitEvent], not by [broadcastToRoom], not by the notifications of
    [close], not by [handleRedisMessage]. *)
Theorem X18_single_instance_publishes_nothing (o : UWebSocketPluginOptions)
    (m : Manager) :
  pubClient m = false →
  (∀ event, publications (emitEvent o m event).1 = [])
  ∧ (∀ room data label exclude,
       publications (broadcastToRoom m room data label exclude) = [])
  ∧ (∀ ws, publications (close m ws).2 = [])
  ∧ (∀ channel message,
       publications (handleRedisMessage m channel message) = []).
Proof.
  intros Hp.
  assert (∀ room data label exclude,
            publications (broadcastToRoom m room data label exclude) = [])
    as Hb by (intros; by rewrite publications_broadcastToRoom, Hp).
  split; [|split; [done|split]].
  - intros event. destruct (passes_filter o event) eqn:Hf;
      [|by rewrite emitEvent_filtered].
    rewrite emitEvent_passed by done. simpl.
    destruct (authorize o) as [handlers|].
    + pose proof (publications_authorized_part m handlers
                    (ev_collection event) (final_event o event)
                    (getSocketsInRoom m
                       (collection_room (ev_collection event)))) as Hpa.
      destruct (match handlers !! ev_collection event with
                | Some _ => _ | None => _ end) as [scoped c].
      simpl in Hpa. destruct c; simpl; [|done].
      by rewrite !publications_app, Hpa, publications_emit_all,
           publications_publishToRedis, Hp.
    + simpl. by rewrite !publications_app, Hb, publications_emit_all,
                  publications_publishToRedis, Hp.
  - intros ws. destruct (wss m !! ws) as [ud|] eqn:Hw;
      [|unfold close; by rewrite Hw].
    rewrite (close_effects m ws ud Hw).
    induction (elements (ud_rooms ud)) as [|r l IH]; simpl; [done|].
    rewrite publications_app, IH, app_nil_r. unfold notify_left.
    destruct (ud_user ud); [|done].
    destruct (String.prefix "project:" r); [apply Hb|].
    destruct (String.prefix "actor:" r); [apply Hb|done].
  - intros channel [env|]; [|done]. unfold handleRedisMessage.
    destruct (bool_decide _); [apply Hb|].
    destruct (bool_decide _); [apply Hb|done].
Qed.

Lemma X18_witness :
  publications (emitEvent no_options (two_in_room "project:alpha") post7).1 = []
  ∧ publications (close (two_in_room "project:alpha") 0).2 = [].
Proof.
  destruct (X18_single_instance_publishes_nothing no_options
              (two_in_room "project:alpha") eq_refl) as (He & _ & Hc & _).
  split; [apply He|apply Hc].
Defined.

(** ** Default-deny *)

(** [X21] In a state the manager can be in, for an event that passes the
    global filter while authorization is configured, holds no handler for
    the event's collection, and the collection's name is none that the
    configuration object inherits: [emitEvent] returns normally, no
    socket is sent anything under ["payload:event"], and every connection
    of the table is sent the (transformed) event under
    ["payload:event:all"] exactly once. *)
Theorem X21_default_deny_for_own_names (o : UWebSocketPluginOptions)
    (m : Manager) (event : RealtimeEventPayload)
    (handlers : gmap string (User → RealtimeEventPayload → bool)) :
  public_reachable o m →
  passes_filter o event = true →
  authorize o = Some handlers →
  handlers !! ev_collection event = None →
  Object_prototype (ev_collection event) = None →
  (emitEvent o m event).2 = Normal
  ∧ (∀ ws, deliveries ws "payload:event" (emitEvent o m event).1 = [])
  ∧ (∀ socketId ws, sockets m !! socketId = Some ws →
       deliveries ws "payload:event:all" (emitEvent o m event).1
       = [PEvent (final_event o event)]).
Proof.
  intros Hr Hf Ha Hh Hp.
  pose proof (public_reachable_table_consistent o m Hr) as Ht.
  rewrite emitEvent_passed by done. simpl. rewrite Ha, Hh, Hp. simpl.
  split; [done|]. split.
  - intros ws. rewrite deliveries_app, deliveries_publishToRedis, app_nil_r.
    rewrite emit_all_fmap. by apply deliveries_other_label.
  - intros socketId ws Hs.
    rewrite deliveries_app, deliveries_publishToRedis, app_nil_r.
    by apply (deliveries_emit_all m _ socketId).
Qed.

Lemma X21_witness :
  (emitEvent drafts_only one_subscriber post7).2 = Normal
  ∧ (∀ ws, deliveries ws "payload:event"
             (emitEvent drafts_only one_subscriber post7).1 = [])
  ∧ (∀ socketId ws, sockets one_subscriber !! socketId = Some ws →
       deliveries ws "payload:event:all"
         (emitEvent drafts_only one_subscriber post7).1
       = [PEvent (final_event drafts_only post7)]).
Proof.
  apply (X21_default_deny_for_own_names drafts_only one_subscriber post7
           {[ "drafts" := λ _ _, true ]}); [|reflexivity..].
  exists true. eapply rtc_l; [|eapply rtc_l; [|apply rtc_refl]].
  - left.
    by apply (step_open drafts_only (new_manager true) 0
                {| ud_user := Some alice; ud_id := "s1"; ud_rooms := ∅ |}
                "" "" "").
  - left.
    by apply (step_message drafts_only _ 0
                {| ud_user := Some alice; ud_id := "s1"; ud_rooms := ∅ |}
                (join_message "posts")).
Defined.

Lemma emit_uncallable_throws m socketIds socketId ws userData user :
  socketId ∈ socketIds → sockets m !! socketId = Some ws →
  wss m !! ws = Some userData → ud_user userData = Some user →
  emit_uncallable m socketIds = ([], Thrown "TypeError").
Proof.
  intros Hin Hs Hw Hu. induction socketIds as [|s rest IH]; simpl.
  - by apply elem_of_nil in Hin.
  - destruct (sockets m !! s) as [w|] eqn:Es; [|done].
    destruct (wss m !! w) as [ud|] eqn:Ew.
    + destruct (ud_user ud) eqn:Eu; [done|].
      apply elem_of_cons in Hin as [->|Hin]; [|by apply IH].
      congruence.
    + apply elem_of_cons in Hin as [->|Hin]; [|by apply IH].
      congruence.
Qed.

(** [X22] With authorization configured and no handler registered for
    the event's collection, an event of a collection whose name the
    configuration object inherits as something that cannot be called
    this way (["valueOf"], ["hasOwnProperty"], ["__proto__"] and the
    like) makes [emitEvent] fail with a [TypeError] as soon as the
    collection's room has a member with an identity: nothing is sent, not
    even under ["payload:event:all"], and nothing is published. *)
Theorem X22_uncallable_inherited_name (o : UWebSocketPluginOptions)
    (m : Manager) (event : RealtimeEventPayload)
    (handlers : gmap string (User → RealtimeEventPayload → bool))
    (socketId : string) (ws : wsref) (userData : WebSocketUserData)
    (user : User) :
  passes_filter o event = true →
  authorize o = Some handlers →
  handlers !! ev_collection event = None →
  Object_prototype (ev_collection event) = Some InheritedThrows →
  socketId ∈ members m (collection_room (ev_collection event)) →
  sockets m !! socketId = Some ws →
  wss m !! ws = Some userData → ud_user userData = Some user →
  emitEvent o m event = ([], Thrown "TypeError").
Proof.
  intros Hf Ha Hh Hp Hin Hs Hw Hu.
  rewrite emitEvent_passed by done. simpl. rewrite Ha, Hh, Hp.
  rewrite (emit_uncallable_throws m _ socketId ws userData user); try done.
  by apply elem_of_getSocketsInRoom.
Qed.

Lemma X22_witness :
  emitEvent no_handlers valueOf_subscriber valueOf7 = ([], Thrown "TypeError").
Proof.
  apply (X22_uncallable_inherited_name no_handlers valueOf_subscriber
           valueOf7 ∅ "s1" 0
           {| ud_user := Some alice; ud_id := "s1";
              ud_rooms := {[ "collection:valueOf" ]} |} alice);
    vm_compute; reflexivity.
Defined.

(** ** Reconnection delay and plugin set-up *)

(** [X19] The reconnection delay grows by 50 ms per attempt up to the
    40th attempt and stays at 2000 ms from there on; it never exceeds
    2000 ms and never decreases with the attempt count. *)
Theorem X19_retry_delay_capped (times : Z) :
  (retryStrategy times ≤ 2000)%Z
  ∧ (∀ later, (times ≤ later)%Z → (retryStrategy times ≤ retryStrategy later)%Z)
  ∧ ((times ≤ 40)%Z → retryStrategy times = (times * 50)%Z)
  ∧ ((40 ≤ times)%Z → retryStrategy times = 2000%Z).
Proof. unfold retryStrategy. repeat split; intros; lia. Qed.

Lemma X19_witness : retryStrategy 3 = 150%Z ∧ retryStrategy 1000 = 2000%Z.
Proof.
  split.
  - apply (proj1 (proj2 (proj2 (X19_retry_delay_capped 3)))). lia.
  - apply (proj2 (proj2 (proj2 (X19_retry_delay_capped 1000)))). lia.
Defined.

Lemma shouldEmitForCollection_defaults pluginOptions slug :
  shouldEmitForCollection (with_defaults pluginOptions) slug =
    bool_decide (slug ∈ default [] (includeCollections pluginOptions)).
Proof.
  unfold shouldEmitForCollection, with_defaults. simpl.
  destruct (default [] (includeCollections pluginOptions)) as [|x l].
  - rewrite (bool_decide_eq_false_2 (0 < length [])%nat) by (simpl; lia).
    symmetry. apply bool_decide_eq_false_2, not_elem_of_nil.
  - by rewrite (bool_decide_eq_true_2 (0 < length (x :: l))%nat)
      by (simpl; lia).
Qed.

(** [X20] Switched off ([enabled: false]) the plugin returns the host
    configuration as it is.  Otherwise it keeps the number, the order and
    the slugs of the collections; a collection whose slug is listed in
    [includeCollections] keeps its own hooks and gets the plugin's
    after-change and after-delete hook appended behind them; every other
    collection, and every collection when the list is missing or empty,
    is returned unchanged.  Storing the socket manager is appended to the
    host's own initialisation. *)
Theorem X20_plugin_installs_hooks (pluginOptions : PluginSwitches)
    (incomingConfig : Config) :
  (enabled pluginOptions = Some false →
     uWebSocketPlugin pluginOptions incomingConfig = incomingConfig)
  ∧ (enabled pluginOptions ≠ Some false →
     cfg_onInit (uWebSocketPlugin pluginOptions incomingConfig)
       = cfg_onInit incomingConfig ++ [StoreSocketManager]
     ∧ ∃ collections,
         cfg_collections (uWebSocketPlugin pluginOptions incomingConfig)
           = Some collections
         ∧ length collections
           = length (default [] (cfg_collections incomingConfig))
         ∧ ∀ i collection,
             default [] (cfg_collections incomingConfig) !! i = Some collection →
             collections !! i =
               Some (if bool_decide
                          (coll_slug collection
                             ∈ default [] (includeCollections pluginOptions))
                     then
                       {| coll_slug := coll_slug collection;
                          coll_afterChange :=
                            coll_afterChange collection
                              ++ [EmitAfterChange (coll_slug collection)];
                          coll_afterDelete :=
                            coll_afterDelete collection
                              ++ [EmitAfterDelete (coll_slug collection)] |}
                     else collection)).
Proof.
  unfold uWebSocketPlugin. fold (with_defaults pluginOptions). split.
  - intros He. simpl. by rewrite He.
  - intros He.
    assert (bool_decide (enabled (with_defaults pluginOptions) = Some false)
            = false) as ->.
    { apply bool_decide_eq_false_2. simpl.
      destruct (enabled pluginOptions) as [[|]|]; simpl; congruence. }
    simpl. split; [done|]. eexists. split; [done|].
    destruct (cfg_collections incomingConfig) as [l|]; simpl.
    + split; [by rewrite length_fmap|].
      intros i collection Hi. rewrite list_lookup_fmap, Hi. simpl. f_equal.
      unfold with_hooks. rewrite shouldEmitForCollection_defaults.
      by destruct (bool_decide _).
    + split; [done|]. intros i collection Hi. by rewrite lookup_nil in Hi.
Qed.

Lemma X20_witness :
  cfg_collections
    (uWebSocketPlugin {| enabled := None; includeCollections := Some ["posts"] |}
       {| cfg_collections :=
            Some [ {| coll_slug := "posts"; coll_afterChange := [HostHook 1];
                      coll_afterDelete := [] |};
                   {| coll_slug := "media"; coll_afterChange := [];
                      coll_afterDelete := [] |} ];
          cfg_onInit := [HostOnInit] |})
  = Some [ {| coll_slug := "posts";
              coll_afterChange := [HostHook 1; EmitAfterChange "posts"];
              coll_afterDelete := [EmitAfterDelete "posts"] |};
           {| coll_slug := "media"; coll_afterChange := [];
              coll_afterDelete := [] |} ]
  ∧ uWebSocketPlugin {| enabled := Some false; includeCollections := None |}
      {| cfg_collections := None; cfg_onInit := [] |}
    = {| cfg_collections := None; cfg_onInit := [] |}.
Proof.
  split; [vm_compute; reflexivity|].
  exact (proj1 (X20_plugin_installs_hooks
                  {| enabled := Some false; includeCollections := None |}
                  {| cfg_collections := None; cfg_onInit := [] |}) eq_refl).
Defined.
